(** * EMIT processing pipeline: a shallow embedding of [utils/emit_tools.py],
      [utils/synthmix.py] and [unmix_image.py]

    The development follows the Python sources function by function.
    NumPy arrays are nested lists, the missing value of a float array is
    the constructor [NaN], finite floats are carried as exact rationals
    (rounding to float32/float64 is not modelled), Python exceptions are
    the [inl] side of a sum, and an array that the source updates in place
    is threaded through the calls as explicit state. *)

From Stdlib Require Import ZArith QArith Qround Qabs Lia Lqa Bool.
From stdpp Require Import base option list strings sorting.

Local Open Scope Z_scope.

(** Arrays are nested lists, outermost axis first; a Python dict with
    string keys is an association list in insertion order. *)
Abbreviation array1 A := (list A) (only parsing).
Abbreviation array2 A := (list (list A)) (only parsing).
Abbreviation array3 A := (list (list (list A))) (only parsing).
Abbreviation dict V := (list (string * V)) (only parsing).

(** The stacked GLT, shape (rows, cols, 2): component 0 is [glt_x]
    (crosstrack), component 1 is [glt_y] (downtrack), both integers. *)
Abbreviation glt_array := (list (list (Z * Z))) (only parsing).

(* ===================================================================== *)
(** * Float values and NumPy primitives *)
(* ===================================================================== *)

Module NumPy.

(** A cell of a floating-point array: [np.nan] or a finite number. *)
Inductive float : Type :=
  | NaN : float
  | Fin (q : Q) : float.

Definition of_Z (z : Z) : float := Fin (inject_Z z).

(** IEEE [==]: false as soon as one side is NaN. *)
Definition feqb (a b : float) : bool :=
  match a, b with
  | Fin x, Fin y => Qeq_bool x y
  | _, _ => false
  end.

(** IEEE [!=]: the negation of [==], hence true on NaN. *)
Definition fneb (a b : float) : bool := negb (feqb a b).

(** IEEE [<=] and [>]: false as soon as one side is NaN. *)
Definition fleb (a b : float) : bool :=
  match a, b with
  | Fin x, Fin y => Qle_bool x y
  | _, _ => false
  end.

Definition fgtb (a b : float) : bool :=
  match a, b with
  | Fin x, Fin y => negb (Qle_bool x y)
  | _, _ => false
  end.

(** Addition and subtraction propagate NaN. *)
Definition fadd (a b : float) : float :=
  match a, b with
  | Fin x, Fin y => Fin (x + y)
  | _, _ => NaN
  end.

Definition fsub (a b : float) : float :=
  match a, b with
  | Fin x, Fin y => Fin (x - y)
  | _, _ => NaN
  end.

(** [np.nan_to_num(v, nan=d)]. *)
Definition nan_to_num (d : float) (v : float) : float :=
  match v with NaN => d | Fin _ => v end.

(** Conversion of a finite float to an integer: truncation toward zero. *)
Definition trunc (q : Q) : Z := Z.quot (Qnum q) (Z.pos (Qden q)).

(** [np.nan_to_num(v, nan=d).astype(int)] on one cell, for an integer
    replacement value [d]. *)
Definition nan_to_num_int (d : Z) (v : float) : Z :=
  match v with NaN => d | Fin q => trunc q end.


(** [a[r, c]]; [None] when the position is outside the array. *)
Definition cell2 {A} (a : array2 A) (r c : nat) : option A :=
  row ← a !! r; row !! c.

(** [a[r, c, b]]. *)
Definition cell3 {A} (a : array3 A) (r c b : nat) : option A :=
  v ← cell2 a r c; v !! b.

Definition map2d {A B} (f : A → B) (a : array2 A) : array2 B :=
  fmap (M := list) f <$> a.

Definition map3d {A B} (f : A → B) (a : array3 A) : array3 B :=
  map2d (fmap (M := list) f) a.

(** A float array of one, two or three dimensions. *)
Inductive ndarray : Type :=
  | A1 (a : array1 float)
  | A2 (a : array2 float)
  | A3 (a : array3 float).

Definition ndim (d : ndarray) : nat :=
  match d with A1 _ => 1%nat | A2 _ => 2%nat | A3 _ => 3%nat end.

(** [a[:, :, np.newaxis]] on a 2-D array. *)
Definition newaxis (a : array2 float) : array3 float :=
  map2d (λ v, [v]) a.

(** [a.shape] of a rectangular nested list. *)
Definition shape2 {A} (a : array2 A) : list nat :=
  [length a; length (hd [] a)].

Definition shape3 {A} (a : array3 A) : list nat :=
  [length a; length (hd [] a); length (hd [] (hd [] a))].

Definition shape (d : ndarray) : list nat :=
  match d with A1 a => [length a] | A2 a => shape2 a | A3 a => shape3 a end.

(** Integer indexing along an axis of length [n]: negative indices count
    from the end, anything outside [-n, n) raises IndexError. *)
Definition np_index (n : nat) (i : Z) : option nat :=
  if (0 <=? i) && (i <? Z.of_nat n) then Some (Z.to_nat i)
  else if (- Z.of_nat n <=? i) && (i <? 0) then Some (Z.to_nat (Z.of_nat n + i))
  else None.

(** [a[mask] = v] for a same-shaped boolean mask: cells where the mask
    holds are overwritten. *)
Definition set_where (v : float) (hit : float → bool) (x : float) : float :=
  if hit x then v else x.

End NumPy.

Import NumPy.

(** Python exceptions raised by the modelled functions, and the error
    monad that propagates them. *)
Inductive exn : Type :=
  | ValueError
  | IndexError
  | KeyError
  | AttributeError
  | UnboundLocalError
  | EinopsError.

Definition result (A : Type) : Type := (exn + A)%type.

Abbreviation ok a := (inr a) (only parsing).
Abbreviation raise e := (inl e) (only parsing).

Definition bind {A B} (m : result A) (k : A → result B) : result B :=
  match m with
  | inl e => inl e
  | inr a => k a
  end.

(** An optional value whose absence is the exception [e]. *)
Definition or_raise {A} (e : exn) (o : option A) : result A :=
  match o with
  | Some a => ok a
  | None => raise e
  end.

Notation "x <~ m ;; k" := (bind m (λ x, k))
  (at level 100, m at next level, right associativity, only parsing).

(** Sequencing of a list of results: the first exception wins. *)
Fixpoint sequence {A} (l : list (result A)) : result (list A) :=
  match l with
  | [] => ok []
  | m :: l' => a <~ m;; r <~ sequence l';; ok (a :: r)
  end.

(** Dict operations. *)
Fixpoint dict_get {V} (k : string) (d : dict V) : option V :=
  match d with
  | [] => None
  | (k', v) :: d' => if String.eqb k k' then Some v else dict_get k d'
  end.

(** [del d[k]]: KeyError when the key is absent. *)
Fixpoint dict_del {V} (k : string) (d : dict V) : result (dict V) :=
  match d with
  | [] => raise KeyError
  | (k', v) :: d' =>
      if String.eqb k k' then ok d'
      else (r <~ dict_del k d';; ok ((k', v) :: r))
  end.

(** [d[k] = v]: replaces in place, or appends a new key. *)
Fixpoint dict_set {V} (k : string) (v : V) (d : dict V) : dict V :=
  match d with
  | [] => [(k, v)]
  | (k', v') :: d' =>
      if String.eqb k k' then (k, v) :: d' else (k', v') :: dict_set k v d'
  end.

(* ===================================================================== *)
(** * utils/emit_tools.py *)
(* ===================================================================== *)

Module EmitTools.

(** [valid_glt = np.all(glt_array != GLT_NODATA_VALUE, axis=-1)]. *)
Definition valid_glt (GLT_NODATA_VALUE : Z) (g : Z * Z) : bool :=
  negb (g.1 =? GLT_NODATA_VALUE) && negb (g.2 =? GLT_NODATA_VALUE).

(** [glt_array[valid_glt] -= 1] on one cell. *)
Definition adjust_one_based (GLT_NODATA_VALUE : Z) (g : Z * Z) : Z * Z :=
  if valid_glt GLT_NODATA_VALUE g then (g.1 - 1, g.2 - 1) else g.

(** [ds_array[g[1], g[0], :]]: first axis by the y component, second by
    the x component. [None] is NumPy's IndexError. *)
Definition gather (ds_array : array3 float) (g : Z * Z) : option (list float) :=
  y ← np_index (length ds_array) g.2;
  row ← ds_array !! y;
  x ← np_index (length row) g.1;
  row !! x.

(** [apply_glt(ds_array, glt_array, fill_value, GLT_NODATA_VALUE)].

    The function decrements the valid cells of [glt_array] in place before
    it gathers, so the result carries the caller's array as it is after
    the call (first component) next to the returned [out_ds] (second
    component, [None] when the gather raises IndexError, which a 1-D
    [ds_array] always does: it has too few axes for the gather). *)
Definition apply_glt (ds_array : ndarray) (glt : glt_array)
    (fill_value : float) (GLT_NODATA_VALUE : Z)
  : glt_array * option (array3 float) :=
  let glt' := map2d (adjust_one_based GLT_NODATA_VALUE) glt in
  let out_ds :=
    match ds_array with
    | A1 _ => None
    | A2 a => Some (newaxis a, 1%nat)
    | A3 a => Some (a, length (hd [] (hd [] a)))
    end ≫= λ '(ds3, nb),
    mapM (mapM (λ g,
      if valid_glt GLT_NODATA_VALUE g
      then gather ds3 (adjust_one_based GLT_NODATA_VALUE g)
      else Some (replicate nb fill_value))) glt in
  (glt', out_ds).

(** The part of an [xarray.Dataset] the pipeline works on: the ordered
    data variables, the coordinates, and the two attributes that steer
    the code ([geotransform] and [Orthorectified]). *)
Record Dataset : Type := mkDataset {
  data_vars : dict ndarray;
  coords : dict ndarray;
  geotransform : list Q;
  Orthorectified : bool;
}.

(** [ds[name]]: a data variable or a coordinate. *)
Definition ds_get (ds : Dataset) (name : string) : result ndarray :=
  match dict_get name (data_vars ds) with
  | Some a => ok a
  | None => or_raise KeyError (dict_get name (coords ds))
  end.

(** [ds[name].data] for a band that has to be two-dimensional. *)
Definition ds_get2 (ds : Dataset) (name : string) : result (array2 float) :=
  a <~ ds_get ds name;;
  match a with
  | A2 g => ok g
  | _ => raise ValueError
  end.

(** [coord_vects(ds)]: pixel-centre longitude and latitude vectors from
    the geotransform, one entry per GLT column and row. *)
Definition coord_vects (ds : Dataset) : result (list Q * list Q) :=
  glt_x <~ ds_get2 ds "glt_x";;
  let GT := geotransform ds in
  let dim_x := length (hd [] glt_x) in
  let dim_y := length glt_x in
  lon <~ or_raise IndexError (mapM (λ x : nat,
           gt0 ← GT !! 0%nat; gt1 ← GT !! 1%nat;
           Some ((gt0 + (1 # 2) * gt1) + inject_Z (Z.of_nat x) * gt1)%Q)
         (seq 0 dim_x));;
  lat <~ or_raise IndexError (mapM (λ y : nat,
           gt3 ← GT !! 3%nat; gt5 ← GT !! 5%nat;
           Some ((gt3 + (1 # 2) * gt5) + inject_Z (Z.of_nat y) * gt5)%Q)
         (seq 0 dim_y));;
  ok (lon, lat).

(** [np.stack([glt_x, glt_y], axis=-1)] followed by
    [np.nan_to_num(.., nan=GLT_NODATA_VALUE).astype(int)]; stacking two
    arrays of different shapes raises ValueError. *)
Definition stack_glt (GLT_NODATA_VALUE : Z) (glt_x glt_y : array2 float)
  : result glt_array :=
  if bool_decide (map length glt_x = map length glt_y)
  then ok (zip_with (zip_with (λ x y,
             (nan_to_num_int GLT_NODATA_VALUE x,
              nan_to_num_int GLT_NODATA_VALUE y))) glt_x glt_y)
  else raise ValueError.

(** The first statement of [ortho_xr]: [glt_ds] built from the dataset's
    [glt_x] and [glt_y]. *)
Definition build_glt (ds : Dataset) (GLT_NODATA_VALUE : Z) : result glt_array :=
  glt_x <~ ds_get2 ds "glt_x";;
  glt_y <~ ds_get2 ds "glt_y";;
  stack_glt GLT_NODATA_VALUE glt_x glt_y.

(** [out_ds[out_ds == fill_value] = np.nan]. *)
Definition mask_fill (fill_value : float) (out_ds : array3 float) : array3 float :=
  map3d (set_where NaN (λ x, feqb x fill_value)) out_ds.

(** [np.squeeze] of a (rows, cols, bands) array that is then labelled
    [['latitude', 'longitude']]: every axis of length one is dropped, so
    the result has the two dimensions the labels need only when the band
    axis is the single axis of length one; the [xr.Dataset] constructor
    raises ValueError otherwise. [rows] and [cols] are the GLT's. *)
Definition squeeze_latlon (rows cols : nat) (a : array3 float)
  : result (array2 float) :=
  if bool_decide (rows ≠ 1%nat ∧ cols ≠ 1%nat) then
    or_raise ValueError (mapM (mapM (λ v : list float,
      match v with [x] => Some x | _ => None end)) a)
  else raise ValueError.

(** The default arguments of [apply_glt]. *)
Definition default_fill_value : float := of_Z (-9999).
Definition default_GLT_NODATA_VALUE : Z := 0.

(** The body of the [for var in var_list] loop of [ortho_xr], with the
    shared [glt_ds] threaded through the iterations: every call of
    [apply_glt] receives the array as the previous call left it. Note
    that [fill_value] is not forwarded to [apply_glt], which allocates
    with its own default. *)
Fixpoint ortho_vars (ds : Dataset) (GLT_NODATA_VALUE : Z) (fill_value : float)
    (var_list : list string) (glt_ds : glt_array) (data_vars : dict ndarray)
  : result (glt_array * dict ndarray) :=
  match var_list with
  | [] => ok (glt_ds, data_vars)
  | var :: rest =>
      raw_ds <~ ds_get ds var;;
      let (glt_ds', r) :=
        apply_glt raw_ds glt_ds default_fill_value GLT_NODATA_VALUE in
      out_ds <~ or_raise IndexError r;;
      let out_ds := mask_fill fill_value out_ds in
      entry <~ (if bool_decide (ndim raw_ds = 2%nat)
                then (sq <~ squeeze_latlon (length glt_ds)
                             (length (hd [] glt_ds)) out_ds;; ok (A2 sq))
                else ok (A3 out_ds));;
      ortho_vars ds GLT_NODATA_VALUE fill_value rest glt_ds'
        (dict_set var entry data_vars)
  end.

(** [del coords[key]] for each key in turn. *)
Fixpoint dict_del_all {V} (keys : list string) (d : dict V) : result (dict V) :=
  match keys with
  | [] => ok d
  | k :: keys' => d' <~ dict_del k d;; dict_del_all keys' d'
  end.

(** [ortho_xr(ds, GLT_NODATA_VALUE, fill_value)]. The elevation is
    remapped after the data variables, with the same [glt_ds] object and
    with [apply_glt]'s default no-data and fill values. The attributes
    of the variables, and the [spatial_ref] coordinate that
    [rio.write_crs] adds to the result at the end, are not part of
    [Dataset]: [coords] holds the coordinates other than [spatial_ref]. *)
Definition ortho_xr (ds : Dataset) (GLT_NODATA_VALUE : Z) (fill_value : float)
  : result Dataset :=
  glt_ds <~ build_glt ds GLT_NODATA_VALUE;;
  let var_list :=
    filter (λ v, v ≠ "flat_field_update") (data_vars ds).*1 in
  p <~ ortho_vars ds GLT_NODATA_VALUE fill_value var_list glt_ds [];;
  let glt_ds := p.1 in
  let data_vars := p.2 in
  ll <~ coord_vects ds;;
  elev <~ ds_get ds "elev";;
  let (_, r) :=
    apply_glt elev glt_ds default_fill_value default_GLT_NODATA_VALUE in
  elev_ds <~ or_raise IndexError r;;
  let elev_ds := mask_fill fill_value elev_ds in
  let coords :=
    foldl (λ acc kv, dict_set kv.1 kv.2 acc)
      [("latitude", A1 (Fin <$> ll.2)); ("longitude", A1 (Fin <$> ll.1))]
      (coords ds) in
  coords <~ dict_del_all
    ["downtrack"; "crosstrack"; "lat"; "lon"; "glt_x"; "glt_y"; "elev"] coords;;
  elev_sq <~ squeeze_latlon (length glt_ds) (length (hd [] glt_ds)) elev_ds;;
  let coords := dict_set "elev" (A2 elev_sq) coords in
  (* [del out_ds]: the name is unbound when the loop body never ran *)
  _ <~ (if bool_decide (var_list = []) then raise UnboundLocalError
        else ok tt);;
  ok {| data_vars := data_vars;
        coords := coords;
        geotransform := geotransform ds;
        Orthorectified := Orthorectified ds |}.

(** NumPy broadcasting of two shapes, aligned on the trailing axes. *)
Definition broadcast_dim (a b : nat) : option nat :=
  if (a =? b)%nat then Some a
  else if (a =? 1)%nat then Some b
  else if (b =? 1)%nat then Some a
  else None.

Fixpoint broadcast_rev (s t : list nat) : option (list nat) :=
  match s, t with
  | [], _ => Some t
  | _, [] => Some s
  | a :: s', b :: t' =>
      d ← broadcast_dim a b; r ← broadcast_rev s' t'; Some (d :: r)
  end.

Definition broadcast_shapes (s t : list nat) : option (list nat) :=
  reverse <$> broadcast_rev (reverse s) (reverse t).

(** [out_xr[var].where(qmask != 1, np.nan)] as a statement: the masked
    copy that [where] builds is not bound to anything, so all that is
    left of the call is whether it raises. It does (ValueError) when the
    condition does not broadcast to the shape of the variable. *)
Definition where_discarded (var : ndarray) (qmask_shape : list nat)
  : result unit :=
  if bool_decide (broadcast_shapes (shape var) qmask_shape = Some (shape var))
  then ok tt
  else raise ValueError.

(** [data[unpacked_bmask == 1] = np.nan]: a three-dimensional boolean
    index has to have the shape of the data (IndexError otherwise). *)
Definition apply_bmask (unpacked_bmask : array3 Z) (a : ndarray)
  : result ndarray :=
  match a with
  | A3 d =>
      if bool_decide (fmap (M := list) length <$> unpacked_bmask
                      = fmap (M := list) length <$> d)
      then ok (A3 (zip_with (zip_with (zip_with
                     (λ (m : Z) x, if m =? 1 then NaN else x)))
                     unpacked_bmask d))
      else raise IndexError
  | _ => raise IndexError
  end.

(** [data[data == -9999] = np.nan]. *)
Definition fill_to_nan (a : ndarray) : ndarray :=
  let f := set_where NaN (λ x, feqb x (of_Z (-9999))) in
  match a with
  | A1 d => A1 (f <$> d)
  | A2 d => A2 (map2d f d)
  | A3 d => A3 (map3d f d)
  end.

(** The masking loop of [emit_xarray] over [list(ds.data_vars)]. The
    name [qmask] is rebound to [qmask[:, :, np.newaxis]] in every
    iteration, so the mask gains one trailing axis of length one per
    variable: [extra] counts the axes appended so far. *)
Fixpoint mask_vars (var_list : list string) (qmask : option (array2 float))
    (extra : nat) (unpacked_bmask : option (array3 Z)) (vars : dict ndarray)
  : result (dict ndarray) :=
  match var_list with
  | [] => ok vars
  | var :: rest =>
      a <~ or_raise KeyError (dict_get var vars);;
      _ <~ match qmask with
           | Some q =>
               where_discarded a (shape2 q ++ replicate (S extra) 1%nat)
           | None => ok tt
           end;;
      a <~ match unpacked_bmask with
           | Some bm => apply_bmask bm a
           | None => ok a
           end;;
      mask_vars rest qmask (S extra) unpacked_bmask
        (dict_set var (fill_to_nan a) vars)
  end.

(** [emit_xarray(filepath, ortho, qmask, unpacked_bmask, chunk)].
    [file] is the flat dataset that the first part of the function
    assembles from the netCDF groups (root variables, location group,
    band parameters); the selection of the band coordinate from the
    granule name is not modelled. *)
Definition emit_xarray (file : Dataset) (ortho : bool)
    (qmask : option (array2 float)) (unpacked_bmask : option (array3 Z))
    (chunk : option (dict Z)) : result Dataset :=
  if bool_decide (chunk ≠ None) && ortho then raise ValueError else
  vars <~ mask_vars (data_vars file).*1 qmask 0 unpacked_bmask
            (data_vars file);;
  let out_xr := {| data_vars := vars;
                   coords := coords file;
                   geotransform := geotransform file;
                   Orthorectified := Orthorectified file |} in
  if ortho then
    out_xr <~ ortho_xr out_xr default_GLT_NODATA_VALUE default_fill_value;;
    ok {| data_vars := data_vars out_xr;
          coords := coords out_xr;
          geotransform := geotransform out_xr;
          Orthorectified := true |}
  else ok out_xr.

(** An EMIT L2A mask file as [quality_mask] reads it: the [mask] array
    of shape (downtrack, crosstrack, bands) and the band names of the
    [sensor_band_parameters] group. *)
Record mask_file : Type := mkMaskFile {
  mask : array3 float;
  mask_bands : list string;
}.

(** [v[idx]] for a list of integer indices [idx] (NumPy fancy indexing
    along one axis). *)
Definition fancy_index {A} (v : list A) (idx : list Z) : option (list A) :=
  mapM (λ i, n ← np_index (length v) i; v !! n) idx.

(** [any(x in quality_bands for x in [5, 6])]. *)
Definition selects_data_band (quality_bands : list Z) : bool :=
  existsb (λ x, existsb (Z.eqb x) quality_bands) [5; 6].

(** [np.sum(mask[:, :, quality_bands], axis=-1)] followed by
    [qmask[qmask > 1] = 1]. *)
Definition build_qmask (mask : array3 float) (quality_bands : list Z)
  : result (array2 float) :=
  qmask <~ or_raise IndexError
    (mapM (mapM (λ px : list float,
       sel ← fancy_index px quality_bands; Some (foldl fadd (of_Z 0) sel))) mask);;
  ok (map2d (set_where (of_Z 1) (λ x, fgtb x (of_Z 1))) qmask).

(** [quality_mask(filepath, quality_bands)]. The first component is what
    the call prints (the names of the flags used, one entry per [print]),
    the second what it returns or raises. *)
Definition quality_mask (file : mask_file) (quality_bands : list Z)
  : list (list string) * result (array2 float) :=
  match fancy_index (mask_bands file) quality_bands with
  | None => ([], raise IndexError)
  | Some flags_used =>
      if selects_data_band quality_bands
      then ([flags_used], raise AttributeError)
      else ([flags_used], build_qmask (mask file) quality_bands)
  end.

(** [np.unpackbits] on one byte: its eight bits, most significant first. *)
Definition unpackbits (b : Z) : list Z :=
  (λ i : nat, if Z.testbit b (7 - Z.of_nat i) then 1 else 0) <$> seq 0 8.

(** [band_mask(filepath)] on the [band_mask] variable of the file, an
    integer array of shape (downtrack, crosstrack, bytes): conversion to
    [uint8], [np.unpackbits(bmask, axis=-1)], and [[:, :, 0:285]]. *)
Definition band_mask (bmask : array3 Z) : array3 Z :=
  map2d (λ px : list Z,
           take 285 (((λ b, b mod 256) <$> px) ≫= unpackbits)) bmask.

(** The GLT dataset after [rio.clip]: the two bands cut to the extent of
    the polygon, NaN outside of it, and the geotransform recorded with
    the clipped raster. *)
Record clipped_glt : Type := mkClipped {
  clipped_glt_x : array2 float;
  clipped_glt_y : array2 float;
  clipped_GeoTransform : list Q;
}.

(** The running minimum and maximum that ignore NaN. *)
Definition fmin_nan (acc v : float) : float :=
  match acc, v with
  | NaN, _ => v
  | _, NaN => acc
  | Fin a, Fin b => if Qle_bool a b then acc else v
  end.

Definition fmax_nan (acc v : float) : float :=
  match acc, v with
  | NaN, _ => v
  | _, NaN => acc
  | Fin a, Fin b => if Qle_bool b a then acc else v
  end.

(** [np.nanmin] and [np.nanmax]: ValueError on an array without cells,
    NaN when every cell is NaN. *)
Definition nanmin (a : array2 float) : result float :=
  match concat a with
  | [] => raise ValueError
  | cells => ok (foldl fmin_nan NaN cells)
  end.

Definition nanmax (a : array2 float) : result float :=
  match concat a with
  | [] => raise ValueError
  | cells => ok (foldl fmax_nan NaN cells)
  end.

(** [np.nan_to_num((glt - np.nanmin(glt)) + 1)]: the clipped band shifted
    so that it starts at 1, NaN replaced with 0. *)
Definition reindex_glt (glt : array2 float) : result (array2 float) :=
  lo <~ nanmin glt;;
  ok (map2d (λ v, nan_to_num (of_Z 0) (fadd (fsub v lo) (of_Z 1))) glt).

(** [(coord >= lo - 1) & (coord <= hi)] along one sensor axis. *)
Definition track_mask (coord : list float) (lo hi : float) : list bool :=
  (λ v, fleb (fsub lo (of_Z 1)) v && fleb v hi) <$> coord.

(** Rows (or columns) of [l] whose mask entry is set. *)
Definition keep {A} (m : list bool) (l : list A) : list A :=
  zip m l ≫= λ p : bool * A, if p.1 then [p.2] else [].

(** [ds.where(crosstrack_mask & downtrack_mask, drop=True)] on one array
    of sensor geometry: the rows selected by [down] and the columns
    selected by [cross] are kept. *)
Definition crop_array (down cross : list bool) (a : ndarray) : ndarray :=
  match a with
  | A1 d => A1 d
  | A2 d => A2 (keep cross <$> keep down d)
  | A3 d => A3 (keep cross <$> keep down d)
  end.

(** [ds[name].data] for a one-dimensional coordinate. *)
Definition ds_get1 (ds : Dataset) (name : string) : result (list float) :=
  a <~ ds_get ds name;;
  match a with
  | A1 v => ok v
  | _ => raise ValueError
  end.

(** [raw_spatial_crop(ds, shape)]. The polygon enters through what
    [rio.clip] makes of the GLT dataset, [clip]. *)
Definition raw_spatial_crop (ds : Dataset)
    (clip : array2 float → array2 float → result clipped_glt)
  : result Dataset :=
  _ <~ coord_vects ds;;
  glt_x <~ ds_get2 ds "glt_x";;
  glt_y <~ ds_get2 ds "glt_y";;
  clipped <~ clip glt_x glt_y;;
  (* shift the geotransform by half a pixel *)
  let gt := clipped_GeoTransform clipped in
  gt0 <~ or_raise IndexError (gt !! 0%nat);;
  gt1 <~ or_raise IndexError (gt !! 1%nat);;
  gt3 <~ or_raise IndexError (gt !! 3%nat);;
  gt5 <~ or_raise IndexError (gt !! 5%nat);;
  let clipped_gt :=
    <[3%nat := (gt3 + gt5 / 2)%Q]> (<[0%nat := (gt0 + gt1 / 2)%Q]> gt) in
  (* crosstrack and downtrack masks *)
  crosstrack <~ ds_get1 ds "crosstrack";;
  downtrack <~ ds_get1 ds "downtrack";;
  xlo <~ nanmin (clipped_glt_x clipped);;
  xhi <~ nanmax (clipped_glt_x clipped);;
  ylo <~ nanmin (clipped_glt_y clipped);;
  yhi <~ nanmax (clipped_glt_y clipped);;
  let crosstrack_mask := track_mask crosstrack xlo xhi in
  let downtrack_mask := track_mask downtrack ylo yhi in
  let crop := crop_array downtrack_mask crosstrack_mask in
  let vars := prod_map id crop <$> data_vars ds in
  (* drop_vars *)
  coords <~ dict_del_all ["glt_x"; "glt_y"; "downtrack"; "crosstrack"]
              (coords ds);;
  let coords := prod_map id crop <$> coords in
  (* re-index the GLT to the new array *)
  glt_x_data <~ reindex_glt (clipped_glt_x clipped);;
  glt_y_data <~ reindex_glt (clipped_glt_y clipped);;
  let coords := dict_set "glt_x" (A2 glt_x_data) coords in
  let coords := dict_set "glt_y" (A2 glt_y_data) coords in
  first <~ or_raise IndexError (head vars);;
  let rows := match first.2 with
              | A1 d => length d | A2 d => length d | A3 d => length d
              end in
  cols <~ match first.2 with
          | A1 _ => raise IndexError
          | A2 d => ok (length (hd [] d))
          | A3 d => ok (length (hd [] d))
          end;;
  let arange n := (λ i : nat, of_Z (Z.of_nat i)) <$> seq 0 n in
  let coords := dict_set "downtrack" (A1 (arange rows)) coords in
  let coords := dict_set "crosstrack" (A1 (arange cols)) coords in
  ok {| data_vars := vars;
        coords := coords;
        geotransform := clipped_gt;
        Orthorectified := Orthorectified ds |}.

End EmitTools.

(* ===================================================================== *)
(** * unmix_image.py *)
(* ===================================================================== *)

Module UnmixImage.

(** [np.clip(v, 0, 100)]: NaN passes through. *)
Definition clip_0_100 (v : float) : float :=
  match v with
  | NaN => NaN
  | Fin q =>
      if negb (Qle_bool 0 q) then of_Z 0
      else if negb (Qle_bool q 100) then of_Z 100
      else Fin q
  end.

(** [rearrange(ypred, '(x y) z -> x y z', x=xs, y=ys)]: the flat list of
    pixels cut into [xs] rows of [ys] pixels. *)
Fixpoint unflatten {A} (xs ys : nat) (l : list A) : list (list A) :=
  match xs with
  | O => []
  | S xs' => take ys l :: unflatten xs' ys (drop ys l)
  end.

(** [pred_chunk(arr, fmodel)]: the regression model [fmodel] maps a list
    of feature vectors to a list of per-class predictions. einops rejects
    a prediction whose length is not [xs * ys]. *)
Definition pred_chunk (arr : array3 float)
    (fmodel : list (list float) → list (list float)) : result (array3 float) :=
  let arr := fmap (M := list) (@removelast float) <$> arr in
  let xs := length arr in
  let ys := length (hd [] arr) in
  let arr := concat arr in
  let arr := fmap (M := list) (nan_to_num (of_Z 0)) <$> arr in
  let ypred := fmodel arr in
  let ypred := fmap (M := list) clip_0_100 <$> ypred in
  if bool_decide (length ypred = (xs * ys)%nat)
  then ok (unflatten xs ys ypred)
  else raise EinopsError.

(** Consecutive blocks of [n] elements; the fuel is the length of the
    list, which is enough for any positive [n]. *)
Fixpoint blocks_aux {A} (fuel n : nat) (l : list A) : list (list A) :=
  match fuel with
  | O => []
  | S fuel' =>
      match l with
      | [] => []
      | _ => take n l :: blocks_aux fuel' n (drop n l)
      end
  end.

Definition blocks {A} (n : nat) (l : list A) : list (list A) :=
  blocks_aux (length l) n l.





(** [fillna(255)] on one cell. *)
Definition fillna_255 (v : float) : float := nan_to_num (of_Z 255) v.

(** Two's-complement wrap-around into the range of a signed 8-bit
    integer. *)
Definition wrap_int8 (z : Z) : Z := (z + 128) mod 256 - 128.

(** [astype("int8")] on one finite cell: truncation, then the low eight
    bits read as a signed integer. It is applied after [fillna], so no
    NaN reaches it. *)
Definition astype_int8 (v : float) : option Z :=
  match v with
  | NaN => None
  | Fin q => Some (wrap_int8 (trunc q))
  end.

(** One cell through [.fillna(255).astype("int8")]; the default is never
    taken, [fillna_255] leaves no NaN. *)
Definition encode_cell (v : float) : Z :=
  default 0 (astype_int8 (fillna_255 v)).

(** [res["reflectance"].to_dataset(dim="class").fillna(255).astype("int8")]:
    one 2-D variable per class name, holding the band of that class. The
    class labels have to match the length of the class axis. *)
Definition final_encoding (classes : list string) (reflectance : array3 float)
  : result (dict (array2 Z)) :=
  if bool_decide (Forall (Forall (λ px : list float,
                    length px = length classes)) reflectance)
  then
    or_raise IndexError
      (mapM (λ kc : nat * string,
         band ← mapM (mapM (λ px : list float, px !! kc.1)) reflectance;
         Some (kc.2, map2d encode_cell band))
       (imap pair classes))
  else raise ValueError.

End UnmixImage.

(* ===================================================================== *)
(** * utils/synthmix.py *)
(* ===================================================================== *)

Module Synthmix.

(** One row of the reference-point table: [ID], [Category] and the
    coordinates of the point. *)
Record point : Type := mkPoint {
  pt_ID : Z;
  pt_Category : string;
  pt_Latitude : Q;
  pt_Longitude : Q;
}.

(** One row of the long table [df]: a point, a wavelength and the
    reflectance of the nearest grid cell at that wavelength. *)
Record row : Type := mkRow {
  ID : Z;
  Category : string;
  wavelengths : float;
  reflectance : float;
  latitude : float;
  longitude : float;
}.

(** [ds.sel(latitude=.., longitude=.., method='nearest').to_dataframe()]
    joined with the category of each point: one row per point and
    wavelength. [nearest] is the index lookup of the library (position of
    the coordinate nearest to a value, with the library's tie-break). *)
Definition extracted (nearest : list float → Q → option nat)
    (points : list point) (ds : EmitTools.Dataset) : result (list row) :=
  lat <~ EmitTools.ds_get1 ds "latitude";;
  lon <~ EmitTools.ds_get1 ds "longitude";;
  wvl <~ EmitTools.ds_get1 ds "wavelengths";;
  rfl <~ EmitTools.ds_get ds "reflectance";;
  match rfl with
  | A3 cube =>
      rows <~ or_raise KeyError (mapM (λ p : point,
        i ← nearest lat (pt_Latitude p);
        j ← nearest lon (pt_Longitude p);
        la ← lat !! i;
        lo ← lon !! j;
        spectrum ← cell2 cube i j;
        Some (zip_with (λ w v, {| ID := pt_ID p;
                                  Category := pt_Category p;
                                  wavelengths := w;
                                  reflectance := v;
                                  latitude := la;
                                  longitude := lo |}) wvl spectrum)) points);;
      ok (concat rows)
  | _ => raise ValueError
  end.

(** What pandas makes of a chained assignment such as
    [df.loc[:]['reflectance'][mask] = 0]. Without copy-on-write
    [df.loc[:]['reflectance']] is a view of the column and the assignment
    reaches [df]; under copy-on-write (the default from pandas 3) it is
    a temporary object, and [df] is left as it was. The source pins no
    version of pandas, so the mode is an input of the model. *)
Inductive pandas_mode : Type :=
  | write_through
  | copy_on_write.

(** Every reflectance equal to -0.1 set to 0: what the assignment
    [...[df.loc[:]['reflectance'] == -0.1] = 0] does to the object it
    reaches. *)
Definition replace_residual_fill (df : list row) : list row :=
  (λ r, {| ID := ID r;
           Category := Category r;
           wavelengths := wavelengths r;
           reflectance :=
             set_where (of_Z 0) (λ x, feqb x (Fin (- (1 # 10)))) (reflectance r);
           latitude := latitude r;
           longitude := longitude r |}) <$> df.

(** [df_long.pivot(index='ID', columns='wavelengths',
    values='reflectance')], as the cells of the wide table keyed by
    (ID, wavelength). Two rows with the same key make pandas raise
    ValueError. *)
Fixpoint pivot (df_long : list row) : result (list (Z * float * float)) :=
  match df_long with
  | [] => ok []
  | r :: rest =>
      wide <~ pivot rest;;
      if existsb (λ c : Z * float * float,
                    (c.1.1 =? ID r) && feqb c.1.2 (wavelengths r)) wide
      then raise ValueError
      else ok ((ID r, wavelengths r, reflectance r) :: wide)
  end.

(** [df.loc[:]['reflectance'][df.loc[:]['reflectance'] == -0.1] = 0]
    as a statement on [df]: the replacement when the chained assignment
    writes through, nothing under copy-on-write. *)
Definition chained_assign (mode : pandas_mode) (df : list row) : list row :=
  match mode with
  | write_through => replace_residual_fill df
  | copy_on_write => df
  end.

(** The statements of [extract_points] in order: the long table, the
    chained assignment that is to replace the residual fill value, and
    the wide table built from [df] as it is then. *)
Definition extract_points_steps (mode : pandas_mode)
    (nearest : list float → Q → option nat)
    (points : list point) (ds : EmitTools.Dataset)
  : result (list row * list (Z * float * float)) :=
  df <~ extracted nearest points ds;;
  let df := chained_assign mode df in
  df_wide <~ pivot df;;
  ok (df, df_wide).

(** [extract_points(points, ds)] returns the long table [df]. *)
Definition extract_points (mode : pandas_mode)
    (nearest : list float → Q → option nat)
    (points : list point) (ds : EmitTools.Dataset) : result (list row) :=
  steps <~ extract_points_steps mode nearest points ds;;
  ok steps.1.

(** A record of the spectral library handed to [mix_fast]: the feature
    columns and, last, the [Category] column. *)
Record sample : Type := mkSample {
  features : list float;
  category : string;
}.

(** What the random generator hands out in one iteration: the rows
    chosen by [np.random.choice] and the Dirichlet weights. *)
Record draw : Type := mkDraw {
  selected_rows : list nat;
  weights : list Q;
}.

(** A synthetic record: the mixed features followed by the class
    proportions, one entry per class in sorted order. *)
Record synthetic : Type := mkSynthetic {
  mixed : list float;
  proportions : dict Q;
}.

Definition Qsum (l : list Q) : Q := foldr Qplus 0%Q l.

(** [Series.unique()]: the distinct values in order of appearance. *)
Definition unique (l : list string) : list string :=
  reverse (remove_dups (reverse l)).

Definition str_le (a b : string) : Prop := String.leb a b = true.

#[global] Instance str_le_dec a b : Decision (str_le a b).
Proof. unfold str_le. apply _. Defined.

(** [weight_df.pivot_table(index=weight_df.index, columns='Category',
    values='weight', aggfunc='sum')]: one column per sampled class, in
    sorted order; row [i] holds the weight of draw [i] in the column of
    its class and is missing elsewhere. *)
Definition pivot_table (weight_df : list (string * Q)) : dict (list (option Q)) :=
  (λ c, (c, (λ cw : string * Q,
               if String.eqb cw.1 c then Some cw.2 else None) <$> weight_df))
    <$> merge_sort str_le (remove_dups weight_df.*1).

(** [fillna(0)], then a column of zeros for every class of [all_class]
    that is not a column yet. *)
Definition fill_and_complete (all_class : list string)
    (pivot_df : dict (list (option Q))) : dict (list Q) :=
  let filled := prod_map id (fmap (M := list) (default 0%Q)) <$> pivot_df in
  foldl (λ acc class_,
           if bool_decide (class_ ∈ acc.*1) then acc
           else acc ++ [(class_, replicate (length (hd [] pivot_df.*2)) 0%Q)])
        filled all_class.

(** [pivot_df.sort_index(axis=1).sum(axis=0)]. *)
Definition pivot_sum (pivot_df : dict (list Q)) : dict Q :=
  prod_map id Qsum
    <$> merge_sort (λ a b : string * list Q, str_le a.1 b.1) pivot_df.

(** [df.iloc[selected_rows, :-1].multiply(weights, axis=0).sum(axis=0)]:
    the weighted sum of the selected rows, column by column; pandas
    skips NaN when it sums. *)
Definition weighted_sum (rows : list (list float)) (weights : list Q)
  : list float :=
  let scaled := zip_with (λ r w, (λ x, match x with
                                        | NaN => None
                                        | Fin q => Some (w * q)%Q
                                        end) <$> r) rows weights in
  (λ j, Fin (Qsum ((λ r : list (option Q), default 0%Q (mjoin (r !! j)))
                     <$> scaled)))
    <$> seq 0 (length (hd [] rows)).

(** The body of the loop of [mix_fast] for one draw. [np.random.choice]
    raises ValueError when asked for more distinct rows than there are. *)
Definition mix_one (df : list sample) (d : draw) : result synthetic :=
  let num_rows := length df in
  let all_class := unique (category <$> df) in
  if bool_decide (length (selected_rows d) ≤ num_rows)%nat then
    picked <~ or_raise IndexError (mapM (λ i, df !! i) (selected_rows d));;
    let new_row := weighted_sum (features <$> picked) (weights d) in
    let class_vector := category <$> picked in
    let weight_df := zip class_vector (weights d) in
    let pivot_df := fill_and_complete all_class (pivot_table weight_df) in
    ok {| mixed := new_row; proportions := pivot_sum pivot_df |}
  else raise ValueError.

(** [mix_fast(df, nsamp)], with the random generator as the function
    [rng] from the iteration number to what is drawn in it. Without any
    iteration [pd.concat] has nothing to concatenate and raises. *)
Definition mix_fast (df : list sample) (nsamp : nat) (rng : nat → draw)
  : result (list synthetic) :=
  df_synthetic <~ sequence ((λ i, mix_one df (rng i)) <$> seq 0 nsamp);;
  match df_synthetic with
  | [] => raise ValueError
  | _ => ok df_synthetic
  end.

End Synthmix.

Import EmitTools UnmixImage Synthmix.

#[global] Arguments apply_glt : simpl never.
#[global] Arguments squeeze_latlon : simpl never.
#[global] Arguments dict_del_all : simpl never.
#[global] Arguments coord_vects : simpl never.

(* ===================================================================== *)
(** * Specification vocabulary and concrete inputs *)
(* ===================================================================== *)

(** Every band of the array is NaN at output cell (r, c). *)
Definition all_nan_at (a : ndarray) (r c : nat) : Prop :=
  match a with
  | A1 _ => False
  | A2 a => cell2 a r c = Some NaN
  | A3 a => ∃ v, cell2 a r c = Some v ∧ Forall (λ x, x = NaN) v
  end.

(** An array of sensor geometry with [dr] downtrack rows of [dc]
    crosstrack pixels, and a GLT whose entries are 0 or point into it. *)
Definition sensor_shape (a : ndarray) (dr dc : nat) : Prop :=
  match a with
  | A1 _ => False
  | A2 d => length d = dr ∧ Forall (λ row, length row = dc) d
  | A3 d => length d = dr ∧ Forall (λ row, length row = dc) d
  end.

Definition glt_in_range (glt : glt_array) (dr dc : nat) : Prop :=
  Forall (Forall (λ g : Z * Z,
    (0 ≤ g.1 ≤ Z.of_nat dc) ∧ (0 ≤ g.2 ≤ Z.of_nat dr))) glt.

(** The datasets used as concrete inputs below. [granule_identity] is a
    2 x 2 granule whose GLT maps every output cell to the sensor pixel at
    the same position; [granule_hole] is the same granule with no sensor
    pixel for the top-left output cell. *)
Definition granule (glt_x glt_y : array2 float) : Dataset :=
  {| data_vars :=
       [("reflectance",
         A3 [[[of_Z 10; of_Z 11]; [of_Z 20; of_Z 21]];
             [[of_Z 30; of_Z 31]; [of_Z 40; of_Z 41]]])];
     coords :=
       [("downtrack", A1 [of_Z 0; of_Z 1]);
        ("crosstrack", A1 [of_Z 0; of_Z 1]);
        ("lat", A2 [[of_Z 0; of_Z 0]; [of_Z 1; of_Z 1]]);
        ("lon", A2 [[of_Z 0; of_Z 1]; [of_Z 0; of_Z 1]]);
        ("glt_x", A2 glt_x);
        ("glt_y", A2 glt_y);
        ("elev", A2 [[of_Z 100; of_Z 200]; [of_Z 300; of_Z 400]])];
     geotransform := [0; 1; 0; 0; 0; -1]%Q;
     Orthorectified := false |}.

Definition granule_identity : Dataset :=
  granule [[of_Z 1; of_Z 2]; [of_Z 1; of_Z 2]]
          [[of_Z 1; of_Z 1]; [of_Z 2; of_Z 2]].

Definition granule_hole : Dataset :=
  granule [[NaN; of_Z 2]; [of_Z 1; of_Z 2]]
          [[NaN; of_Z 1]; [of_Z 2; of_Z 2]].

(** A reflectance cube whose top-left pixel is flagged by the quality
    mask [flagged_top_left]. *)
Definition cube_file : Dataset :=
  {| data_vars :=
       [("reflectance",
         A3 [[[Fin (1 # 2); Fin (1 # 4)]; [of_Z (-9999); Fin (1 # 3)]];
             [[Fin (3 # 10); Fin (2 # 5)]; [Fin (1 # 5); Fin (1 # 10)]]])];
     coords := [];
     geotransform := [0; 1; 0; 0; 0; -1]%Q;
     Orthorectified := false |}.

Definition flagged_top_left : array2 float :=
  [[of_Z 1; of_Z 0]; [of_Z 0; of_Z 0]].

(** The band names of an EMIT L2A mask product. *)
Definition emit_mask_bands : list string :=
  ["Cloud flag"; "Cirrus flag"; "Water flag"; "Spacecraft Flag";
   "Dilated Cloud Flag"; "AOD550"; "H2O (g cm-2)"; "Aggregate Flag"].

(** A mask file is well formed when every pixel of [mask] has one value
    per band name. *)
Definition mask_file_wf (file : mask_file) : Prop :=
  Forall (Forall (λ px : list float, length px = length (mask_bands file)))
         (mask file).

Definition mask_file_2x2 : mask_file :=
  {| mask :=
       [[of_Z <$> [0; 0; 0; 0; 0; 3; 2; 0]; of_Z <$> [1; 0; 0; 0; 1; 3; 2; 1]];
        [of_Z <$> [0; 0; 1; 0; 0; 3; 2; 1]; of_Z <$> [0; 0; 0; 0; 0; 3; 2; 0]]];
     mask_bands := emit_mask_bands |}.

(** [g'] is [g] re-based: NaN cells became 0, every other cell is at
    least 1, and, when [g] has a cell that is not NaN, one of them is 1. *)
Definition rebased (g g' : array2 float) : Prop :=
  (∀ r c, cell2 g r c = Some NaN → cell2 g' r c = Some (of_Z 0))
  ∧ (∀ r c q, cell2 g r c = Some (Fin q) →
       ∃ q', cell2 g' r c = Some (Fin q') ∧ (1 <= q')%Q)
  ∧ ((∃ r c q, cell2 g r c = Some (Fin q)) →
       ∃ r c q q', cell2 g r c = Some (Fin q)
                   ∧ cell2 g' r c = Some (Fin q') ∧ (q' == 1)%Q).

(** A polygon that covers the right-hand column of the 2 x 2 granule:
    clipping blanks the left-hand column of both GLT bands. *)
Definition clip_right_column (glt_x glt_y : array2 float) : result clipped_glt :=
  let blank (row : list float) :=
    match row with [] => [] | _ :: t => NaN :: t end in
  ok {| clipped_glt_x := blank <$> glt_x;
        clipped_glt_y := blank <$> glt_y;
        clipped_GeoTransform := [0; 1; 0; 0; 0; -1]%Q |}.


Abbreviation Forall3 P := (Forall (Forall (Forall P))) (only parsing).

(** A 3 x 3 cube with two bands (the last one is dropped by
    [pred_chunk]) and a two-class model that is linear in the remaining
    band. *)
Definition cube_3x3 : array3 float :=
  [[[of_Z 1; of_Z 0]; [of_Z 2; of_Z 0]; [of_Z 3; of_Z 0]];
   [[of_Z 4; of_Z 0]; [of_Z 5; of_Z 0]; [NaN; of_Z 0]];
   [[of_Z 7; of_Z 0]; [of_Z 8; of_Z 0]; [of_Z 9; of_Z 0]]].

Definition linear_model (x : list (list float)) : list (list float) :=
  (λ f, match f with
        | [Fin q] => [Fin (q * 30 - 100); Fin q]
        | _ => [of_Z 0; of_Z 0]
        end) <$> x.

(** The residual fill value -0.1. *)
Definition residual_fill : float := Fin (- (1 # 10)).

(** A nearest-neighbour lookup: the first position at minimal distance. *)
Definition nearest_first (coord : list float) (v : Q) : option nat :=
  let dist (c : float) : option Q :=
    match c with NaN => None | Fin q => Some (Qabs (q - v)) end in
  fst <$> foldl (λ best ic,
      match dist ic.2, best with
      | None, _ => best
      | Some d, None => Some (ic.1, d)
      | Some d, Some (i, d0) =>
          if negb (Qle_bool d0 d) then Some (ic.1, d) else best
      end) None (imap pair coord).

(** A 2 x 2 orthorectified grid with two wavelengths; one cell carries
    the residual fill value in its first band. *)
Definition ortho_grid : Dataset :=
  {| data_vars :=
       [("reflectance",
         A3 [[[Fin (- (1 # 10)); Fin (3 # 10)]; [Fin (1 # 5); Fin (2 # 5)]];
             [[Fin (1 # 2); NaN]; [Fin (7 # 10); Fin (4 # 5)]]])];
     coords :=
       [("latitude", A1 [of_Z 10; of_Z 9]);
        ("longitude", A1 [of_Z 20; of_Z 21]);
        ("wavelengths", A1 [of_Z 400; of_Z 500])];
     geotransform := [20; 1; 0; 10; 0; -1]%Q;
     Orthorectified := true |}.

Definition two_points : list point :=
  [ {| pt_ID := 0; pt_Category := "soil";
       pt_Latitude := 10 # 1; pt_Longitude := 201 # 10 |};
    {| pt_ID := 1; pt_Category := "water";
       pt_Latitude := 46 # 5; pt_Longitude := 21 # 1 |} ].

(** The column of class [c] in the pivot table, after [fillna(0)]. *)
Definition filled_column (weight_df : list (string * Q)) (c : string) : list Q :=
  default 0%Q <$> ((λ cw : string * Q,
                      if String.eqb cw.1 c then Some cw.2 else None)
                   <$> weight_df).

(** What [np.random.dirichlet(np.ones(len(selected_rows)))] guarantees:
    one weight per selected row, none negative, summing to one. *)
Definition dirichlet_draw (d : draw) : Prop :=
  length (weights d) = length (selected_rows d)
  ∧ Forall (λ w, 0 <= w)%Q (weights d)
  ∧ (Qsum (weights d) == 1)%Q.

(** A small spectral library, and a generator that mixes the last and
    the first record with weights 1/4 and 3/4 in every iteration. *)
Definition library : list sample :=
  [ {| features := [Fin (1 # 10); Fin (2 # 10)]; category := "veg" |};
    {| features := [Fin (3 # 10); NaN]; category := "soil" |};
    {| features := [Fin (5 # 10); Fin (6 # 10)]; category := "water" |};
    {| features := [Fin (7 # 10); Fin (8 # 10)]; category := "soil" |} ].

Definition fixed_draw (i : nat) : draw :=
  {| selected_rows := [3; 0]%nat; weights := [1 # 4; 3 # 4]%Q |}.

(** The GLT that maps every output cell to the sensor pixel at the same
    position: entry (c + 1, r + 1) at row [r], column [c]. *)
Definition identity_glt (rows cols : nat) : glt_array :=
  (λ r : nat, (λ c : nat, (Z.of_nat c + 1, Z.of_nat r + 1)) <$> seq 0 cols)
    <$> seq 0 rows.

(** The GLT array as [n] calls of [apply_glt] leave it. *)
Definition glt_after (n : nat) (glt : glt_array) : glt_array :=
  Nat.iter n (map2d (adjust_one_based 0)) glt.

(** [np.arange(0, n)], the values a sensor coordinate holds. *)
Definition arange (n : nat) : list float :=
  (λ i : nat, of_Z (Z.of_nat i)) <$> seq 0 n.

(** A nested list whose rows all have the length of the first one. *)
Definition rectangular {A} (a : list (list A)) : Prop :=
  Forall (λ row, length row = length (hd [] a)) a.

(** A finite value inside the closed range [lo, hi]; NaN is not. *)
Definition in_range (lo hi : Q) (v : float) : Prop :=
  match v with
  | NaN => False
  | Fin q => (lo <= q)%Q ∧ (q <= hi)%Q
  end.

(** The variables [ortho_xr] remaps, in order. *)
Definition remapped_vars (ds : Dataset) : list string :=
  filter (λ v, v ≠ "flat_field_update") (data_vars ds).*1.

(** The coordinates of sensor geometry that [ortho_xr] deletes. *)
Definition sensor_coords : list string :=
  ["downtrack"; "crosstrack"; "lat"; "lon"; "glt_x"; "glt_y"].

(* ===================================================================== *)
(** * Properties of utils/emit_tools.py *)
(* ===================================================================== *)

Section ArrayLemmas.
Context {A B : Type}.

Lemma cell2_map2d (f : A → B) (a : array2 A) (r c : nat) :
  cell2 (map2d f a) r c = f <$> cell2 a r c.
Proof.
  unfold cell2, map2d. rewrite list_lookup_fmap.
  destruct (a !! r) as [row|]; simpl; [|done].
  by rewrite list_lookup_fmap.
Qed.

Lemma cell2_Some (a : array2 A) (r c : nat) (v : A) :
  cell2 a r c = Some v ↔ ∃ row, a !! r = Some row ∧ row !! c = Some v.
Proof.
  unfold cell2. destruct (a !! r) as [row|]; simpl.
  - split; [intros H; exists row; auto | intros (row' & [= <-] & H); exact H].
  - split; [discriminate | intros (row' & [=] & _)].
Qed.
End ArrayLemmas.

Lemma apply_glt_glt ds_array glt fill_value nodata :
  (apply_glt ds_array glt fill_value nodata).1
  = map2d (adjust_one_based nodata) glt.
Proof. reflexivity. Qed.

Lemma valid_glt_true nodata x y :
  valid_glt nodata (x, y) = true ↔ x ≠ nodata ∧ y ≠ nodata.
Proof.
  unfold valid_glt; simpl.
  rewrite andb_true_iff, !negb_true_iff, !Z.eqb_neq. tauto.
Qed.

Lemma valid_glt_false nodata x y :
  valid_glt nodata (x, y) = false ↔ x = nodata ∨ y = nodata.
Proof.
  unfold valid_glt; simpl.
  rewrite andb_false_iff, !negb_false_iff, !Z.eqb_eq. tauto.
Qed.

(** The cells [apply_glt] treats as invalid are left as they were. *)
Lemma apply_glt_keeps_invalid ds_array glt fill_value nodata r c x y :
  cell2 glt r c = Some (x, y) →
  x = nodata ∨ y = nodata →
  cell2 (apply_glt ds_array glt fill_value nodata).1 r c = Some (x, y).
Proof.
  intros Hc Hinv. rewrite apply_glt_glt, cell2_map2d, Hc. simpl.
  unfold adjust_one_based.
  by rewrite (proj2 (valid_glt_false nodata x y) Hinv).
Qed.

Lemma apply_glt_decrements_valid_cell ds_array glt fill_value nodata r c x y :
  cell2 glt r c = Some (x, y) →
  x ≠ nodata → y ≠ nodata →
  cell2 (apply_glt ds_array glt fill_value nodata).1 r c = Some (x - 1, y - 1).
Proof.
  intros Hc Hx Hy. rewrite apply_glt_glt, cell2_map2d, Hc. simpl.
  unfold adjust_one_based.
  by rewrite (proj2 (valid_glt_true nodata x y) (conj Hx Hy)).
Qed.

(** C10. [apply_glt] writes into the GLT array it is given: after the
    call every cell whose two components both differ from
    [GLT_NODATA_VALUE] holds the components decremented by one, so the
    caller's array is no longer the one that was passed in. *)
Theorem apply_glt_mutates_glt ds_array glt fill_value nodata r c x y :
  cell2 glt r c = Some (x, y) →
  x ≠ nodata → y ≠ nodata →
  cell2 (apply_glt ds_array glt fill_value nodata).1 r c = Some (x - 1, y - 1)
  ∧ (apply_glt ds_array glt fill_value nodata).1 ≠ glt.
Proof.
  intros Hc Hx Hy.
  pose proof (apply_glt_decrements_valid_cell ds_array glt fill_value nodata
                r c x y Hc Hx Hy) as Hnew.
  split; [exact Hnew|].
  intros Heq. rewrite Heq, Hc in Hnew.
  injection Hnew as Hx' _. lia.
Qed.

Lemma apply_glt_mutates_glt_witness :
  let glt := [[(1, 1); (2, 1)]; [(0, 0); (2, 2)]] in
  let ds := A2 [[of_Z 10; of_Z 20]; [of_Z 30; of_Z 40]] in
  cell2 (apply_glt ds glt default_fill_value 0).1 0 1 = Some (1, 0)
  ∧ (apply_glt ds glt default_fill_value 0).1 ≠ glt.
Proof.
  intros glt ds.
  apply (apply_glt_mutates_glt ds glt default_fill_value 0 0 1 2 1);
    [reflexivity | lia | lia].
Defined.

(** ** Orthorectification *)

Section MapM2.
Context {A B : Type} (f : A → option B).

Lemma mapM2_cell (a : array2 A) (out : array2 B) (r c : nat) (x : A) :
  mapM (mapM f) a = Some out →
  cell2 a r c = Some x →
  ∃ y, f x = Some y ∧ cell2 out r c = Some y.
Proof.
  intros Hm Hc. apply cell2_Some in Hc as (row & Hr & Hx).
  apply mapM_Some_1 in Hm.
  destruct (Forall2_lookup_l _ _ _ _ _ Hm Hr) as (orow & Hor & Hrow).
  apply mapM_Some_1 in Hrow.
  destruct (Forall2_lookup_l _ _ _ _ _ Hrow Hx) as (y & Hy & Hf).
  exists y. split; [exact Hf|]. apply cell2_Some. eauto.
Qed.
End MapM2.

Lemma dict_get_set {V} (k k' : string) (v : V) (d : dict V) :
  dict_get k (dict_set k' v d)
  = if String.eqb k k' then Some v else dict_get k d.
Proof.
  induction d as [|[k0 v0] d IH]; simpl.
  - reflexivity.
  - destruct (String.eqb_spec k' k0) as [->|Hne]; simpl.
    + destruct (String.eqb k k0); reflexivity.
    + rewrite IH.
      destruct (String.eqb_spec k k0) as [->|Hne'].
      * destruct (String.eqb_spec k0 k'); congruence.
      * reflexivity.
Qed.

(** At a cell that is not valid, [apply_glt] leaves the fill value in
    every band of its output. *)
Lemma apply_glt_fill_invalid ds_array glt fill_value nodata out r c g :
  (apply_glt ds_array glt fill_value nodata).2 = Some out →
  cell2 glt r c = Some g →
  valid_glt nodata g = false →
  ∃ nb, cell2 out r c = Some (replicate nb fill_value)
        ∧ (ndim ds_array = 2%nat → nb = 1%nat).
Proof.
  unfold apply_glt; simpl. intros Hout Hc Hinv.
  destruct ds_array as [a|a|a]; simpl in Hout; [discriminate| |].
  - destruct (mapM2_cell _ _ _ _ _ _ Hout Hc) as (v & Hv & Hcell).
    rewrite Hinv in Hv. injection Hv as <-.
    exists 1%nat. split; [exact Hcell | reflexivity].
  - destruct (mapM2_cell _ _ _ _ _ _ Hout Hc) as (v & Hv & Hcell).
    rewrite Hinv in Hv. injection Hv as <-.
    eexists. split; [exact Hcell | simpl; discriminate].
Qed.

Lemma mask_fill_cell fill_value out r c v :
  cell2 out r c = Some v →
  cell2 (mask_fill fill_value out) r c
  = Some (set_where NaN (λ x, feqb x fill_value) <$> v).
Proof.
  intros Hc. unfold mask_fill, map3d. by rewrite cell2_map2d, Hc.
Qed.

Lemma mask_fill_default_replicate nb :
  set_where NaN (λ x, feqb x default_fill_value)
    <$> replicate nb default_fill_value
  = replicate nb NaN.
Proof. rewrite fmap_replicate. reflexivity. Qed.

Lemma squeeze_latlon_cell rows cols a sq r c x :
  squeeze_latlon rows cols a = inr sq →
  cell2 a r c = Some [x] →
  cell2 sq r c = Some x.
Proof.
  unfold squeeze_latlon. case_bool_decide; [|discriminate].
  destruct (mapM _ a) as [sq'|] eqn:Hm; simpl; [|discriminate].
  intros [= <-] Hc.
  destruct (mapM2_cell _ _ _ _ _ _ Hm Hc) as (y & Hy & Hcell).
  injection Hy as <-. exact Hcell.
Qed.

Lemma np_index_in_range (n : nat) (i : Z) :
  0 ≤ i < Z.of_nat n → np_index n i = Some (Z.to_nat i).
Proof.
  intros Hi. unfold np_index.
  destruct (Z.leb_spec 0 i); [|lia].
  destruct (Z.ltb_spec i (Z.of_nat n)); [reflexivity | lia].
Qed.

Lemma gather_in_range (a : array3 float) (dr dc : nat) (x y : Z) :
  length a = dr → Forall (λ row, length row = dc) a →
  0 ≤ x < Z.of_nat dc → 0 ≤ y < Z.of_nat dr →
  is_Some (gather a (x, y)).
Proof.
  intros Hr Hc Hx Hy. unfold gather. simpl.
  rewrite np_index_in_range by lia. simpl.
  destruct (lookup_lt_is_Some_2 a (Z.to_nat y)) as [row Hrow]; [lia|].
  rewrite Hrow. simpl.
  assert (Hlen : length row = dc).
  { rewrite Forall_forall in Hc. apply Hc, list_elem_of_lookup. eauto. }
  rewrite Hlen, np_index_in_range by lia. simpl.
  apply lookup_lt_is_Some_2. lia.
Qed.

(** [apply_glt] returns for every array of sensor geometry and every GLT
    that points into it, and leaves behind a GLT that still points into
    it: no call of a sequence of calls on one GLT raises. *)
Lemma apply_glt_returns ds_array glt fill_value dr dc :
  sensor_shape ds_array dr dc →
  glt_in_range glt dr dc →
  is_Some (apply_glt ds_array glt fill_value 0).2
  ∧ glt_in_range (apply_glt ds_array glt fill_value 0).1 dr dc.
Proof.
  intros Hshape Hglt. split.
  - assert (Hgather : ∀ ds3 nb,
      length ds3 = dr → Forall (λ row : list (list float), length row = dc) ds3 →
      is_Some (mapM (mapM (λ g,
        if valid_glt 0 g then gather ds3 (adjust_one_based 0 g)
        else Some (replicate nb fill_value))) glt)).
    { intros ds3 nb Hr Hc. apply mapM_is_Some_2.
      eapply Forall_impl; [exact Hglt|]. intros grow Hgrow. simpl.
      apply mapM_is_Some_2.
      eapply Forall_impl; [exact Hgrow|]. intros [x y] [Hx Hy]. simpl in *.
      unfold adjust_one_based.
      destruct (valid_glt 0 (x, y)) eqn:Hv; [|eauto].
      apply valid_glt_true in Hv as [Hx0 Hy0]. simpl.
      apply (gather_in_range ds3 dr dc); [exact Hr | exact Hc | lia | lia]. }
    unfold apply_glt.
    destruct ds_array as [a|a|a]; cbn in *; [done| |].
    + destruct Hshape as [Hr Hc]. apply (Hgather (newaxis a) 1%nat).
      * unfold newaxis, map2d. by rewrite length_fmap.
      * unfold newaxis, map2d. apply Forall_fmap.
        eapply Forall_impl; [exact Hc|]. intros row Hrow. simpl.
        by rewrite length_fmap.
    + destruct Hshape as [Hr Hc]. by apply (Hgather a).
  - rewrite apply_glt_glt. unfold glt_in_range, map2d.
    apply Forall_fmap. eapply Forall_impl; [exact Hglt|].
    intros grow Hgrow. simpl. apply Forall_fmap.
    eapply Forall_impl; [exact Hgrow|]. intros [x y] [Hx Hy]. simpl in *.
    unfold adjust_one_based.
    destruct (valid_glt 0 (x, y)) eqn:Hv; simpl; [|lia].
    apply valid_glt_true in Hv as [Hx0 Hy0]. lia.
Qed.

(** One remapped variable is NaN in every band at every cell the GLT
    marks as invalid when the call is made. *)
Lemma ortho_entry_nan raw_ds glt nodata out_ds r c x y :
  (apply_glt raw_ds glt default_fill_value nodata).2 = Some out_ds →
  cell2 glt r c = Some (x, y) →
  x = nodata ∨ y = nodata →
  (∀ sq, squeeze_latlon (length glt) (length (hd [] glt))
           (mask_fill default_fill_value out_ds) = inr sq →
         ndim raw_ds = 2%nat → all_nan_at (A2 sq) r c)
  ∧ all_nan_at (A3 (mask_fill default_fill_value out_ds)) r c.
Proof.
  intros Hout Hc Hinv.
  apply valid_glt_false in Hinv.
  destruct (apply_glt_fill_invalid _ _ _ _ _ _ _ _ Hout Hc Hinv)
    as (nb & Hcell & Hnb).
  pose proof (mask_fill_cell default_fill_value _ _ _ _ Hcell) as Hm.
  rewrite mask_fill_default_replicate in Hm.
  split.
  - intros sq Hsq Hdim. simpl.
    rewrite (Hnb Hdim) in Hm. exact (squeeze_latlon_cell _ _ _ _ _ _ _ Hsq Hm).
  - simpl. eexists. split; [exact Hm|].
    apply Forall_replicate. reflexivity.
Qed.


(** The loop over the data variables keeps the invalid cells of the
    shared GLT as they are and produces NaN there for every variable. *)
Lemma ortho_vars_nan ds nodata var_list :
  ∀ glt acc glt' vars r c x y,
  ortho_vars ds nodata default_fill_value var_list glt acc = inr (glt', vars) →
  cell2 glt r c = Some (x, y) →
  x = nodata ∨ y = nodata →
  (∀ k a, dict_get k acc = Some a → all_nan_at a r c) →
  cell2 glt' r c = Some (x, y)
  ∧ ∀ k a, dict_get k vars = Some a → all_nan_at a r c.
Proof.
  induction var_list as [|var rest IH]; cbn;
    intros glt acc glt' vars r c x y Hrun Hc Hinv Hacc.
  - injection Hrun as <- <-. auto.
  - destruct (ds_get ds var) as [e|raw_ds]; cbn in Hrun; [discriminate|].
    destruct (apply_glt raw_ds glt default_fill_value nodata)
      as [g' r0] eqn:E.
    assert (Hg' : cell2 g' r c = Some (x, y)).
    { pose proof (apply_glt_keeps_invalid raw_ds glt default_fill_value
                    nodata r c x y Hc Hinv) as H.
      by rewrite E in H. }
    destruct r0 as [out_ds|]; cbn in Hrun; [|discriminate].
    assert (Hout : (apply_glt raw_ds glt default_fill_value nodata).2
                   = Some out_ds) by (by rewrite E).
    destruct (ortho_entry_nan _ _ _ _ _ _ _ _ Hout Hc Hinv) as [Hsq H3].
    case_bool_decide as Hdim.
    + destruct (squeeze_latlon _ _ _) as [e|sq] eqn:Esq; cbn in Hrun;
        [discriminate|].
      apply (IH _ _ _ _ _ _ _ _ Hrun Hg' Hinv).
      intros k a. rewrite dict_get_set.
      destruct (String.eqb k var); [simpl; intros [= <-]; auto | apply Hacc].
    + cbn in Hrun.
      apply (IH _ _ _ _ _ _ _ _ Hrun Hg' Hinv).
      intros k a. rewrite dict_get_set.
      destruct (String.eqb k var); [simpl; intros [= <-]; auto | apply Hacc].
Qed.

(** Every variable the loop visits, and every variable already stored,
    is in the dictionary the loop returns. *)
Lemma ortho_vars_keys ds nodata fill_value var_list :
  ∀ glt acc glt' vars var,
  ortho_vars ds nodata fill_value var_list glt acc = inr (glt', vars) →
  var ∈ var_list ∨ is_Some (dict_get var acc) →
  is_Some (dict_get var vars).
Proof.
  induction var_list as [|v rest IH]; cbn;
    intros glt acc glt' vars var Hrun Hin.
  - injection Hrun as <- <-. destruct Hin as [Hin|?]; [|done].
    by apply elem_of_nil in Hin.
  - destruct (ds_get ds v) as [e|raw_ds]; cbn in Hrun; [discriminate|].
    destruct (apply_glt raw_ds glt default_fill_value nodata) as [g' r0].
    destruct r0 as [out_ds|]; cbn in Hrun; [|discriminate].
    assert (Hstep : ∀ entry,
              var ∈ rest ∨ is_Some (dict_get var (dict_set v entry acc))).
    { intros entry. rewrite dict_get_set.
      destruct (String.eqb_spec var v) as [->|Hne]; [right; eauto|].
      destruct Hin as [Hin|Hin]; [|by right].
      apply elem_of_cons in Hin as [?|Hin]; [congruence | by left]. }
    case_bool_decide.
    + destruct (squeeze_latlon _ _ _) as [e|sq]; cbn in Hrun; [discriminate|].
      exact (IH _ _ _ _ var Hrun (Hstep _)).
    + cbn in Hrun. exact (IH _ _ _ _ var Hrun (Hstep _)).
Qed.

(** Called with its default no-data value 0 and fill value -9999,
    [ortho_xr] returns NaN at every output cell whose stacked GLT entry
    has a zero component: in every band of every data variable it
    remaps (all but [flat_field_update]), and in the orthorectified
    elevation. *)
Theorem ortho_xr_invalid_cells_nan ds out glt r c x y :
  ortho_xr ds default_GLT_NODATA_VALUE default_fill_value = inr out →
  build_glt ds default_GLT_NODATA_VALUE = inr glt →
  cell2 glt r c = Some (x, y) →
  x = 0 ∨ y = 0 →
  (∀ var, var ∈ (data_vars ds).*1 → var ≠ "flat_field_update" →
     ∃ a, dict_get var (data_vars out) = Some a ∧ all_nan_at a r c)
  ∧ (∀ var a, dict_get var (data_vars out) = Some a → all_nan_at a r c)
  ∧ (∃ e, dict_get "elev" (coords out) = Some e ∧ all_nan_at e r c).
Proof.
  unfold ortho_xr. intros Hrun Hglt Hc Hinv.
  rewrite Hglt in Hrun. cbn in Hrun.
  destruct (ortho_vars _ _ _ _ _ _) as [e|[glt' vars]] eqn:Evars;
    cbn in Hrun; [discriminate|].
  destruct (ortho_vars_nan _ _ _ _ _ _ _ r c x y Evars Hc Hinv) as [Hc' Hvars].
  { intros k a. discriminate. }
  destruct (coord_vects ds) as [e|ll]; cbn in Hrun; [discriminate|].
  destruct (ds_get ds "elev") as [e|elev]; cbn in Hrun; [discriminate|].
  destruct (apply_glt elev glt' default_fill_value default_GLT_NODATA_VALUE)
    as [g'' r0] eqn:E.
  destruct r0 as [elev_ds|]; cbn in Hrun; [|discriminate].
  assert (Hout : (apply_glt elev glt' default_fill_value
                    default_GLT_NODATA_VALUE).2 = Some elev_ds)
    by (by rewrite E).
  destruct (dict_del_all _ _) as [e|coords']; cbn in Hrun; [discriminate|].
  destruct (squeeze_latlon _ _ _) as [e|elev_sq] eqn:Esq; cbn in Hrun;
    [discriminate|].
  case_bool_decide; cbn in Hrun; [discriminate|].
  injection Hrun as <-. simpl. split; [|split; [exact Hvars|]].
  { intros var Hin Hne.
    destruct (ortho_vars_keys _ _ _ _ _ _ _ _ var Evars) as [a Ha].
    - left. apply list_elem_of_filter. split; [exact Hne | exact Hin].
    - exists a. split; [exact Ha | by apply (Hvars var)]. }
  exists (A2 elev_sq). split.
  - rewrite dict_get_set. reflexivity.
  - pose proof Esq as Esq'. unfold squeeze_latlon in Esq'.
    case_bool_decide; [|discriminate].
    destruct (mapM _ _) as [sq'|] eqn:Hm; simpl in Esq'; [|discriminate].
    injection Esq' as ->.
    apply valid_glt_false in Hinv.
    destruct (apply_glt_fill_invalid _ _ _ _ _ _ _ _ Hout Hc' Hinv)
      as (nb & Hcell & _).
    pose proof (mask_fill_cell default_fill_value _ _ _ _ Hcell) as Hmf.
    rewrite mask_fill_default_replicate in Hmf.
    destruct (mapM2_cell _ _ _ _ _ _ Hm Hmf) as (v & Hv & Hsq).
    destruct nb as [|[|nb]]; simpl in Hv; try discriminate.
    injection Hv as <-. exact Hsq.
Qed.

Lemma ortho_xr_invalid_cells_nan_witness :
  ∃ out,
    ortho_xr granule_hole default_GLT_NODATA_VALUE default_fill_value = inr out
    ∧ (∀ var, var ∈ (data_vars granule_hole).*1 →
         var ≠ "flat_field_update" →
         ∃ a, dict_get var (data_vars out) = Some a ∧ all_nan_at a 0 0)
    ∧ (∀ var a, dict_get var (data_vars out) = Some a → all_nan_at a 0 0)
    ∧ (∃ e, dict_get "elev" (coords out) = Some e ∧ all_nan_at e 0 0).
Proof.
  eexists. split; [vm_compute; reflexivity|].
  eapply (ortho_xr_invalid_cells_nan granule_hole _ _ 0 0 0 0);
    [vm_compute; reflexivity | vm_compute; reflexivity
    | reflexivity | left; reflexivity].
Defined.

(** C3. [ortho_xr] compares the remapped arrays with its [fill_value]
    but lets [apply_glt] allocate them with that function's own default,
    -9999. Called with another fill value (here -1), it leaves -9999,
    not NaN, at a cell whose GLT entry is no-data: in both bands of the
    reflectance and in the elevation. *)
Theorem ortho_xr_other_fill_value_leaves_sentinel :
  ∃ glt out refl elev,
    build_glt granule_hole default_GLT_NODATA_VALUE = inr glt
    ∧ cell2 glt 0 0 = Some (0, 0)
    ∧ ortho_xr granule_hole default_GLT_NODATA_VALUE (of_Z (-1)) = inr out
    ∧ dict_get "reflectance" (data_vars out) = Some (A3 refl)
    ∧ cell2 refl 0 0 = Some [of_Z (-9999); of_Z (-9999)]
    ∧ dict_get "elev" (coords out) = Some (A2 elev)
    ∧ cell2 elev 0 0 = Some (of_Z (-9999))
    ∧ ¬ all_nan_at (A3 refl) 0 0
    ∧ ¬ all_nan_at (A2 elev) 0 0.
Proof.
  do 4 eexists.
  do 7 (split; [vm_compute; reflexivity|]).
  split.
  - intros (v & Hv & Hnan). vm_compute in Hv. injection Hv as <-.
    inversion Hnan as [|? ? H0 _]. discriminate H0.
  - intros Hnan. vm_compute in Hnan. discriminate Hnan.
Qed.

(** C2. On the identity granule the reflectance, remapped first, comes out
    as it went in: the GLT entry 1 reads sensor index 0. The elevation is
    remapped next with the GLT array the first call has already
    decremented: the cells whose entry was 1 now count as no-data and
    come out NaN, and the cell whose entry was (2, 2) reads sensor pixel
    (0, 0) instead of (1, 1). *)
Theorem ortho_xr_elev_remapped_with_shifted_glt :
  ∃ out,
    ortho_xr granule_identity default_GLT_NODATA_VALUE default_fill_value
    = inr out
    ∧ dict_get "reflectance" (data_vars out)
      = dict_get "reflectance" (data_vars granule_identity)
    ∧ dict_get "elev" (coords granule_identity)
      = Some (A2 [[of_Z 100; of_Z 200]; [of_Z 300; of_Z 400]])
    ∧ dict_get "elev" (coords out)
      = Some (A2 [[NaN; NaN]; [NaN; of_Z 100]]).
Proof. eexists. repeat split; vm_compute; reflexivity. Qed.

(** The same defect seen on [apply_glt] alone, for any two arrays remapped
    with one GLT: a cell whose entry has a component equal to 1 is valid
    for the first call and filled (not gathered from index 0) by the
    second. *)
Lemma apply_glt_second_call_drops_entry_one ds1 ds2 glt fill_value r c x y out :
  cell2 glt r c = Some (x, y) →
  x ≠ 0 → y ≠ 0 → x = 1 ∨ y = 1 →
  let glt1 := (apply_glt ds1 glt fill_value 0).1 in
  (apply_glt ds2 glt1 fill_value 0).2 = Some out →
  ∃ nb, cell2 out r c = Some (replicate nb fill_value).
Proof.
  intros Hc Hx Hy H1 glt1 Hout.
  pose proof (apply_glt_decrements_valid_cell ds1 glt fill_value 0 r c x y
                Hc Hx Hy) as Hc1.
  assert (Hinv : valid_glt 0 (x - 1, y - 1) = false).
  { apply valid_glt_false. lia. }
  destruct (apply_glt_fill_invalid _ _ _ _ _ _ _ _ Hout Hc1 Hinv)
    as (nb & Hcell & _).
  eauto.
Qed.

(** ** Loading a granule: the masking passes *)

(** Whatever quality mask is passed, a call that returns returns what
    the call without a mask returns. *)
Lemma mask_vars_qmask_ignored var_list q bm :
  ∀ extra vars out,
  mask_vars var_list (Some q) extra bm vars = inr out →
  mask_vars var_list None extra bm vars = inr out.
Proof.
  induction var_list as [|var rest IH]; simpl; intros extra vars out Hrun.
  - exact Hrun.
  - destruct (dict_get var vars) as [a|]; simpl in *; [|discriminate].
    destruct (where_discarded a _) as [e|[]]; simpl in *; [discriminate|].
    destruct (match bm with Some bm0 => apply_bmask bm0 a | None => inr a end)
      as [e|a']; simpl in *; [discriminate|].
    apply IH. exact Hrun.
Qed.

Lemma emit_xarray_qmask_ignored file ortho q bm chunk out :
  emit_xarray file ortho (Some q) bm chunk = inr out →
  emit_xarray file ortho None bm chunk = inr out.
Proof.
  unfold emit_xarray. destruct (_ && _); [discriminate|].
  destruct (mask_vars _ (Some q) _ _ _) as [e|vars] eqn:E; simpl;
    [discriminate|].
  rewrite (mask_vars_qmask_ignored _ _ _ _ _ _ E). simpl. auto.
Qed.

(** C1. With a quality mask that flags the top-left pixel, [emit_xarray]
    returns the reflectance of that pixel as it is in the file, in both
    bands: the pixel is not NaN. (The fill sentinel of the neighbouring
    pixel is replaced as usual.) *)
Theorem emit_xarray_flagged_pixel_not_masked :
  cell2 flagged_top_left 0 0 = Some (of_Z 1)
  ∧ ∃ out,
      emit_xarray cube_file false (Some flagged_top_left) None None = inr out
      ∧ dict_get "reflectance" (data_vars out)
        = Some (A3 [[[Fin (1 # 2); Fin (1 # 4)]; [NaN; Fin (1 # 3)]];
                    [[Fin (3 # 10); Fin (2 # 5)]; [Fin (1 # 5); Fin (1 # 10)]]]).
Proof. split; [reflexivity|]. eexists. split; vm_compute; reflexivity. Qed.

(** ** The quality mask *)

Lemma selects_data_band_true quality_bands :
  selects_data_band quality_bands = true ↔ 5 ∈ quality_bands ∨ 6 ∈ quality_bands.
Proof.
  unfold selects_data_band.
  change (existsb (Z.eqb 5) quality_bands
          || (existsb (Z.eqb 6) quality_bands || false) = true
          ↔ 5 ∈ quality_bands ∨ 6 ∈ quality_bands).
  rewrite orb_false_r, orb_true_iff.
  assert (Hex : ∀ x, existsb (Z.eqb x) quality_bands = true ↔ x ∈ quality_bands).
  { intros x. rewrite existsb_exists. split.
    - intros (y & Hy & Heq). apply Z.eqb_eq in Heq. subst y.
      by apply list_elem_of_In.
    - intros Hin. exists x. split; [by apply list_elem_of_In | apply Z.eqb_refl]. }
  by rewrite !Hex.
Qed.

Lemma fancy_index_is_Some {A} (v : list A) (i : Z) :
  0 ≤ i < Z.of_nat (length v) → is_Some (fancy_index v [i]).
Proof.
  intros Hi. unfold fancy_index. simpl. unfold np_index.
  destruct (Z.leb_spec 0 i); [|lia].
  destruct (Z.ltb_spec i (Z.of_nat (length v))); [|lia]. simpl.
  destruct (lookup_lt_is_Some_2 v (Z.to_nat i)) as [x Hx]; [lia|].
  rewrite Hx. simpl. eauto.
Qed.

(** C9. A flag list that contains 5 or 6 makes [quality_mask] raise, and
    what it prints and raises is the same for every [mask] array: the
    mask is not computed on that path. For the flag list [7] and a well
    formed file with at least eight bands it returns a mask. *)
Theorem quality_mask_rejects_data_bands file quality_bands :
  (5 ∈ quality_bands ∨ 6 ∈ quality_bands →
     (∃ e, (quality_mask file quality_bands).2 = inl e)
     ∧ ∀ mask', quality_mask {| mask := mask'; mask_bands := mask_bands file |}
                  quality_bands
                = quality_mask file quality_bands)
  ∧ (mask_file_wf file → (8 ≤ length (mask_bands file))%nat →
     ∃ qmask, (quality_mask file [7]).2 = inr qmask).
Proof.
  split.
  - intros Hin. apply selects_data_band_true in Hin.
    unfold quality_mask. simpl. rewrite Hin.
    destruct (fancy_index (mask_bands file) quality_bands); simpl; eauto.
  - intros Hwf Hlen. unfold quality_mask.
    destruct (fancy_index_is_Some (mask_bands file) 7) as [flags Hflags]; [lia|].
    rewrite Hflags. simpl. unfold build_qmask.
    destruct (mapM _ (mask file)) as [qm|] eqn:Hm; simpl; [eauto|].
    exfalso. apply mapM_None_1 in Hm. apply Exists_exists in Hm as (row & Hrow & Hm).
    apply mapM_None_1 in Hm. apply Exists_exists in Hm as (px & Hpx & Hm).
    unfold mask_file_wf in Hwf. rewrite Forall_forall in Hwf.
    specialize (Hwf row Hrow). rewrite Forall_forall in Hwf.
    specialize (Hwf px Hpx).
    destruct (fancy_index_is_Some px 7) as [sel Hsel]; [lia|].
    rewrite Hsel in Hm. discriminate.
Qed.

Lemma quality_mask_rejects_data_bands_witness :
  ((∃ e, (quality_mask mask_file_2x2 [0; 5]).2 = inl e)
   ∧ ∀ mask', quality_mask {| mask := mask'; mask_bands := emit_mask_bands |}
                [0; 5]
              = quality_mask mask_file_2x2 [0; 5])
  ∧ ∃ qmask, (quality_mask mask_file_2x2 [7]).2 = inr qmask.
Proof.
  destruct (quality_mask_rejects_data_bands mask_file_2x2 [0; 5]) as [Hrej _].
  destruct (quality_mask_rejects_data_bands mask_file_2x2 [7]) as [_ Hacc].
  split.
  - apply Hrej. left. apply list_elem_of_In. simpl. auto.
  - apply Hacc.
    + unfold mask_file_wf. simpl. repeat constructor.
    + simpl. lia.
Defined.

(** ** Spatial crop: re-indexing the clipped GLT *)

(** The running minimum is a lower bound of the finite values seen, and
    is one of the values seen. *)
Lemma foldl_fmin_nan_spec (l : list float) :
  ∀ acc,
  (∀ q, acc = Fin q ∨ Fin q ∈ l →
        ∃ qm, foldl fmin_nan acc l = Fin qm ∧ (qm <= q)%Q)
  ∧ (foldl fmin_nan acc l = acc ∨ foldl fmin_nan acc l ∈ l).
Proof.
  induction l as [|v l IH]; intros acc; simpl.
  - split.
    + intros q [->|Hin]; [exists q; split; [reflexivity | apply Qle_refl]|].
      by apply elem_of_nil in Hin.
    + by left.
  - destruct (IH (fmin_nan acc v)) as [Hlow Hmem]. split.
    + intros q Hq.
      assert (Hstep : ∃ q0, fmin_nan acc v = Fin q0 ∧ (q0 <= q)%Q
                      ∨ Fin q ∈ l).
      { destruct Hq as [->|Hin].
        - destruct v as [|b]; simpl.
          + exists q. left. split; [reflexivity | apply Qle_refl].
          + destruct (Qle_bool q b) eqn:Hle.
            * exists q. left. split; [reflexivity | apply Qle_refl].
            * exists b. left. split; [reflexivity|].
              apply Qlt_le_weak, Qnot_le_lt. intros H.
              apply Qle_bool_iff in H. congruence.
        - apply elem_of_cons in Hin as [<-|Hin].
          + destruct acc as [|a]; simpl.
            * exists q. left. split; [reflexivity | apply Qle_refl].
            * destruct (Qle_bool a q) eqn:Hle.
              -- exists a. left. split; [reflexivity|].
                 by apply Qle_bool_iff.
              -- exists q. left. split; [reflexivity | apply Qle_refl].
          + exists 0%Q. by right. }
      destruct Hstep as (q0 & [[Hq0 Hle]|Hin]).
      * destruct (Hlow q0 (or_introl Hq0)) as (qm & Hm & Hle').
        exists qm. split; [exact Hm | by apply Qle_trans with q0].
      * exact (Hlow q (or_intror Hin)).
    + destruct Hmem as [Heq|Hin].
      * rewrite Heq.
        destruct acc as [|a], v as [|b]; simpl; auto using list_elem_of_here.
        destruct (Qle_bool a b); auto using list_elem_of_here.
      * right. by apply list_elem_of_further.
Qed.

Lemma elem_of_concat_cell2 {A} (a : array2 A) (v : A) :
  v ∈ concat a ↔ ∃ r c, cell2 a r c = Some v.
Proof.
  rewrite list_elem_of_In, in_concat. split.
  - intros (row & Hrow & Hv).
    apply list_elem_of_In, list_elem_of_lookup in Hrow as [r Hr].
    apply list_elem_of_In, list_elem_of_lookup in Hv as [c Hc].
    exists r, c. apply cell2_Some. eauto.
  - intros (r & c & Hc). apply cell2_Some in Hc as (row & Hr & Hc).
    exists row. split; apply list_elem_of_In, list_elem_of_lookup; eauto.
Qed.

Lemma nanmin_spec (g : array2 float) (lo : float) :
  nanmin g = inr lo →
  (∀ r c q, cell2 g r c = Some (Fin q) → ∃ qm, lo = Fin qm ∧ (qm <= q)%Q)
  ∧ (lo = NaN ∨ ∃ r c, cell2 g r c = Some lo).
Proof.
  unfold nanmin. intros Hlo.
  assert (Hfold : lo = foldl fmin_nan NaN (concat g)).
  { destruct (concat g); [discriminate | by injection Hlo]. }
  destruct (foldl_fmin_nan_spec (concat g) NaN) as [Hlow Hmem].
  rewrite <- Hfold in Hlow, Hmem. split.
  - intros r c q Hc. apply Hlow. right. apply elem_of_concat_cell2. eauto.
  - destruct Hmem as [?|Hin]; [by left|].
    right. by apply elem_of_concat_cell2.
Qed.

Lemma reindex_glt_rebased (g g' : array2 float) :
  reindex_glt g = inr g' → rebased g g'.
Proof.
  unfold reindex_glt. destruct (nanmin g) as [e|lo] eqn:Hlo; simpl;
    [discriminate|].
  intros [= <-]. destruct (nanmin_spec g lo Hlo) as [Hlow Hmem].
  repeat split.
  - intros r c Hc. by rewrite cell2_map2d, Hc.
  - intros r c q Hc. destruct (Hlow r c q Hc) as (qm & -> & Hle).
    rewrite cell2_map2d, Hc. simpl. eexists. split; [reflexivity|].
    unfold inject_Z. lra.
  - intros (r & c & q & Hc).
    destruct (Hlow r c q Hc) as (qm & -> & Hle).
    destruct Hmem as [?|(r' & c' & Hc')]; [discriminate|].
    exists r', c', qm. eexists. split; [exact Hc'|].
    rewrite cell2_map2d, Hc'. simpl. split; [reflexivity|].
    unfold inject_Z. lra.
Qed.

(** C6. In the dataset returned by [raw_spatial_crop] the coordinates
    [glt_x] and [glt_y] are the clipped GLT bands re-based: every NaN
    entry of the clipped band is 0, every other entry is at least 1, and
    the smallest of them is exactly 1. *)
Theorem raw_spatial_crop_rebases_glt ds clip out glt_x glt_y clipped :
  ds_get2 ds "glt_x" = inr glt_x →
  ds_get2 ds "glt_y" = inr glt_y →
  clip glt_x glt_y = inr clipped →
  raw_spatial_crop ds clip = inr out →
  ∃ gx gy,
    dict_get "glt_x" (coords out) = Some (A2 gx)
    ∧ dict_get "glt_y" (coords out) = Some (A2 gy)
    ∧ rebased (clipped_glt_x clipped) gx
    ∧ rebased (clipped_glt_y clipped) gy.
Proof.
  unfold raw_spatial_crop. intros Hx Hy Hclip Hrun.
  destruct (coord_vects ds) as [e|ll]; simpl in Hrun; [discriminate|].
  rewrite Hx in Hrun; simpl in Hrun. rewrite Hy in Hrun; simpl in Hrun.
  rewrite Hclip in Hrun; simpl in Hrun.
  repeat match type of Hrun with
  | bind (or_raise _ ?o) _ = _ =>
      destruct o; simpl in Hrun; [|discriminate]
  | bind (ds_get1 ?d ?n) _ = _ =>
      destruct (ds_get1 d n); simpl in Hrun; [discriminate|]
  | bind (nanmin ?g) _ = _ =>
      destruct (nanmin g); simpl in Hrun; [discriminate|]
  | bind (nanmax ?g) _ = _ =>
      destruct (nanmax g); simpl in Hrun; [discriminate|]
  | bind (dict_del_all ?k ?d) _ = _ =>
      destruct (dict_del_all k d); simpl in Hrun; [discriminate|]
  end.
  destruct (reindex_glt (clipped_glt_x clipped)) as [e|gx] eqn:Egx;
    simpl in Hrun; [discriminate|].
  destruct (reindex_glt (clipped_glt_y clipped)) as [e|gy] eqn:Egy;
    simpl in Hrun; [discriminate|].
  destruct (head _) as [first|]; simpl in Hrun; [|discriminate].
  destruct (match first.2 with A1 _ => _ | A2 d => _ | A3 d => _ end)
    as [e|cols]; simpl in Hrun; [discriminate|].
  injection Hrun as <-. simpl.
  exists gx, gy. rewrite !dict_get_set. simpl.
  repeat split; try reflexivity; by apply reindex_glt_rebased.
Qed.

Lemma raw_spatial_crop_rebases_glt_witness :
  ∃ out gx gy,
    raw_spatial_crop granule_identity clip_right_column = inr out
    ∧ dict_get "glt_x" (coords out) = Some (A2 gx)
    ∧ dict_get "glt_y" (coords out) = Some (A2 gy)
    ∧ rebased [[NaN; of_Z 2]; [NaN; of_Z 2]] gx
    ∧ rebased [[NaN; of_Z 1]; [NaN; of_Z 2]] gy.
Proof.
  destruct (raw_spatial_crop granule_identity clip_right_column)
    as [e|out] eqn:Hrun; [vm_compute in Hrun; discriminate|].
  destruct (raw_spatial_crop_rebases_glt granule_identity clip_right_column
              out _ _ _ eq_refl eq_refl eq_refl Hrun)
    as (gx & gy & Hgx & Hgy & Hrx & Hry).
  exists out, gx, gy. auto.
Defined.

(* ===================================================================== *)
(** * Properties of unmix_image.py *)
(* ===================================================================== *)



Section ForallArrays.
Context {A : Type} (P : A → Prop).



End ForallArrays.


Lemma sequence_Forall {A} (P : A → Prop) (l : list (result A)) out :
  sequence l = inr out →
  Forall (λ m, ∀ a, m = inr a → P a) l →
  Forall P out.
Proof.
  revert out. induction l as [|m l IH]; simpl; intros out Hrun Hl.
  - injection Hrun as <-. constructor.
  - destruct m as [e|a]; simpl in Hrun; [discriminate|].
    destruct (sequence l) as [e|r]; simpl in Hrun; [discriminate|].
    injection Hrun as <-. inversion Hl; subst. constructor; auto.
Qed.






(** The blocks of a list, put end to end, are the list: the fuel of
    [blocks] is never exhausted for a positive block size. *)
Lemma concat_blocks_aux {A} (n : nat) :
  (0 < n)%nat →
  ∀ fuel (l : list A), (length l ≤ fuel)%nat → concat (blocks_aux fuel n l) = l.
Proof.
  intros Hn. induction fuel as [|fuel IH]; intros l Hlen; simpl.
  - destruct l; [reflexivity | simpl in Hlen; lia].
  - destruct l as [|x l]; [reflexivity|].
    change (concat (take n (x :: l) :: blocks_aux fuel n (drop n (x :: l))))
      with (take n (x :: l) ++ concat (blocks_aux fuel n (drop n (x :: l)))).
    rewrite IH; [apply take_drop|].
    rewrite length_drop. simpl in *. lia.
Qed.

Lemma concat_blocks {A} (n : nat) (l : list A) :
  (0 < n)%nat → concat (blocks n l) = l.
Proof. intros Hn. by apply concat_blocks_aux. Qed.

(** ** Final encoding *)

Lemma wrap_int8_range (z : Z) : -128 ≤ wrap_int8 z ≤ 127.
Proof. unfold wrap_int8. pose proof (Z.mod_pos_bound (z + 128) 256). lia. Qed.

(** No cell of the narrowed raster can hold 255. *)
Lemma encode_cell_range (v : float) : -128 ≤ encode_cell v ≤ 127.
Proof.
  unfold encode_cell. destruct (fillna_255 v); simpl;
    [lia | apply wrap_int8_range].
Qed.

Lemma encode_cell_nan : encode_cell NaN = -1.
Proof. reflexivity. Qed.

(** C4. A cell that is NaN before [.fillna(255).astype("int8")] holds -1
    afterwards, in whichever class band it lies: 255 does not fit the
    signed 8-bit type the raster is narrowed to. *)
Theorem final_encoding_nan_cell_is_minus_one classes reflectance out r c k :
  final_encoding classes reflectance = inr out →
  cell3 reflectance r c k = Some NaN →
  ∃ name band,
    classes !! k = Some name
    ∧ out !! k = Some (name, band)
    ∧ cell2 band r c = Some (-1)
    ∧ cell2 band r c ≠ Some 255.
Proof.
  unfold final_encoding. case_bool_decide as Hshape; [|discriminate].
  destruct (mapM _ _) as [o|] eqn:Hm; simpl; [|discriminate].
  intros [= <-] Hcell.
  unfold cell3 in Hcell.
  destruct (cell2 reflectance r c) as [px|] eqn:Hpx; simpl in Hcell;
    [|discriminate].
  assert (Hlen : length px = length classes).
  { apply cell2_Some in Hpx as (row & Hr & Hc).
    rewrite Forall_forall in Hshape.
    assert (Hrow : row ∈ reflectance) by (apply list_elem_of_lookup; eauto).
    apply Hshape in Hrow. rewrite Forall_forall in Hrow.
    apply Hrow, list_elem_of_lookup. eauto. }
  destruct (lookup_lt_is_Some_2 classes k) as [name Hname].
  { rewrite <- Hlen. by apply lookup_lt_Some with NaN. }
  apply mapM_Some_1 in Hm.
  assert (Hk : imap pair classes !! k = Some (k, name)).
  { rewrite list_lookup_imap, Hname. reflexivity. }
  destruct (Forall2_lookup_l _ _ _ _ _ Hm Hk) as ([name' band] & Hout & Hband).
  simpl in Hband.
  destruct (mapM _ reflectance) as [b|] eqn:Hb; simpl in Hband; [|discriminate].
  injection Hband as <- <-.
  destruct (mapM2_cell _ _ _ _ _ _ Hb Hpx) as (v & Hv & Hbc).
  rewrite Hcell in Hv. injection Hv as <-.
  exists name, (map2d encode_cell b).
  assert (Hres : cell2 (map2d encode_cell b) r c = Some (-1)).
  { by rewrite cell2_map2d, Hbc. }
  repeat split; [exact Hname | exact Hout | exact Hres |].
  rewrite Hres. discriminate.
Qed.

Lemma final_encoding_nan_cell_is_minus_one_witness :
  ∃ name band,
    ["soil"; "water"] !! 1%nat = Some name
    ∧ [("soil", [[1; 3]]); ("water", [[2; -1]])] !! 1%nat = Some (name, band)
    ∧ cell2 band 0 1 = Some (-1)
    ∧ cell2 band 0 1 ≠ Some 255.
Proof.
  apply (final_encoding_nan_cell_is_minus_one ["soil"; "water"]
           [[[of_Z 1; of_Z 2]; [of_Z 3; NaN]]] _ 0 1 1);
    vm_compute; reflexivity.
Defined.

(* ===================================================================== *)
(** * Properties of utils/synthmix.py *)
(* ===================================================================== *)

(** ** Point extraction *)

Lemma replaced_value_not_residual (x : float) :
  feqb (set_where (of_Z 0) (λ v, feqb v residual_fill) x) residual_fill = false.
Proof.
  unfold set_where. destruct (feqb x residual_fill) eqn:E; [reflexivity | exact E].
Qed.

Lemma pivot_cells df wide :
  pivot df = inr wide →
  ∀ cell, cell ∈ wide → ∃ r, r ∈ df ∧ cell = (ID r, wavelengths r, reflectance r).
Proof.
  revert wide. induction df as [|r df IH]; simpl; intros wide Hrun cell Hin.
  - injection Hrun as <-. by apply elem_of_nil in Hin.
  - destruct (pivot df) as [e|w] eqn:Hp; simpl in Hrun; [discriminate|].
    destruct (existsb _ w); [discriminate|]. injection Hrun as <-.
    apply elem_of_cons in Hin as [->|Hin].
    + exists r. split; [apply list_elem_of_here | reflexivity].
    + destruct (IH w eq_refl cell Hin) as (r' & Hr' & Hcell).
      exists r'. split; [by apply list_elem_of_further | exact Hcell].
Qed.

(** Where the chained assignment writes through, [extract_points]
    returns the extracted long table with every reflectance equal to
    -0.1 replaced by 0 and every other value of every column as
    extracted; the wide table is pivoted from that updated table, so
    none of its cells holds -0.1. *)
Theorem extract_points_replaces_residual_fill nearest points ds ext df :
  extracted nearest points ds = inr ext →
  extract_points write_through nearest points ds = inr df →
  length df = length ext
  ∧ (∀ i r, ext !! i = Some r →
       ∃ r', df !! i = Some r'
             ∧ reflectance r'
               = (if feqb (reflectance r) residual_fill
                  then of_Z 0 else reflectance r)
             ∧ ID r' = ID r ∧ Category r' = Category r
             ∧ wavelengths r' = wavelengths r
             ∧ latitude r' = latitude r ∧ longitude r' = longitude r)
  ∧ (∃ df_wide,
       extract_points_steps write_through nearest points ds
       = inr (df, df_wide)
       ∧ pivot df = inr df_wide
       ∧ ∀ cell, cell ∈ df_wide → feqb cell.2 residual_fill = false).
Proof.
  unfold extract_points, extract_points_steps, chained_assign.
  intros Hext Hrun.
  rewrite Hext in Hrun |- *. simpl in Hrun |- *.
  destruct (pivot (replace_residual_fill ext)) as [e|wide] eqn:Hp;
    simpl in Hrun; [discriminate|].
  injection Hrun as <-. repeat split.
  - unfold replace_residual_fill. by rewrite length_fmap.
  - intros i r Hi. unfold replace_residual_fill.
    rewrite list_lookup_fmap, Hi. simpl. eexists. split; [reflexivity|].
    simpl. unfold set_where, residual_fill. repeat split; reflexivity.
  - exists wide. repeat split; [exact Hp|].
    intros cell Hin.
    destruct (pivot_cells _ _ Hp cell Hin) as (r & Hr & ->). simpl.
    unfold replace_residual_fill in Hr.
    apply list_elem_of_fmap in Hr as (r0 & -> & _). simpl.
    apply replaced_value_not_residual.
Qed.

Lemma extract_points_replaces_residual_fill_witness :
  ∃ ext df,
    extracted nearest_first two_points ortho_grid = inr ext
    ∧ extract_points write_through nearest_first two_points ortho_grid
      = inr df
    ∧ reflectance <$> ext
      = [Fin (- (1 # 10)); Fin (3 # 10); Fin (7 # 10); Fin (4 # 5)]
    ∧ reflectance <$> df
      = [of_Z 0; Fin (3 # 10); Fin (7 # 10); Fin (4 # 5)]
    ∧ length df = length ext
    ∧ (∀ i r, ext !! i = Some r →
         ∃ r', df !! i = Some r'
               ∧ reflectance r'
                 = (if feqb (reflectance r) residual_fill
                    then of_Z 0 else reflectance r)
               ∧ ID r' = ID r ∧ Category r' = Category r
               ∧ wavelengths r' = wavelengths r
               ∧ latitude r' = latitude r ∧ longitude r' = longitude r)
    ∧ (∃ df_wide,
         extract_points_steps write_through nearest_first two_points
           ortho_grid
         = inr (df, df_wide)
         ∧ pivot df = inr df_wide
         ∧ ∀ cell, cell ∈ df_wide → feqb cell.2 residual_fill = false).
Proof.
  eexists. eexists.
  split; [vm_compute; reflexivity|].
  split; [vm_compute; reflexivity|].
  split; [vm_compute; reflexivity|].
  split; [vm_compute; reflexivity|].
  apply (extract_points_replaces_residual_fill nearest_first two_points
           ortho_grid); vm_compute; reflexivity.
Defined.

(** C7. Under copy-on-write the chained assignment of [extract_points]
    reaches a temporary object only: the table that is returned, and the
    wide table pivoted from it, still hold the -0.1 of the nearest cell
    of the first point, where the same call with an assignment that
    writes through returns 0. *)
Theorem extract_points_copy_on_write_keeps_residual_fill :
  ∃ ext df df_wide df',
    extracted nearest_first two_points ortho_grid = inr ext
    ∧ extract_points_steps copy_on_write nearest_first two_points ortho_grid
      = inr (df, df_wide)
    ∧ extract_points copy_on_write nearest_first two_points ortho_grid
      = inr df
    ∧ df = ext
    ∧ reflectance <$> df
      = [residual_fill; Fin (3 # 10); Fin (7 # 10); Fin (4 # 5)]
    ∧ (df_wide.*1.*1, df_wide.*2)
      = ([0; 0; 1; 1], [residual_fill; Fin (3 # 10); Fin (7 # 10); Fin (4 # 5)])
    ∧ extract_points write_through nearest_first two_points ortho_grid
      = inr df'
    ∧ reflectance <$> df'
      = [of_Z 0; Fin (3 # 10); Fin (7 # 10); Fin (4 # 5)].
Proof.
  do 4 eexists. repeat split; vm_compute; reflexivity.
Qed.

(** ** Synthetic mixtures *)

Section QsumLemmas.
Local Open Scope Q_scope.

Lemma Qsum_app (l k : list Q) : Qsum (l ++ k) == Qsum l + Qsum k.
Proof.
  induction l as [|x l IH]; simpl; [ring|]. rewrite IH. ring.
Qed.

Lemma Qsum_Permutation (l k : list Q) : l ≡ₚ k → Qsum l == Qsum k.
Proof.
  induction 1 as [|x l k _ IH|x y l|l k m _ IH1 _ IH2]; simpl.
  - reflexivity.
  - by rewrite IH.
  - ring.
  - by rewrite IH1.
Qed.

Lemma Qsum_nonneg (l : list Q) : Forall (λ x, 0 <= x) l → 0 <= Qsum l.
Proof.
  induction 1 as [|x l Hx _ IH]; simpl; [apply Qle_refl | lra].
Qed.

Lemma Qsum_replicate_0 (n : nat) : Qsum (replicate n 0) == 0.
Proof. induction n as [|n IH]; simpl; [reflexivity | rewrite IH; ring]. Qed.

Lemma Qsum_fmap_plus {A} (f g : A → Q) (l : list A) :
  Qsum ((λ x, f x + g x) <$> l) == Qsum (f <$> l) + Qsum (g <$> l).
Proof.
  induction l as [|x l IH]; csimpl; [ring|]. rewrite IH. ring.
Qed.

Lemma Qsum_fmap_ext {A} (f g : A → Q) (l : list A) :
  (∀ x, f x == g x) → Qsum (f <$> l) == Qsum (g <$> l).
Proof.
  intros H. induction l as [|x l IH]; csimpl; [reflexivity|].
  by rewrite IH, H.
Qed.

Lemma Qsum_fmap_0 {A} (l : list A) : Qsum ((λ _, 0) <$> l) == 0.
Proof. induction l as [|x l IH]; csimpl; [reflexivity | rewrite IH; ring]. Qed.

(** The weight of a class, summed over a duplicate-free list of
    classes, is counted once if the class is listed. *)
Lemma Qsum_indicator (c : string) (w : Q) (D : list string) :
  NoDup D →
  Qsum ((λ c', if String.eqb c c' then w else 0) <$> D)
  == if bool_decide (c ∈ D) then w else 0.
Proof.
  induction 1 as [|c0 D Hnin _ IH]; csimpl; [reflexivity|].
  rewrite IH. destruct (String.eqb_spec c c0) as [->|Hne].
  - rewrite (bool_decide_eq_false_2 (c0 ∈ D)) by exact Hnin.
    rewrite (bool_decide_eq_true_2 (c0 ∈ c0 :: D))
      by apply list_elem_of_here.
    ring.
  - destruct (bool_decide (c ∈ D)) eqn:E.
    + apply bool_decide_eq_true_1 in E.
      rewrite (bool_decide_eq_true_2 (c ∈ c0 :: D))
        by (by apply list_elem_of_further).
      ring.
    + apply bool_decide_eq_false_1 in E.
      rewrite (bool_decide_eq_false_2 (c ∈ c0 :: D)); [ring|].
      intros Hin. apply elem_of_cons in Hin as [?|?]; congruence.
Qed.
End QsumLemmas.

Lemma Qsum_filled_column_cons c' w weight_df c :
  (Qsum (filled_column ((c', w) :: weight_df) c)
   == (if String.eqb c' c then w else 0) + Qsum (filled_column weight_df c))%Q.
Proof.
  unfold filled_column. simpl. destruct (String.eqb c' c); simpl; reflexivity.
Qed.

(** Summed over a duplicate-free list of columns that covers the sampled
    classes, the column sums add up to the sum of the weights. *)
Lemma Qsum_columns (D : list string) (weight_df : list (string * Q)) :
  NoDup D →
  (∀ cw, cw ∈ weight_df → cw.1 ∈ D) →
  (Qsum ((λ c, Qsum (filled_column weight_df c)) <$> D)
   == Qsum weight_df.*2)%Q.
Proof.
  intros HD. induction weight_df as [|[c' w] l IH]; intros Hcover.
  - simpl. apply Qsum_fmap_0.
  - rewrite (Qsum_fmap_ext _ _ D (Qsum_filled_column_cons c' w l)).
    rewrite Qsum_fmap_plus, (Qsum_indicator c' w D HD).
    rewrite bool_decide_eq_true_2
      by (apply (Hcover (c', w)), list_elem_of_here).
    rewrite IH; [simpl; reflexivity|].
    intros cw Hin. apply Hcover. by apply list_elem_of_further.
Qed.

Lemma filled_column_nonneg weight_df c :
  Forall (λ w, 0 <= w)%Q weight_df.*2 →
  Forall (λ w, 0 <= w)%Q (filled_column weight_df c).
Proof.
  unfold filled_column. induction weight_df as [|[c' w] l IH]; simpl;
    intros H; [constructor|].
  inversion H; subst. constructor; [|by apply IH].
  destruct (String.eqb c' c); simpl; [assumption | apply Qle_refl].
Qed.

Lemma filled_column_absent weight_df c :
  c ∉ weight_df.*1 → (Qsum (filled_column weight_df c) == 0)%Q.
Proof.
  unfold filled_column. induction weight_df as [|[c' w] l IH]; simpl;
    intros Hnin; [reflexivity|].
  destruct (String.eqb_spec c' c) as [->|Hne].
  - exfalso. apply Hnin, list_elem_of_here.
  - simpl. rewrite IH; [ring|].
    intros Hin. apply Hnin. by apply list_elem_of_further.
Qed.

Lemma Qsum_fmap_0_Forall {A} (f : A → Q) (l : list A) :
  Forall (λ x, f x == 0)%Q l → (Qsum (f <$> l) == 0)%Q.
Proof.
  induction 1 as [|x l Hx _ IH]; csimpl; [reflexivity|].
  rewrite IH, Hx. ring.
Qed.

Lemma dict_get_fmap {V W} (f : V → W) (c : string) (d : dict V) :
  dict_get c (prod_map id f <$> d) = f <$> dict_get c d.
Proof.
  induction d as [|[k v] d IH]; csimpl; [reflexivity|].
  destruct (String.eqb c k); [reflexivity | exact IH].
Qed.

Lemma dict_get_elem_of {V} (c : string) (d : dict V) :
  c ∈ d.*1 → ∃ v, dict_get c d = Some v ∧ (c, v) ∈ d.
Proof.
  induction d as [|[k v] d IH]; csimpl; intros Hin.
  - by apply elem_of_nil in Hin.
  - destruct (String.eqb_spec c k) as [->|Hne].
    + exists v. split; [reflexivity | apply list_elem_of_here].
    + apply elem_of_cons in Hin as [?|Hin]; [congruence|].
      destruct (IH Hin) as (v' & Hget & Hel).
      exists v'. split; [exact Hget | by apply list_elem_of_further].
Qed.

Lemma dict_get_Some_elem_of {V} (c : string) (d : dict V) (v : V) :
  dict_get c d = Some v → (c, v) ∈ d.
Proof.
  induction d as [|[k v'] d IH]; simpl; [discriminate|].
  destruct (String.eqb_spec c k) as [->|Hne].
  - intros [= ->]. apply list_elem_of_here.
  - intros H. apply list_elem_of_further. by apply IH.
Qed.

Lemma elem_of_unique (l : list string) (c : string) : c ∈ unique l ↔ c ∈ l.
Proof.
  unfold unique. by rewrite elem_of_reverse, elem_of_remove_dups, elem_of_reverse.
Qed.

(** The completed table is the filled pivot table followed by columns of
    zeros, and has a column for every class of [all_class]. *)
Lemma complete_columns (n : nat) (all_class : list string) :
  ∀ acc : dict (list Q),
  ∃ E,
    foldl (λ acc class_,
             if bool_decide (class_ ∈ acc.*1) then acc
             else acc ++ [(class_, replicate n 0%Q)]) acc all_class
    = acc ++ E
    ∧ Forall (λ e, e.2 = replicate n 0%Q) E
    ∧ ∀ c, c ∈ all_class → c ∈ (acc ++ E).*1.
Proof.
  induction all_class as [|c0 rest IH]; intros acc; simpl.
  - exists []. rewrite app_nil_r. repeat split; [constructor|].
    intros c Hc. by apply elem_of_nil in Hc.
  - case_bool_decide as Hin.
    + destruct (IH acc) as (E & Heq & Hz & Hcov).
      exists E. repeat split; [exact Heq | exact Hz |].
      intros c Hc. apply elem_of_cons in Hc as [->|Hc]; [|by apply Hcov].
      rewrite fmap_app. apply elem_of_app. by left.
    + destruct (IH (acc ++ [(c0, replicate n 0%Q)])) as (E & Heq & Hz & Hcov).
      exists ((c0, replicate n 0%Q) :: E).
      rewrite Heq, <- app_assoc. repeat split; [by constructor|].
      intros c Hc. apply elem_of_cons in Hc as [->|Hc].
      * rewrite fmap_app. apply elem_of_app. right. csimpl.
        apply list_elem_of_here.
      * specialize (Hcov c Hc). by rewrite <- app_assoc in Hcov.
Qed.

Lemma filled_pivot_table weight_df :
  prod_map id (fmap (M := list) (default 0%Q)) <$> pivot_table weight_df
  = (λ c, (c, filled_column weight_df c))
      <$> merge_sort str_le (remove_dups weight_df.*1).
Proof.
  unfold pivot_table. rewrite <- list_fmap_compose. reflexivity.
Qed.

(** What [mix_one] computes as class proportions, for the weights
    [weight_df] of the sampled classes. *)
Lemma proportions_spec (all_class : list string) (weight_df : list (string * Q)) :
  let props := pivot_sum (fill_and_complete all_class (pivot_table weight_df)) in
  (Qsum props.*2 == Qsum weight_df.*2)%Q
  ∧ (Forall (λ w, 0 <= w)%Q weight_df.*2 →
     ∀ c, c ∈ all_class → ∃ v, dict_get c props = Some v ∧ (0 <= v)%Q)
  ∧ (∀ c v, c ∉ weight_df.*1 → dict_get c props = Some v → (v == 0)%Q).
Proof.
  intros props. subst props. unfold pivot_sum, fill_and_complete.
  rewrite filled_pivot_table.
  set (S := merge_sort str_le (remove_dups weight_df.*1)).
  set (filled := (λ c, (c, filled_column weight_df c)) <$> S).
  destruct (complete_columns (length (hd [] (pivot_table weight_df).*2))
              all_class filled) as (E & -> & Hz & Hcov).
  set (P := filled ++ E).
  set (sorted := merge_sort (λ a b : string * list Q, str_le a.1 b.1) P).
  assert (Hperm : sorted ≡ₚ P) by apply merge_sort_Permutation.
  assert (HS : S ≡ₚ remove_dups weight_df.*1) by apply merge_sort_Permutation.
  assert (HP : ∀ c col, (c, col) ∈ P →
            col = filled_column weight_df c
            ∨ ∃ n, col = replicate n 0%Q).
  { intros c col Hin. apply elem_of_app in Hin as [Hin|Hin].
    - left. apply list_elem_of_fmap in Hin as (c' & [= -> ->] & _). reflexivity.
    - right. rewrite Forall_forall in Hz. specialize (Hz _ Hin). simpl in Hz.
      eauto. }
  repeat split.
  - rewrite <- list_fmap_compose.
    rewrite (Qsum_Permutation _ ((snd ∘ prod_map id Qsum) <$> P))
      by (by apply fmap_Permutation).
    unfold P. rewrite fmap_app, Qsum_app.
    rewrite (Qsum_fmap_0_Forall _ E).
    2:{ eapply Forall_impl; [exact Hz|]. intros [c col] Hcol. simpl in *.
        subst col. apply Qsum_replicate_0. }
    unfold filled. rewrite <- list_fmap_compose.
    change (Qsum ((λ c, Qsum (filled_column weight_df c)) <$> S) + 0
            == Qsum weight_df.*2)%Q.
    rewrite Qsum_columns; [ring | |].
    + rewrite HS. apply NoDup_remove_dups.
    + intros cw Hin. rewrite HS. apply elem_of_remove_dups.
      apply list_elem_of_fmap. eauto.
  - intros Hnonneg c Hc. rewrite dict_get_fmap.
    destruct (dict_get_elem_of c sorted) as (col & Hget & Hel).
    { rewrite Hperm. by apply Hcov. }
    rewrite Hget. exists (Qsum col). split; [reflexivity|].
    rewrite Hperm in Hel. apply Qsum_nonneg.
    destruct (HP c col Hel) as [->|[n ->]].
    + by apply filled_column_nonneg.
    + apply Forall_replicate, Qle_refl.
  - intros c v Hnin. rewrite dict_get_fmap.
    destruct (dict_get c sorted) as [col|] eqn:Hget; [|discriminate].
    intros [= <-]. apply dict_get_Some_elem_of in Hget.
    rewrite Hperm in Hget.
    destruct (HP c col Hget) as [->|[n ->]].
    + by apply filled_column_absent.
    + apply Qsum_replicate_0.
Qed.

Lemma sequence_elem_of {A} (l : list (result A)) (out : list A) (a : A) :
  sequence l = inr out → a ∈ out → inr a ∈ l.
Proof.
  revert out. induction l as [|m l IH]; simpl; intros out Hrun Hin.
  - injection Hrun as <-. by apply elem_of_nil in Hin.
  - destruct m as [e|a0]; simpl in Hrun; [discriminate|].
    destruct (sequence l) as [e|r]; simpl in Hrun; [discriminate|].
    injection Hrun as <-. apply elem_of_cons in Hin as [->|Hin].
    + apply list_elem_of_here.
    + apply list_elem_of_further. by apply (IH r).
Qed.

Lemma mix_one_proportions (df : list sample) d rec :
  mix_one df d = inr rec →
  dirichlet_draw d →
  ∃ picked : list sample,
    mapM (λ j, df !! j) (selected_rows d) = Some picked
    ∧ (Qsum (proportions rec).*2 == 1)%Q
    ∧ (∀ c, c ∈ category <$> df →
         ∃ v, dict_get c (proportions rec) = Some v ∧ (0 <= v)%Q)
    ∧ (∀ c v, c ∉ category <$> picked →
         dict_get c (proportions rec) = Some v → (v == 0)%Q).
Proof.
  unfold mix_one. intros Hrun (Hlen & Hnonneg & Hsum).
  case_bool_decide; [|discriminate].
  destruct (mapM _ (selected_rows d)) as [picked|] eqn:Hpick;
    simpl in Hrun; [|discriminate].
  injection Hrun as <-. simpl. exists picked.
  assert (Hlen' : length (weights d) = length (category <$> picked)).
  { rewrite length_fmap, Hlen. apply length_mapM in Hpick. congruence. }
  destruct (proportions_spec (unique (category <$> df))
              (zip (category <$> picked) (weights d))) as (Hs & Hpos & Hzero).
  rewrite snd_zip in Hs, Hpos by lia. rewrite fst_zip in Hzero by lia.
  repeat split.
  - by rewrite Hs.
  - intros c Hc. apply (Hpos Hnonneg). by apply elem_of_unique.
  - exact Hzero.
Qed.

(** C8. With Dirichlet weights (none negative, summing to one) every
    record produced by [mix_fast] carries class proportions that sum to
    one, that have a non-negative entry for every class of the library,
    and that are zero for every class other than those of the records
    sampled for it. Weights are exact rationals here, so the sum is
    exactly one. *)
Theorem mix_fast_proportions (df : list sample) nsamp rng out :
  mix_fast df nsamp rng = inr out →
  (∀ i, (i < nsamp)%nat → dirichlet_draw (rng i)) →
  ∀ rec, rec ∈ out →
    (Qsum (proportions rec).*2 == 1)%Q
    ∧ (∀ c, c ∈ category <$> df →
         ∃ v, dict_get c (proportions rec) = Some v ∧ (0 <= v)%Q)
    ∧ (∃ i (picked : list sample),
         (i < nsamp)%nat
         ∧ mapM (λ j, df !! j) (selected_rows (rng i)) = Some picked
         ∧ ∀ c v, c ∉ category <$> picked →
             dict_get c (proportions rec) = Some v → (v == 0)%Q).
Proof.
  unfold mix_fast. intros Hrun Hrng rec Hin.
  destruct (sequence _) as [e|recs] eqn:Hseq; simpl in Hrun; [discriminate|].
  assert (out = recs) as -> by (destruct recs; [discriminate | congruence]).
  apply (sequence_elem_of _ _ _ Hseq) in Hin.
  apply list_elem_of_fmap in Hin as (i & Hone & Hi).
  apply elem_of_seq in Hi. symmetry in Hone.
  destruct (mix_one_proportions df (rng i) rec Hone) as
    (picked & Hpick & Hs & Hpos & Hzero); [apply Hrng; lia|].
  repeat split; [exact Hs | exact Hpos |].
  exists i, picked. repeat split; [lia | exact Hpick | exact Hzero].
Qed.

Lemma mix_fast_proportions_witness :
  let rec := {| mixed := [Fin (400 # 1600); Fin (560 # 1600)];
                proportions := [("soil", 1 # 4); ("veg", 3 # 4); ("water", 0)]%Q |} in
  mix_fast library 1 fixed_draw = inr [rec]
  ∧ (Qsum (proportions rec).*2 == 1)%Q
  ∧ (∀ c, c ∈ category <$> library →
       ∃ v, dict_get c (proportions rec) = Some v ∧ (0 <= v)%Q)
  ∧ (∃ i (picked : list sample),
       (i < 1)%nat
       ∧ mapM (λ j, library !! j) (selected_rows (fixed_draw i)) = Some picked
       ∧ ∀ c v, c ∉ category <$> picked →
           dict_get c (proportions rec) = Some v → (v == 0)%Q).
Proof.
  intros rec. split; [vm_compute; reflexivity|].
  apply (mix_fast_proportions library 1 fixed_draw [rec]).
  - vm_compute; reflexivity.
  - intros i _. unfold dirichlet_draw, fixed_draw. simpl.
    split; [reflexivity|]. split; [|reflexivity].
    repeat constructor; unfold Qle; simpl; lia.
  - apply list_elem_of_here.
Defined.

(* ===================================================================== *)
(** * Further properties of utils/emit_tools.py *)
(* ===================================================================== *)

(** ** [apply_glt]: what is read, what raises, what comes back *)

Lemma gather_cell (a : array3 float) (x y : Z) :
  0 ≤ x → 0 ≤ y →
  is_Some (cell2 a (Z.to_nat y) (Z.to_nat x)) →
  gather a (x, y) = cell2 a (Z.to_nat y) (Z.to_nat x).
Proof.
  intros Hx Hy [v Hv]. apply cell2_Some in Hv as (row & Hrow & Hv).
  unfold gather, cell2. simpl.
  rewrite np_index_in_range by (apply lookup_lt_Some in Hrow; lia). simpl.
  rewrite Hrow. simpl.
  rewrite np_index_in_range by (apply lookup_lt_Some in Hv; lia).
  reflexivity.
Qed.

Lemma np_index_too_large (n : nat) (i : Z) : Z.of_nat n ≤ i → np_index n i = None.
Proof.
  intros Hi. unfold np_index.
  destruct (Z.ltb_spec i (Z.of_nat n)); [lia|]. rewrite andb_false_r.
  destruct (Z.ltb_spec i 0); [lia|]. by rewrite andb_false_r.
Qed.

(** What a call puts at a valid cell is what the gather gives at the
    decremented entry. *)
Lemma apply_glt_valid_cell ds_array glt fill_value nodata out r c g :
  (apply_glt ds_array glt fill_value nodata).2 = Some out →
  cell2 glt r c = Some g →
  valid_glt nodata g = true →
  ∃ px, cell2 out r c = Some px
        ∧ match ds_array with
          | A1 _ => False
          | A2 a => gather (newaxis a) (g.1 - 1, g.2 - 1) = Some px
          | A3 a => gather a (g.1 - 1, g.2 - 1) = Some px
          end.
Proof.
  unfold apply_glt. intros Hout Hc Hv.
  destruct ds_array as [a|a|a]; cbn in Hout; [discriminate| |];
    destruct (mapM2_cell _ _ _ _ _ _ Hout Hc) as (v & Hg & Hcell);
    rewrite Hv in Hg; unfold adjust_one_based in Hg; rewrite Hv in Hg;
    eauto.
Qed.

(** The shape of what [apply_glt] returns is the shape of the GLT. *)
Lemma mapM2_shape {A B} (f : A → option B) (a : array2 A) (out : array2 B) :
  mapM (mapM f) a = Some out → length <$> out = length <$> a.
Proof.
  revert out. induction a as [|row a IH]; intros out Hm.
  - apply length_mapM in Hm. by destruct out.
  - apply mapM_Some_1 in Hm. inversion Hm as [|? orow ? out' Hrow Hrest]; subst.
    csimpl. f_equal.
    + apply length_mapM in Hrow. congruence.
    + apply IH. by apply mapM_Some_2.
Qed.

(** A valid entry with both components at least 1 reads the sensor
    pixel one row and one column before the one it names. *)
Lemma apply_glt_read3 (a : array3 float) glt fill_value out r c x y px :
  (apply_glt (A3 a) glt fill_value 0).2 = Some out →
  cell2 glt r c = Some (x, y) →
  1 ≤ x → 1 ≤ y →
  cell2 a (Z.to_nat (y - 1)) (Z.to_nat (x - 1)) = Some px →
  cell2 out r c = Some px.
Proof.
  intros Hout Hc Hx Hy Hpx.
  assert (Hv : valid_glt 0 (x, y) = true) by (apply valid_glt_true; lia).
  destruct (apply_glt_valid_cell _ _ _ _ _ _ _ _ Hout Hc Hv) as (px' & Hcell & Hg).
  simpl in Hg.
  rewrite gather_cell in Hg by (rewrite ?Hpx; eauto; lia). congruence.
Qed.

Lemma apply_glt_read2 (a : array2 float) glt fill_value out r c x y v :
  (apply_glt (A2 a) glt fill_value 0).2 = Some out →
  cell2 glt r c = Some (x, y) →
  1 ≤ x → 1 ≤ y →
  cell2 a (Z.to_nat (y - 1)) (Z.to_nat (x - 1)) = Some v →
  cell2 out r c = Some [v].
Proof.
  intros Hout Hc Hx Hy Hv'.
  assert (Hv : valid_glt 0 (x, y) = true) by (apply valid_glt_true; lia).
  destruct (apply_glt_valid_cell _ _ _ _ _ _ _ _ Hout Hc Hv) as (px & Hcell & Hg).
  simpl in Hg.
  rewrite gather_cell in Hg; [|lia|lia|].
  - unfold newaxis in Hg. rewrite cell2_map2d, Hv' in Hg. simpl in Hg.
    congruence.
  - unfold newaxis. rewrite cell2_map2d, Hv'. simpl. eauto.
Qed.

Lemma apply_glt_shape ds_array (glt : glt_array) fill_value nodata out :
  (apply_glt ds_array glt fill_value nodata).2 = Some out →
  length <$> out = length <$> glt.
Proof.
  unfold apply_glt. intros Hout.
  destruct ds_array as [a|a|a]; cbn in Hout; [discriminate| |];
    exact (mapM2_shape _ _ _ Hout).
Qed.

(** X1. On the first call a GLT entry (x, y) with x, y >= 1 reads the
    sensor pixel at row y - 1, column x - 1: all its bands for a 3-D
    array, the value as a single band for a 2-D array. A 1-D array is
    never remapped. *)
Theorem apply_glt_reads_one_based ds_array glt fill_value out r c x y :
  (apply_glt ds_array glt fill_value 0).2 = Some out →
  cell2 glt r c = Some (x, y) →
  1 ≤ x → 1 ≤ y →
  match ds_array with
  | A1 _ => False
  | A2 a => ∀ v, cell2 a (Z.to_nat (y - 1)) (Z.to_nat (x - 1)) = Some v →
                 cell2 out r c = Some [v]
  | A3 a => ∀ px, cell2 a (Z.to_nat (y - 1)) (Z.to_nat (x - 1)) = Some px →
                  cell2 out r c = Some px
  end.
Proof.
  intros Hout Hc Hx Hy. destruct ds_array as [a|a|a].
  - discriminate Hout.
  - intros v. by apply (apply_glt_read2 a glt fill_value).
  - intros px. by apply (apply_glt_read3 a glt fill_value).
Qed.

Lemma apply_glt_reads_one_based_witness :
  cell2 [[[of_Z 10; of_Z 11]; [of_Z 20; of_Z 21]];
         [[of_Z 10; of_Z 11]; [of_Z 40; of_Z 41]]] 0 1
  = Some [of_Z 20; of_Z 21].
Proof.
  apply (apply_glt_reads_one_based
           (A3 [[[of_Z 10; of_Z 11]; [of_Z 20; of_Z 21]];
                [[of_Z 30; of_Z 31]; [of_Z 40; of_Z 41]]])
           [[(1, 1); (2, 1)]; [(1, 1); (2, 2)]] default_fill_value
           _ 0 1 2 1); [reflexivity | reflexivity | lia | lia | reflexivity].
Defined.

(** X2. A valid entry that points past the last column or the last row
    of the sensor array makes the call raise (IndexError); nothing is
    clamped or treated as no-data. *)
Theorem apply_glt_out_of_bounds_raises ds_array glt fill_value dr dc r c x y :
  sensor_shape ds_array dr dc →
  cell2 glt r c = Some (x, y) →
  1 ≤ x → 1 ≤ y →
  Z.of_nat dc < x ∨ Z.of_nat dr < y →
  (apply_glt ds_array glt fill_value 0).2 = None.
Proof.
  intros Hshape Hc Hx Hy Hout.
  assert (Hv : valid_glt 0 (x, y) = true) by (apply valid_glt_true; lia).
  destruct (apply_glt ds_array glt fill_value 0).2 as [out|] eqn:E;
    [|reflexivity].
  exfalso.
  destruct (apply_glt_valid_cell _ _ _ _ _ _ _ _ E Hc Hv) as (px & _ & Hg).
  simpl in Hg.
  assert (Hnone : ∀ a : array3 float,
    length a = dr → Forall (λ row, length row = dc) a →
    gather a (x - 1, y - 1) = None).
  { intros a Hr Hcols. unfold gather. simpl.
    destruct (np_index (length a) (y - 1)) as [iy|] eqn:Hiy; [|reflexivity].
    simpl. destruct (a !! iy) as [row|] eqn:Hrow; [|reflexivity]. simpl.
    assert (length row = dc) as Hlen.
    { rewrite Forall_forall in Hcols. apply Hcols, list_elem_of_lookup. eauto. }
    destruct Hout as [Hout|Hout].
    - rewrite np_index_too_large by lia. reflexivity.
    - rewrite np_index_too_large in Hiy by lia. discriminate. }
  destruct ds_array as [a|a|a]; simpl in Hshape; [done| |];
    destruct Hshape as [Hr Hcols].
  - rewrite Hnone in Hg; [discriminate| |].
    + unfold newaxis, map2d. by rewrite length_fmap.
    + unfold newaxis, map2d. apply Forall_fmap.
      eapply Forall_impl; [exact Hcols|]. intros row Hrow. simpl.
      by rewrite length_fmap.
  - rewrite Hnone in Hg; [discriminate | done | done].
Qed.

Lemma apply_glt_out_of_bounds_raises_witness :
  (apply_glt (A2 [[of_Z 1; of_Z 2]; [of_Z 3; of_Z 4]])
     [[(1, 1); (3, 1)]] default_fill_value 0).2 = None.
Proof.
  apply (apply_glt_out_of_bounds_raises _ _ _ 2 2 0 1 3 1);
    [simpl; split; [reflexivity | repeat constructor]
    | reflexivity | lia | lia | left; lia].
Defined.

(** X3. Whatever the sensor array, the array returned by [apply_glt] has
    one row per GLT row and one pixel per GLT cell. *)
Theorem apply_glt_output_shape ds_array (glt : glt_array) fill_value nodata out :
  (apply_glt ds_array glt fill_value nodata).2 = Some out →
  length out = length glt
  ∧ ∀ r orow grow, out !! r = Some orow → glt !! r = Some grow →
      length orow = length grow.
Proof.
  intros Hout. apply apply_glt_shape in Hout. split.
  - apply (f_equal length) in Hout. by rewrite !length_fmap in Hout.
  - intros r orow grow Ho Hg.
    apply (f_equal (λ l, l !! r)) in Hout.
    rewrite !list_lookup_fmap, Ho, Hg in Hout. by injection Hout.
Qed.

Lemma apply_glt_output_shape_witness :
  ∃ out,
    (apply_glt (A2 [[of_Z 1; of_Z 2]; [of_Z 3; of_Z 4]])
       [[(1, 1); (0, 0); (2, 2)]] default_fill_value 0).2 = Some out
    ∧ length out = 1%nat.
Proof.
  eexists. split; [reflexivity|].
  apply (apply_glt_output_shape (A2 [[of_Z 1; of_Z 2]; [of_Z 3; of_Z 4]])
           [[(1, 1); (0, 0); (2, 2)]] default_fill_value 0).
  reflexivity.
Defined.

Lemma cell2_identity_glt rows cols r c :
  (r < rows)%nat → (c < cols)%nat →
  cell2 (identity_glt rows cols) r c = Some (Z.of_nat c + 1, Z.of_nat r + 1).
Proof.
  intros Hr Hc. unfold cell2, identity_glt.
  rewrite list_lookup_fmap, lookup_seq_lt by done. simpl.
  rewrite list_lookup_fmap, lookup_seq_lt by done. reflexivity.
Qed.

(** X4. Remapping with the identity GLT of the array's own shape gives
    the array back, pixel for pixel. *)
Theorem apply_glt_identity (a : array3 float) fill_value dr dc :
  length a = dr → Forall (λ row, length row = dc) a →
  (apply_glt (A3 a) (identity_glt dr dc) fill_value 0).2 = Some a.
Proof.
  intros Hr Hc.
  destruct (apply_glt_returns (A3 a) (identity_glt dr dc) fill_value dr dc)
    as [[out Hout] _]; [done | |].
  { unfold glt_in_range, identity_glt. apply Forall_fmap, Forall_forall.
    intros r Hrin. simpl. apply Forall_fmap, Forall_forall. intros c Hcin.
    apply elem_of_seq in Hrin, Hcin. simpl. lia. }
  rewrite Hout. f_equal.
  pose proof (apply_glt_shape _ _ _ _ _ Hout) as Hshape.
  assert (Hcells : ∀ r c, cell2 out r c = cell2 a r c).
  { intros r c.
    destruct (cell2 a r c) as [px|] eqn:Hpx.
    - apply cell2_Some in Hpx as (row & Hrow & Hpx).
      assert (r < dr)%nat by (apply lookup_lt_Some in Hrow; lia).
      assert (length row = dc) as Hlen.
      { rewrite Forall_forall in Hc. apply Hc, list_elem_of_lookup. eauto. }
      assert (c < dc)%nat by (apply lookup_lt_Some in Hpx; lia).
      apply (apply_glt_read3 a _ _ _ r c _ _ _ Hout
               (cell2_identity_glt dr dc r c ltac:(done) ltac:(done)));
        [lia | lia |].
      replace (Z.to_nat (Z.of_nat r + 1 - 1)) with r by lia.
      replace (Z.to_nat (Z.of_nat c + 1 - 1)) with c by lia.
      apply cell2_Some. eauto.
    - destruct (cell2 out r c) as [px|] eqn:Hopx; [|reflexivity].
      exfalso. apply cell2_Some in Hopx as (orow & Horow & Hopx).
      assert (Hlr : length <$> identity_glt dr dc !! r = Some (length orow)).
      { rewrite <- list_lookup_fmap, <- Hshape, list_lookup_fmap, Horow.
        reflexivity. }
      unfold identity_glt in Hlr. rewrite list_lookup_fmap in Hlr.
      destruct (seq 0 dr !! r) as [r'|] eqn:Hseq; [|discriminate].
      simpl in Hlr. rewrite length_fmap, length_seq in Hlr.
      injection Hlr as Hlr.
      apply lookup_seq in Hseq as [-> Hrlt].
      destruct (lookup_lt_is_Some_2 a r) as [row Hrow]; [lia|].
      assert (length row = dc) as Hlen.
      { rewrite Forall_forall in Hc. apply Hc, list_elem_of_lookup. eauto. }
      destruct (lookup_lt_is_Some_2 row c) as [px' Hpx'].
      { apply lookup_lt_Some in Hopx. lia. }
      assert (cell2 a r c = Some px') by (apply cell2_Some; eauto).
      congruence. }
  apply list_eq. intros r.
  specialize (Hcells r).
  destruct (out !! r) as [orow|] eqn:Horow, (a !! r) as [row|] eqn:Hrow.
  - f_equal. apply list_eq. intros c. specialize (Hcells c).
    unfold cell2 in Hcells. by rewrite Horow, Hrow in Hcells.
  - apply lookup_lt_Some in Horow. apply lookup_ge_None in Hrow.
    assert (length out = length a); [|lia].
    apply (f_equal length) in Hshape. rewrite !length_fmap in Hshape.
    rewrite Hshape. unfold identity_glt. rewrite length_fmap, length_seq. lia.
  - apply lookup_lt_Some in Hrow. apply lookup_ge_None in Horow.
    assert (length out = length a); [|lia].
    apply (f_equal length) in Hshape. rewrite !length_fmap in Hshape.
    rewrite Hshape. unfold identity_glt. rewrite length_fmap, length_seq. lia.
  - reflexivity.
Qed.

Lemma apply_glt_identity_witness :
  (apply_glt (A3 [[[of_Z 10; of_Z 11]; [of_Z 20; of_Z 21]];
                  [[of_Z 30; of_Z 31]; [of_Z 40; of_Z 41]]])
     (identity_glt 2 2) default_fill_value 0).2
  = Some [[[of_Z 10; of_Z 11]; [of_Z 20; of_Z 21]];
          [[of_Z 30; of_Z 31]; [of_Z 40; of_Z 41]]].
Proof.
  apply (apply_glt_identity _ _ 2 2); [reflexivity | repeat constructor].
Defined.

(** ** Repeated calls on one GLT array *)

Lemma apply_glt_glt_after ds_array glt fill_value n :
  (apply_glt ds_array (glt_after n glt) fill_value 0).1 = glt_after (S n) glt.
Proof. reflexivity. Qed.

(** After [n] calls an entry whose components both exceed [n] has lost
    [n] in each component. *)
Lemma glt_after_large (glt : glt_array) r c x y n :
  cell2 glt r c = Some (x, y) →
  Z.of_nat n < x → Z.of_nat n < y →
  cell2 (glt_after n glt) r c = Some (x - Z.of_nat n, y - Z.of_nat n).
Proof.
  intros Hc. induction n as [|n IH]; intros Hx Hy.
  - simpl. rewrite Hc. f_equal. f_equal; lia.
  - unfold glt_after in *. simpl. rewrite cell2_map2d, IH by lia. simpl.
    unfold adjust_one_based.
    rewrite (proj2 (valid_glt_true 0 _ _)) by lia. simpl.
    f_equal. f_equal; lia.
Qed.

(** After [n] calls an entry with a component between 0 and [n] has a
    zero component: it has become, and stays, a no-data cell. *)
Lemma glt_after_small (glt : glt_array) r c x y n :
  cell2 glt r c = Some (x, y) →
  0 ≤ x → 0 ≤ y →
  x ≤ Z.of_nat n ∨ y ≤ Z.of_nat n →
  ∃ x' y', cell2 (glt_after n glt) r c = Some (x', y') ∧ (x' = 0 ∨ y' = 0).
Proof.
  intros Hc Hx Hy. induction n as [|n IH]; intros Hsmall.
  - exists x, y. simpl. split; [exact Hc | lia].
  - destruct (decide (x ≤ Z.of_nat n ∨ y ≤ Z.of_nat n)) as [Hs|Hl].
    + destruct (IH Hs) as (x' & y' & Hc' & H0).
      exists x', y'. split; [|exact H0].
      unfold glt_after in *. simpl. rewrite cell2_map2d, Hc'. simpl.
      unfold adjust_one_based.
      by rewrite (proj2 (valid_glt_false 0 x' y') H0).
    + pose proof (glt_after_large glt r c x y n Hc ltac:(lia) ltac:(lia)) as Hc'.
      exists (x - Z.of_nat n - 1), (y - Z.of_nat n - 1).
      unfold glt_after in *. simpl. rewrite cell2_map2d, Hc'. simpl.
      unfold adjust_one_based.
      rewrite (proj2 (valid_glt_true 0 _ _)) by lia.
      split; [reflexivity | lia].
Qed.

(** X5. A GLT whose entries are 0 or point into the sensor grid can be
    used for any number of calls: after [n] calls it still points into
    the grid, and the next call, on any array of the sensor's shape,
    returns rather than raises. *)
Theorem apply_glt_repeated_calls_return ds_array glt fill_value dr dc n :
  sensor_shape ds_array dr dc →
  glt_in_range glt dr dc →
  glt_in_range (glt_after n glt) dr dc
  ∧ is_Some (apply_glt ds_array (glt_after n glt) fill_value 0).2.
Proof.
  intros Hshape Hglt.
  assert (Hn : glt_in_range (glt_after n glt) dr dc).
  { induction n as [|n IH]; [exact Hglt|].
    rewrite <- (apply_glt_glt_after ds_array glt fill_value n).
    by apply apply_glt_returns. }
  split; [exact Hn|]. by apply (apply_glt_returns _ _ _ dr dc).
Qed.

Lemma apply_glt_repeated_calls_return_witness :
  is_Some (apply_glt (A2 [[of_Z 1; of_Z 2]; [of_Z 3; of_Z 4]])
             (glt_after 3 [[(1, 1); (0, 0)]; [(2, 2); (2, 0)]])
             default_fill_value 0).2.
Proof.
  apply (apply_glt_repeated_calls_return _ _ _ 2 2 3).
  - simpl. split; [reflexivity | repeat constructor].
  - unfold glt_in_range. repeat constructor; simpl; lia.
Defined.

(** X6. The call that follows [n] earlier calls on the same GLT array
    reads, for an entry (x, y) with x, y > n, the sensor pixel at row
    y - 1 - n, column x - 1 - n; an entry with a component in 0..n is
    filled as no-data. Each call shifts the mapping by one more pixel. *)
Theorem apply_glt_after_n_calls (a : array3 float) glt fill_value n out r c x y :
  (apply_glt (A3 a) (glt_after n glt) fill_value 0).2 = Some out →
  cell2 glt r c = Some (x, y) →
  0 ≤ x → 0 ≤ y →
  (Z.of_nat n < x → Z.of_nat n < y →
     ∀ px, cell2 a (Z.to_nat (y - 1 - Z.of_nat n))
             (Z.to_nat (x - 1 - Z.of_nat n)) = Some px →
           cell2 out r c = Some px)
  ∧ (x ≤ Z.of_nat n ∨ y ≤ Z.of_nat n →
     ∃ nb, cell2 out r c = Some (replicate nb fill_value)).
Proof.
  intros Hout Hc Hx Hy. split.
  - intros Hxn Hyn px Hpx.
    pose proof (glt_after_large glt r c x y n Hc Hxn Hyn) as Hc'.
    apply (apply_glt_read3 a _ _ _ r c _ _ _ Hout Hc'); [lia | lia |].
    replace (y - Z.of_nat n - 1) with (y - 1 - Z.of_nat n) by lia.
    replace (x - Z.of_nat n - 1) with (x - 1 - Z.of_nat n) by lia.
    exact Hpx.
  - intros Hsmall.
    destruct (glt_after_small glt r c x y n Hc Hx Hy Hsmall)
      as (x' & y' & Hc' & H0).
    apply valid_glt_false in H0.
    destruct (apply_glt_fill_invalid _ _ _ _ _ _ _ _ Hout Hc' H0)
      as (nb & Hcell & _).
    eauto.
Qed.

Lemma apply_glt_after_n_calls_witness :
  let a := [[[of_Z 10]; [of_Z 20]; [of_Z 30]];
            [[of_Z 40]; [of_Z 50]; [of_Z 60]];
            [[of_Z 70]; [of_Z 80]; [of_Z 90]]] in
  let glt := [[(1, 1); (2, 1); (3, 1)];
              [(1, 2); (2, 2); (3, 2)];
              [(1, 3); (2, 3); (3, 3)]] in
  ∃ out,
    (apply_glt (A3 a) (glt_after 2 glt) default_fill_value 0).2 = Some out
    ∧ cell2 out 2 2 = Some [of_Z 10]
    ∧ ∃ nb, cell2 out 1 2 = Some (replicate nb default_fill_value).
Proof.
  intros a glt. eexists. split; [reflexivity|]. split.
  - apply (apply_glt_after_n_calls a glt default_fill_value 2 _ 2 2 3 3);
      [reflexivity | reflexivity | lia | lia | lia | lia | reflexivity].
  - apply (apply_glt_after_n_calls a glt default_fill_value 2 _ 1 2 3 2);
      [reflexivity | reflexivity | lia | lia | right; lia].
Defined.

(** The loop of [ortho_xr] over [k] variables leaves the GLT array as
    [k] calls of [apply_glt] leave it. *)
Lemma ortho_vars_glt_after ds fill_value var_list :
  ∀ glt acc glt' vars,
  ortho_vars ds 0 fill_value var_list glt acc = inr (glt', vars) →
  glt' = glt_after (length var_list) glt.
Proof.
  induction var_list as [|var rest IH]; cbn; intros glt acc glt' vars Hrun.
  - by injection Hrun as <- <-.
  - destruct (ds_get ds var) as [e|raw_ds]; cbn in Hrun; [discriminate|].
    destruct (apply_glt raw_ds glt default_fill_value 0) as [g' r0] eqn:E.
    assert (Hg' : g' = glt_after 1 glt).
    { pose proof (apply_glt_glt raw_ds glt default_fill_value 0) as H.
      rewrite E in H. exact H. }
    destruct r0 as [out_ds|]; cbn in Hrun; [|discriminate].
    assert (Hnext : ∀ entry,
      ortho_vars ds 0 fill_value rest g' (dict_set var entry acc)
      = inr (glt', vars) → glt' = glt_after (S (length rest)) glt).
    { intros entry Hrest. rewrite (IH _ _ _ _ Hrest), Hg'.
      unfold glt_after. simpl. by rewrite <- Nat.iter_succ_r. }
    case_bool_decide.
    + destruct (squeeze_latlon _ _ _) as [e|sq]; cbn in Hrun; [discriminate|].
      exact (Hnext _ Hrun).
    + cbn in Hrun. exact (Hnext _ Hrun).
Qed.

(** X7. In the dataset returned by [ortho_xr] (default arguments) the
    elevation is remapped with a GLT that the [k] data variables before
    it have already decremented [k] times: it is NaN wherever an entry
    has a component in 0..k, and elsewhere it holds the elevation of the
    sensor pixel [k] rows and [k] columns before the one the GLT names. *)
Theorem ortho_xr_elev_shifted ds out glt r c x y :
  ortho_xr ds default_GLT_NODATA_VALUE default_fill_value = inr out →
  build_glt ds default_GLT_NODATA_VALUE = inr glt →
  cell2 glt r c = Some (x, y) →
  0 ≤ x → 0 ≤ y →
  let k := Z.of_nat (length (filter (λ v, v ≠ "flat_field_update")
                               (data_vars ds).*1)) in
  1 ≤ k
  ∧ (x ≤ k ∨ y ≤ k →
       ∃ e, dict_get "elev" (coords out) = Some e ∧ all_nan_at e r c)
  ∧ (k < x → k < y →
       ∀ elev v,
         ds_get ds "elev" = inr (A2 elev) →
         cell2 elev (Z.to_nat (y - 1 - k)) (Z.to_nat (x - 1 - k)) = Some v →
         feqb v default_fill_value = false →
         ∃ e, dict_get "elev" (coords out) = Some (A2 e)
              ∧ cell2 e r c = Some v).
Proof.
  unfold ortho_xr. intros Hrun Hglt Hc Hx Hy.
  set (k := Z.of_nat (length (filter (λ v, v ≠ "flat_field_update")
                               (data_vars ds).*1))).
  rewrite Hglt in Hrun. cbn in Hrun.
  destruct (ortho_vars _ _ _ _ _ _) as [e|[glt' vars]] eqn:Evars;
    cbn in Hrun; [discriminate|].
  apply ortho_vars_glt_after in Evars as Hglt'.
  destruct (coord_vects ds) as [e|ll]; cbn in Hrun; [discriminate|].
  destruct (ds_get ds "elev") as [e|elev0] eqn:Helev; cbn in Hrun;
    [discriminate|].
  destruct (apply_glt elev0 glt' default_fill_value default_GLT_NODATA_VALUE)
    as [g'' r0] eqn:E.
  destruct r0 as [elev_ds|]; cbn in Hrun; [|discriminate].
  assert (Hout : (apply_glt elev0 glt' default_fill_value 0).2 = Some elev_ds)
    by (unfold default_GLT_NODATA_VALUE in E; by rewrite E).
  destruct (dict_del_all _ _) as [e|coords']; cbn in Hrun; [discriminate|].
  destruct (squeeze_latlon _ _ _) as [e|elev_sq] eqn:Esq; cbn in Hrun;
    [discriminate|].
  case_bool_decide as Hne; cbn in Hrun; [discriminate|].
  injection Hrun as <-. simpl.
  assert (Hget : dict_get "elev" (dict_set "elev" (A2 elev_sq) coords')
                 = Some (A2 elev_sq)) by (by rewrite dict_get_set).
  split; [|split].
  - subst k. destruct (filter _ _); [done | simpl; lia].
  - intros Hsmall. exists (A2 elev_sq). split; [exact Hget|]. simpl.
    destruct (glt_after_small glt r c x y _ Hc Hx Hy Hsmall)
      as (x' & y' & Hc' & H0).
    rewrite <- Hglt' in Hc'. apply valid_glt_false in H0.
    destruct (apply_glt_fill_invalid _ _ _ _ _ _ _ _ Hout Hc' H0)
      as (nb & Hcell & _).
    pose proof (mask_fill_cell default_fill_value _ _ _ _ Hcell) as Hmf.
    rewrite mask_fill_default_replicate in Hmf.
    pose proof Esq as Esq'. unfold squeeze_latlon in Esq'.
    case_bool_decide; [|discriminate].
    destruct (mapM _ _) as [sq'|] eqn:Hm; simpl in Esq'; [|discriminate].
    injection Esq' as ->.
    destruct (mapM2_cell _ _ _ _ _ _ Hm Hmf) as (v & Hv & Hsq).
    destruct nb as [|[|nb]]; simpl in Hv; try discriminate.
    injection Hv as <-. exact Hsq.
  - intros Hxk Hyk elev v [= ->] Hv Hnofill.
    exists elev_sq. split; [exact Hget|].
    pose proof (glt_after_large glt r c x y _ Hc Hxk Hyk) as Hc'.
    rewrite <- Hglt' in Hc'.
    assert (Hcell : cell2 elev_ds r c = Some [v]).
    { apply (apply_glt_read2 elev _ _ _ r c _ _ _ Hout Hc'); [lia | lia |].
      rewrite <- Hv. subst k. f_equal; lia. }
    pose proof (mask_fill_cell default_fill_value _ _ _ _ Hcell) as Hmf.
    simpl in Hmf. unfold set_where in Hmf. rewrite Hnofill in Hmf.
    exact (squeeze_latlon_cell _ _ _ _ _ _ _ Esq Hmf).
Qed.

Lemma ortho_xr_elev_shifted_witness :
  ∃ out,
    ortho_xr granule_identity default_GLT_NODATA_VALUE default_fill_value
    = inr out
    ∧ (∃ e, dict_get "elev" (coords out) = Some e ∧ all_nan_at e 0 1)
    ∧ (∃ e, dict_get "elev" (coords out) = Some (A2 e)
            ∧ cell2 e 1 1 = Some (of_Z 100)).
Proof.
  eexists. split; [vm_compute; reflexivity|].
  destruct (ortho_xr_elev_shifted granule_identity _
              [[(1, 1); (2, 1)]; [(1, 2); (2, 2)]] 0 1 2 1
              ltac:(vm_compute; reflexivity) ltac:(vm_compute; reflexivity)
              eq_refl ltac:(lia) ltac:(lia)) as (_ & Hnan & _).
  destruct (ortho_xr_elev_shifted granule_identity _
              [[(1, 1); (2, 1)]; [(1, 2); (2, 2)]] 1 1 2 2
              ltac:(vm_compute; reflexivity) ltac:(vm_compute; reflexivity)
              eq_refl ltac:(lia) ltac:(lia)) as (_ & _ & Hread).
  split.
  - apply Hnan. right. simpl. lia.
  - apply (Hread ltac:(simpl; lia) ltac:(simpl; lia)
             [[of_Z 100; of_Z 200]; [of_Z 300; of_Z 400]]);
      reflexivity.
Defined.

(** ** Coordinate vectors *)

Lemma mapM_total {A B} (f : A → option B) (g : A → B) (l : list A) :
  (∀ x, f x = Some (g x)) → mapM f l = Some (g <$> l).
Proof.
  intros H. apply mapM_Some_2.
  induction l as [|x l IH]; csimpl; constructor; auto.
Qed.

(** X8. With a six-element geotransform [coord_vects] returns one
    longitude per GLT column and one latitude per GLT row, at the pixel
    centres: entry [i] is the origin plus (i + 1/2) pixel sizes. *)
Theorem coord_vects_pixel_centres ds glt_x g0 g1 g2 g3 g4 g5 :
  ds_get2 ds "glt_x" = inr glt_x →
  geotransform ds = [g0; g1; g2; g3; g4; g5] →
  ∃ lon lat,
    coord_vects ds = inr (lon, lat)
    ∧ length lon = length (hd [] glt_x)
    ∧ length lat = length glt_x
    ∧ (∀ i q, lon !! i = Some q →
         (q == g0 + (inject_Z (Z.of_nat i) + (1 # 2)) * g1)%Q)
    ∧ (∀ i q, lat !! i = Some q →
         (q == g3 + (inject_Z (Z.of_nat i) + (1 # 2)) * g5)%Q).
Proof.
  intros Hglt HGT. unfold coord_vects. rewrite Hglt, HGT. cbn.
  rewrite (mapM_total _ (λ x : nat,
             (g0 + (1 # 2) * g1 + inject_Z (Z.of_nat x) * g1)%Q))
    by reflexivity.
  cbn.
  rewrite (mapM_total _ (λ y : nat,
             (g3 + (1 # 2) * g5 + inject_Z (Z.of_nat y) * g5)%Q))
    by reflexivity.
  cbn. eexists. eexists. split; [reflexivity|].
  rewrite !length_fmap, !length_seq. repeat split.
  - intros i q Hi. rewrite list_lookup_fmap in Hi.
    destruct (seq 0 (length (hd [] glt_x)) !! i) as [i'|] eqn:Hseq;
      [|discriminate].
    apply lookup_seq in Hseq as [-> _]. injection Hi as <-. simpl. ring.
  - intros i q Hi. rewrite list_lookup_fmap in Hi.
    destruct (seq 0 (length glt_x) !! i) as [i'|] eqn:Hseq; [|discriminate].
    apply lookup_seq in Hseq as [-> _]. injection Hi as <-. simpl. ring.
Qed.

Lemma coord_vects_pixel_centres_witness :
  ∃ lon lat,
    coord_vects granule_identity = inr (lon, lat)
    ∧ length lon = 2%nat
    ∧ length lat = 2%nat
    ∧ (∀ i q, lon !! i = Some q →
         (q == 0 + (inject_Z (Z.of_nat i) + (1 # 2)) * 1)%Q)
    ∧ (∀ i q, lat !! i = Some q →
         (q == 0 + (inject_Z (Z.of_nat i) + (1 # 2)) * -1)%Q).
Proof.
  apply (coord_vects_pixel_centres granule_identity
           [[of_Z 1; of_Z 2]; [of_Z 1; of_Z 2]] 0 1 0 0 0 (-1));
    reflexivity.
Defined.

(** X9. A geotransform with fewer than six elements makes [coord_vects]
    raise IndexError as soon as the GLT has a row and a column. *)
Theorem coord_vects_short_geotransform ds glt_x row :
  ds_get2 ds "glt_x" = inr (row :: glt_x) →
  row ≠ [] →
  (length (geotransform ds) < 6)%nat →
  coord_vects ds = inl IndexError.
Proof.
  intros Hglt Hrow Hlen. unfold coord_vects. rewrite Hglt. cbn.
  destruct row as [|v row]; [done|]. cbn.
  destruct (geotransform ds !! 0%nat) as [gt0|] eqn:H0; cbn; [|reflexivity].
  destruct (geotransform ds !! 1%nat) as [gt1|] eqn:H1; cbn; [|reflexivity].
  destruct (mapM _ (seq 1 (length row))) as [lon|]; cbn; [|reflexivity].
  destruct (geotransform ds !! 3%nat) as [gt3|] eqn:H3; cbn; [|reflexivity].
  destruct (geotransform ds !! 5%nat) as [gt5|] eqn:H5; cbn; [|reflexivity].
  apply lookup_lt_Some in H5. lia.
Qed.

Lemma coord_vects_short_geotransform_witness :
  coord_vects {| data_vars := [];
                 coords := [("glt_x", A2 [[of_Z 1]])];
                 geotransform := [0; 1; 0; 0]%Q;
                 Orthorectified := false |} = inl IndexError.
Proof.
  apply (coord_vects_short_geotransform _ [] [of_Z 1]);
    [reflexivity | discriminate | simpl; lia].
Defined.

(** ** The quality mask: clamping and index handling *)

Lemma fadd_of_Z (a b : Z) : fadd (of_Z a) (of_Z b) = of_Z (a + b).
Proof.
  unfold fadd, of_Z, inject_Z, Qplus. simpl.
  by rewrite !Z.mul_1_r.
Qed.

Lemma foldl_fadd_of_Z (ns : list Z) (a : Z) :
  foldl fadd (of_Z a) (of_Z <$> ns) = of_Z (a + foldr Z.add 0 ns).
Proof.
  revert a. induction ns as [|n ns IH]; intros a.
  - simpl. by rewrite Z.add_0_r.
  - change (foldl fadd (fadd (of_Z a) (of_Z n)) (of_Z <$> ns)
            = of_Z (a + (n + foldr Z.add 0 ns))).
    rewrite fadd_of_Z, IH. f_equal. lia.
Qed.

Lemma clamp_of_Z (n : Z) :
  0 ≤ n →
  set_where (of_Z 1) (λ x, fgtb x (of_Z 1)) (of_Z n) = of_Z (Z.min 1 n).
Proof.
  intros Hn. unfold set_where, fgtb, of_Z, inject_Z, Qle_bool. simpl.
  rewrite Z.mul_1_r. change (1 * 1) with 1.
  destruct (Z.leb_spec n 1); simpl; f_equal; f_equal; lia.
Qed.

(** X10. Where the selected flags of a pixel are non-negative integers,
    the mask returned by [quality_mask] holds 0 if they are all 0 and 1
    otherwise: their sum clamped to 1. *)
Theorem quality_mask_clamps file quality_bands qmask r c px ns :
  (quality_mask file quality_bands).2 = inr qmask →
  cell2 (mask file) r c = Some px →
  fancy_index px quality_bands = Some (of_Z <$> ns) →
  Forall (λ n, 0 ≤ n) ns →
  cell2 qmask r c = Some (of_Z (Z.min 1 (foldr Z.add 0 ns))).
Proof.
  unfold quality_mask. intros Hrun Hpx Hsel Hns.
  destruct (fancy_index (mask_bands file) quality_bands); [|discriminate].
  destruct (selects_data_band quality_bands); [discriminate|].
  simpl in Hrun. unfold build_qmask in Hrun.
  destruct (mapM _ (mask file)) as [sums|] eqn:Hm; simpl in Hrun;
    [|discriminate].
  injection Hrun as <-.
  destruct (mapM2_cell _ _ _ _ _ _ Hm Hpx) as (v & Hv & Hcell).
  rewrite Hsel in Hv. simpl in Hv. injection Hv as <-.
  rewrite cell2_map2d, Hcell. simpl. f_equal.
  rewrite (foldl_fadd_of_Z ns 0), Z.add_0_l.
  apply clamp_of_Z. clear -Hns.
  induction Hns as [|n ns Hn _ IH]; simpl; lia.
Qed.

Lemma quality_mask_clamps_witness :
  ∃ qmask,
    (quality_mask mask_file_2x2 [0; 4; 7]).2 = inr qmask
    ∧ cell2 qmask 0 1 = Some (of_Z (Z.min 1 (foldr Z.add 0 [1; 1; 1]))).
Proof.
  eexists. split; [reflexivity|].
  apply (quality_mask_clamps mask_file_2x2 [0; 4; 7] _ 0 1
           (of_Z <$> [1; 0; 0; 0; 1; 3; 2; 1]) [1; 1; 1]);
    [reflexivity | reflexivity | reflexivity | repeat constructor; lia].
Defined.

Lemma mapM_ext_Forall {A B} (f g : A → option B) (l : list A) :
  Forall (λ x, f x = g x) l → mapM f l = mapM g l.
Proof.
  induction 1 as [|x l Hx _ IH]; [reflexivity|].
  cbn. by rewrite Hx, IH.
Qed.

Lemma build_qmask_single_band file (i : Z) :
  mask_file_wf file →
  0 ≤ i < Z.of_nat (length (mask_bands file)) →
  ∃ qmask, build_qmask (mask file) [i] = inr qmask.
Proof.
  intros Hwf Hi. unfold build_qmask.
  destruct (mapM _ (mask file)) as [qm|] eqn:Hm; simpl; [eauto|].
  exfalso. apply mapM_None_1 in Hm. apply Exists_exists in Hm as (row & Hrow & Hm).
  apply mapM_None_1 in Hm. apply Exists_exists in Hm as (px & Hpx & Hm).
  unfold mask_file_wf in Hwf. rewrite Forall_forall in Hwf.
  specialize (Hwf row Hrow). rewrite Forall_forall in Hwf.
  specialize (Hwf px Hpx).
  destruct (fancy_index_is_Some px i) as [sel Hsel]; [lia|].
  rewrite Hsel in Hm. discriminate.
Qed.

(** X11. The check for the data bands looks at the numbers in the list,
    not at the bands they select: on an eight-band file the list [-3]
    selects band 5, is accepted, and returns the mask that band 5 alone
    gives, a mask that the list [5] is refused. *)
Theorem quality_mask_negative_index_accepted file :
  length (mask_bands file) = 8%nat →
  mask_file_wf file →
  (quality_mask file [5]).2 = inl AttributeError
  ∧ ∃ qmask,
      (quality_mask file [-3]).2 = inr qmask
      ∧ build_qmask (mask file) [5] = inr qmask
      ∧ (quality_mask file [-3]).1 = (quality_mask file [5]).1.
Proof.
  intros Hlen Hwf.
  assert (Hidx : ∀ {A} (v : list A), length v = 8%nat →
            fancy_index v [-3] = fancy_index v [5]).
  { intros A v Hv. unfold fancy_index. simpl. unfold np_index. rewrite Hv.
    reflexivity. }
  assert (Hq : build_qmask (mask file) [-3] = build_qmask (mask file) [5]).
  { unfold build_qmask. f_equal. f_equal.
    apply mapM_ext_Forall. eapply Forall_impl; [exact Hwf|].
    intros row Hrow. cbn beta. apply mapM_ext_Forall.
    eapply Forall_impl; [exact Hrow|]. intros px Hpx. cbn beta.
    rewrite (Hidx _ px) by congruence. reflexivity. }
  destruct (build_qmask_single_band file 5 Hwf ltac:(lia)) as [qmask Hqm].
  unfold quality_mask in *. rewrite (Hidx _ _ Hlen).
  destruct (fancy_index (mask_bands file) [5]) as [flags|] eqn:Hflags.
  - simpl. split; [reflexivity|]. exists qmask.
    rewrite Hq. auto.
  - exfalso. destruct (fancy_index_is_Some (mask_bands file) 5) as [? ?];
      [lia | congruence].
Qed.

Lemma quality_mask_negative_index_accepted_witness :
  (quality_mask mask_file_2x2 [5]).2 = inl AttributeError
  ∧ ∃ qmask,
      (quality_mask mask_file_2x2 [-3]).2 = inr qmask
      ∧ build_qmask (mask mask_file_2x2) [5] = inr qmask
      ∧ (quality_mask mask_file_2x2 [-3]).1 = (quality_mask mask_file_2x2 [5]).1.
Proof.
  apply (quality_mask_negative_index_accepted mask_file_2x2);
    [reflexivity | repeat constructor].
Defined.

Lemma np_index_out_of_range (n : nat) (i : Z) :
  Z.of_nat n ≤ i ∨ i < - Z.of_nat n → np_index n i = None.
Proof.
  intros Hi. unfold np_index.
  destruct (Z.leb_spec 0 i), (Z.ltb_spec i (Z.of_nat n)),
    (Z.leb_spec (- Z.of_nat n) i), (Z.ltb_spec i 0); simpl; try reflexivity; lia.
Qed.

Lemma fancy_index_out_of_range {A} (v : list A) (idx : list Z) (i : Z) :
  i ∈ idx →
  Z.of_nat (length v) ≤ i ∨ i < - Z.of_nat (length v) →
  fancy_index v idx = None.
Proof.
  intros Hin Hi. unfold fancy_index. apply mapM_None_2, Exists_exists.
  exists i. split; [exact Hin|]. by rewrite np_index_out_of_range.
Qed.

(** X12. An index outside [-n, n) for a file of [n] mask bands makes
    [quality_mask] raise IndexError at the lookup of the flag names,
    before anything is printed and before the check for the data bands:
    a list that also holds 5 or 6 still gives IndexError. *)
Theorem quality_mask_index_out_of_range file quality_bands i :
  i ∈ quality_bands →
  Z.of_nat (length (mask_bands file)) ≤ i
  ∨ i < - Z.of_nat (length (mask_bands file)) →
  quality_mask file quality_bands = ([], inl IndexError).
Proof.
  intros Hin Hi. unfold quality_mask.
  by rewrite (fancy_index_out_of_range _ _ i Hin Hi).
Qed.

Lemma quality_mask_index_out_of_range_witness :
  quality_mask mask_file_2x2 [5; 8] = ([], inl IndexError).
Proof.
  apply (quality_mask_index_out_of_range mask_file_2x2 [5; 8] 8);
    [repeat constructor | left; simpl; lia].
Defined.

(** ** The band mask *)

Lemma lookup_bind_chunks {A B} (f : A → list B) (n : nat) (l : list A) :
  (∀ x, length (f x) = n) →
  ∀ i j, (j < n)%nat →
  (l ≫= f) !! (i * n + j)%nat = l !! i ≫= λ x, f x !! j.
Proof.
  intros Hlen. induction l as [|x l IH]; intros i j Hj.
  - reflexivity.
  - rewrite bind_cons. destruct i as [|i]; simpl.
    + rewrite lookup_app_l by (rewrite Hlen; lia). reflexivity.
    + rewrite lookup_app_r by (rewrite Hlen; lia).
      rewrite Hlen. replace (n + i * n + j - n)%nat with (i * n + j)%nat by lia.
      by apply IH.
Qed.

Lemma length_bind_chunks {A B} (f : A → list B) (n : nat) (l : list A) :
  (∀ x, length (f x) = n) → length (l ≫= f) = (length l * n)%nat.
Proof.
  intros Hlen. induction l as [|x l IH]; [reflexivity|].
  rewrite bind_cons, length_app, Hlen, IH. simpl. lia.
Qed.

Lemma length_unpackbits (b : Z) : length (unpackbits b) = 8%nat.
Proof. reflexivity. Qed.

(** X13. Band [8 i + j] (below 285) of the unpacked band mask is bit
    [7 - j] of byte [i] of the packed pixel, read as an unsigned 8-bit
    value: the bytes are unpacked most significant bit first. *)
Theorem band_mask_bit bmask r c px (i j : nat) byte :
  cell2 bmask r c = Some px →
  px !! i = Some byte →
  (j < 8)%nat →
  (i * 8 + j < 285)%nat →
  cell3 (band_mask bmask) r c (i * 8 + j)
  = Some (if Z.testbit (byte mod 256) (7 - Z.of_nat j) then 1 else 0).
Proof.
  intros Hpx Hbyte Hj Hlt. unfold cell3, band_mask.
  rewrite cell2_map2d, Hpx. simpl.
  rewrite lookup_take_lt by exact Hlt.
  rewrite (lookup_bind_chunks unpackbits 8) by (exact length_unpackbits || exact Hj).
  rewrite list_lookup_fmap, Hbyte. simpl.
  unfold unpackbits. rewrite list_lookup_fmap, lookup_seq_lt by exact Hj.
  reflexivity.
Qed.

Lemma band_mask_bit_witness :
  cell3 (band_mask [[[160; 1]]]) 0 0 (1 * 8 + 7)
  = Some (if Z.testbit (1 mod 256) (7 - Z.of_nat 7) then 1 else 0).
Proof.
  apply (band_mask_bit [[[160; 1]]] 0 0 [160; 1] 1 7 1);
    [reflexivity | reflexivity | lia | lia].
Defined.

(** X14. Every pixel of the unpacked band mask has eight bands per
    packed byte, cut to at most 285 bands, and holds nothing but 0 and
    1; the spatial shape is that of the packed mask. *)
Theorem band_mask_shape bmask r c px :
  cell2 bmask r c = Some px →
  ∃ bits,
    cell2 (band_mask bmask) r c = Some bits
    ∧ length bits = Nat.min 285 (8 * length px)
    ∧ Forall (λ b, b = 0 ∨ b = 1) bits.
Proof.
  intros Hpx. unfold band_mask. rewrite cell2_map2d, Hpx.
  eexists. split; [reflexivity|]. split.
  - rewrite length_take, (length_bind_chunks unpackbits 8), length_fmap
      by exact length_unpackbits.
    lia.
  - apply Forall_take, Forall_bind, Forall_fmap, Forall_true.
    intros b. simpl. unfold unpackbits. apply Forall_fmap, Forall_true.
    intros k. simpl. destruct (Z.testbit _ _); auto.
Qed.

Lemma band_mask_shape_witness :
  ∃ bits,
    cell2 (band_mask [[replicate 36 255]]) 0 0 = Some bits
    ∧ length bits = Nat.min 285 (8 * length (replicate 36 255))
    ∧ Forall (λ b, b = 0 ∨ b = 1) bits.
Proof.
  apply (band_mask_shape [[replicate 36 255]] 0 0 (replicate 36 255)).
  reflexivity.
Defined.

(** ** Loading a granule: fill values and the band mask *)

Lemma dict_get_None {V} (c : string) (d : dict V) :
  c ∉ d.*1 → dict_get c d = None.
Proof.
  induction d as [|[k v] d IH]; csimpl; intros Hnin; [reflexivity|].
  destruct (String.eqb_spec c k) as [->|Hne].
  - exfalso. apply Hnin, list_elem_of_here.
  - apply IH. intros Hin. by apply Hnin, list_elem_of_further.
Qed.

(** The masking loop rewrites the variables it is given one by one and
    leaves the others alone. *)
Lemma mask_vars_spec var_list q bm :
  ∀ extra vars out,
  NoDup var_list →
  mask_vars var_list q extra bm vars = inr out →
  (∀ k, k ∉ var_list → dict_get k out = dict_get k vars)
  ∧ (∀ k, k ∈ var_list →
       ∃ a a', dict_get k vars = Some a
               ∧ match bm with
                 | Some m => apply_bmask m a
                 | None => inr a
                 end = inr a'
               ∧ dict_get k out = Some (fill_to_nan a')).
Proof.
  induction var_list as [|var rest IH]; simpl; intros extra vars out Hnd Hrun.
  - injection Hrun as <-. split; [done|].
    intros k Hk. by apply elem_of_nil in Hk.
  - apply NoDup_cons in Hnd as [Hvar Hnd].
    destruct (dict_get var vars) as [a|] eqn:Hget; simpl in Hrun;
      [|discriminate].
    destruct (match q with Some _ => _ | None => _ end) as [e|[]];
      simpl in Hrun; [discriminate|].
    destruct (match bm with Some m => apply_bmask m a | None => inr a end)
      as [e|a'] eqn:Hbm; simpl in Hrun; [discriminate|].
    destruct (IH _ _ _ Hnd Hrun) as [Hout Hin]. split.
    + intros k Hk. rewrite Hout by (intros ?; apply Hk; by right).
      rewrite dict_get_set.
      destruct (String.eqb_spec k var) as [->|Hne]; [|reflexivity].
      exfalso. apply Hk. by left.
    + intros k Hk. apply elem_of_cons in Hk as [->|Hk].
      * exists a, a'. repeat split; [exact Hget | exact Hbm |].
        rewrite (Hout var Hvar), dict_get_set.
        by rewrite String.eqb_refl.
      * destruct (Hin k Hk) as (b & b' & Hb & Hbm' & Hb').
        exists b, b'. repeat split; [|exact Hbm' | exact Hb'].
        rewrite dict_get_set in Hb.
        destruct (String.eqb_spec k var) as [->|Hne]; [done | exact Hb].
Qed.

(** X15. Without orthorectification and without a band mask, every data
    variable of the dataset [emit_xarray] returns is the variable of the
    file with each cell equal to -9999 replaced by NaN; no variable is
    added or lost, and a quality mask changes nothing. *)
Theorem emit_xarray_fill_values_to_nan file q chunk out :
  NoDup (data_vars file).*1 →
  emit_xarray file false q None chunk = inr out →
  ∀ var, dict_get var (data_vars out)
         = fill_to_nan <$> dict_get var (data_vars file).
Proof.
  unfold emit_xarray. rewrite andb_false_r. intros Hnd Hrun var.
  destruct (mask_vars _ _ _ _ _) as [e|vars] eqn:Hvars; simpl in Hrun;
    [discriminate|].
  injection Hrun as <-. simpl.
  destruct (mask_vars_spec _ _ _ _ _ _ Hnd Hvars) as [Hout Hin].
  destruct (decide (var ∈ (data_vars file).*1)) as [Hel|Hnel].
  - destruct (Hin var Hel) as (a & a' & Ha & [= <-] & Ha').
    by rewrite Ha, Ha'.
  - by rewrite (Hout var Hnel), (dict_get_None _ _ Hnel).
Qed.

Lemma emit_xarray_fill_values_to_nan_witness :
  ∃ out,
    emit_xarray cube_file false (Some flagged_top_left) None None = inr out
    ∧ dict_get "reflectance" (data_vars out)
      = fill_to_nan <$> dict_get "reflectance" (data_vars cube_file).
Proof.
  eexists. split; [reflexivity|].
  apply (emit_xarray_fill_values_to_nan cube_file (Some flagged_top_left) None);
    [apply NoDup_singleton | reflexivity].
Defined.

Lemma emit_xarray_mask_vars file ortho q bm chunk out :
  emit_xarray file ortho q bm chunk = inr out →
  ∃ vars,
    mask_vars (data_vars file).*1 q 0 bm (data_vars file) = inr vars
    ∧ (ortho = false → data_vars out = vars).
Proof.
  unfold emit_xarray. destruct (_ && _); [discriminate|].
  destruct (mask_vars _ _ _ _ _) as [e|vars]; simpl; [discriminate|].
  intros Hrun. exists vars. split; [reflexivity|].
  intros ->. by injection Hrun as <-.
Qed.

Lemma apply_bmask_inv bm a a' :
  apply_bmask bm a = inr a' →
  ∃ d, a = A3 d
       ∧ fmap (M := list) length <$> bm = fmap (M := list) length <$> d
       ∧ a' = A3 (zip_with (zip_with (zip_with
                    (λ (m : Z) x, if m =? 1 then NaN else x))) bm d).
Proof.
  unfold apply_bmask. destruct a as [d|d|d]; try discriminate.
  case_bool_decide as Hshape; [|discriminate].
  intros [= <-]. eauto.
Qed.

Lemma cell3_zip_with {A B C} (f : A → B → C) (a : array3 A) (b : array3 B)
    r c k x y :
  cell3 a r c k = Some x → cell3 b r c k = Some y →
  cell3 (zip_with (zip_with (zip_with f)) a b) r c k = Some (f x y).
Proof.
  unfold cell3, cell2. intros Ha Hb. rewrite lookup_zip_with.
  destruct (a !! r) as [ra|]; [|discriminate].
  destruct (b !! r) as [rb|]; [|discriminate]. simpl in *.
  rewrite lookup_zip_with.
  destruct (ra !! c) as [pa|]; [|discriminate].
  destruct (rb !! c) as [pb|]; [|discriminate]. simpl in *.
  rewrite lookup_zip_with, Ha, Hb. reflexivity.
Qed.

(** X16. With a band mask [emit_xarray] returns only if every data
    variable of the file is three-dimensional and has, pixel by pixel,
    the shape of the mask; a two-dimensional variable or a mask of
    another shape makes the call raise. *)
Theorem emit_xarray_band_mask_shape file ortho q bm chunk out var a :
  NoDup (data_vars file).*1 →
  emit_xarray file ortho q (Some bm) chunk = inr out →
  dict_get var (data_vars file) = Some a →
  ∃ d, a = A3 d
       ∧ fmap (M := list) length <$> bm = fmap (M := list) length <$> d.
Proof.
  intros Hnd Hrun Hget.
  destruct (emit_xarray_mask_vars _ _ _ _ _ _ Hrun) as (vars & Hvars & _).
  destruct (mask_vars_spec _ _ _ _ _ _ Hnd Hvars) as [_ Hin].
  destruct (Hin var) as (a0 & a' & Ha0 & Hbm & _).
  { apply dict_get_Some_elem_of in Hget.
    apply list_elem_of_fmap. by exists (var, a). }
  rewrite Hget in Ha0. injection Ha0 as <-.
  destruct (apply_bmask_inv _ _ _ Hbm) as (d & -> & Hshape & _). eauto.
Qed.

Lemma emit_xarray_band_mask_shape_witness :
  ∃ d, A3 [[[Fin (1 # 2); Fin (1 # 4)]; [of_Z (-9999); Fin (1 # 3)]];
           [[Fin (3 # 10); Fin (2 # 5)]; [Fin (1 # 5); Fin (1 # 10)]]] = A3 d
       ∧ fmap (M := list) length <$> [[[0; 1]; [0; 0]]; [[0; 0]; [1; 0]]]
         = fmap (M := list) length <$> d.
Proof.
  destruct (emit_xarray cube_file false None
              (Some [[[0; 1]; [0; 0]]; [[0; 0]; [1; 0]]]) None)
    as [e|out] eqn:Hrun; [vm_compute in Hrun; discriminate|].
  apply (emit_xarray_band_mask_shape cube_file false None
           [[[0; 1]; [0; 0]]; [[0; 0]; [1; 0]]] None
           out "reflectance"); [apply NoDup_singleton | exact Hrun | reflexivity].
Defined.

(** X17. In a variable loaded with a band mask, a cell is NaN where the
    mask holds 1 or the file holds -9999, and is the file's value
    everywhere else. *)
Theorem emit_xarray_band_mask_cells file q bm chunk out var d r c b x m :
  NoDup (data_vars file).*1 →
  emit_xarray file false q (Some bm) chunk = inr out →
  dict_get var (data_vars file) = Some (A3 d) →
  cell3 d r c b = Some x →
  cell3 bm r c b = Some m →
  ∃ d', dict_get var (data_vars out) = Some (A3 d')
        ∧ cell3 d' r c b
          = Some (if (m =? 1) || feqb x (of_Z (-9999)) then NaN else x).
Proof.
  intros Hnd Hrun Hget Hx Hm.
  destruct (emit_xarray_mask_vars _ _ _ _ _ _ Hrun) as (vars & Hvars & Hout).
  rewrite (Hout eq_refl).
  destruct (mask_vars_spec _ _ _ _ _ _ Hnd Hvars) as [_ Hin].
  destruct (Hin var) as (a0 & a' & Ha0 & Hbm & Hres).
  { apply dict_get_Some_elem_of in Hget.
    apply list_elem_of_fmap. by exists (var, A3 d). }
  rewrite Hget in Ha0. injection Ha0 as <-.
  destruct (apply_bmask_inv _ _ _ Hbm) as (d0 & [= <-] & _ & ->).
  rewrite Hres. simpl. eexists. split; [reflexivity|].
  pose proof (cell3_zip_with (λ (m : Z) x, if m =? 1 then NaN else x)
                bm d r c b m x Hm Hx) as Hz.
  unfold cell3 in *. unfold map3d. rewrite cell2_map2d.
  destruct (cell2 (zip_with _ bm d) r c) as [px|]; [|discriminate].
  simpl in *. rewrite list_lookup_fmap, Hz. simpl.
  unfold set_where. destruct (m =? 1); simpl; [reflexivity|].
  by destruct (feqb x (of_Z (-9999))).
Qed.

Lemma emit_xarray_band_mask_cells_witness :
  ∃ out d',
    emit_xarray cube_file false None
      (Some [[[0; 1]; [0; 0]]; [[0; 0]; [1; 0]]]) None = inr out
    ∧ dict_get "reflectance" (data_vars out) = Some (A3 d')
    ∧ cell3 d' 0 0 1 = Some NaN
    ∧ cell3 d' 0 1 0 = Some NaN
    ∧ cell3 d' 0 1 1 = Some (Fin (1 # 3)).
Proof.
  destruct (emit_xarray cube_file false None
              (Some [[[0; 1]; [0; 0]]; [[0; 0]; [1; 0]]]) None)
    as [e|out] eqn:Hrun; [vm_compute in Hrun; discriminate|].
  exists out.
  destruct (emit_xarray_band_mask_cells cube_file None _ None out
              "reflectance" _ 0 0 1 (Fin (1 # 4)) 1
              ltac:(apply NoDup_singleton) Hrun eq_refl eq_refl eq_refl)
    as (d' & Hd' & H1).
  destruct (emit_xarray_band_mask_cells cube_file None _ None out
              "reflectance" _ 0 1 0 (of_Z (-9999)) 0
              ltac:(apply NoDup_singleton) Hrun eq_refl eq_refl eq_refl)
    as (d2 & Hd2 & H2).
  destruct (emit_xarray_band_mask_cells cube_file None _ None out
              "reflectance" _ 0 1 1 (Fin (1 # 3)) 0
              ltac:(apply NoDup_singleton) Hrun eq_refl eq_refl eq_refl)
    as (d3 & Hd3 & H3).
  exists d'. rewrite Hd' in Hd2, Hd3.
  injection Hd2 as <-. injection Hd3 as <-. auto.
Defined.

(** ** Spatial crop: geotransform, window and later remapping *)

Lemma raw_spatial_crop_inv ds clip out :
  raw_spatial_crop ds clip = inr out →
  ∃ glt_x glt_y clipped crosstrack downtrack xlo xhi ylo yhi,
    ds_get2 ds "glt_x" = inr glt_x
    ∧ ds_get2 ds "glt_y" = inr glt_y
    ∧ clip glt_x glt_y = inr clipped
    ∧ ds_get1 ds "crosstrack" = inr crosstrack
    ∧ ds_get1 ds "downtrack" = inr downtrack
    ∧ nanmin (clipped_glt_x clipped) = inr xlo
    ∧ nanmax (clipped_glt_x clipped) = inr xhi
    ∧ nanmin (clipped_glt_y clipped) = inr ylo
    ∧ nanmax (clipped_glt_y clipped) = inr yhi
    ∧ data_vars out
      = prod_map id (crop_array (track_mask downtrack ylo yhi)
                                (track_mask crosstrack xlo xhi))
          <$> data_vars ds
    ∧ (∃ gx gy,
         reindex_glt (clipped_glt_x clipped) = inr gx
         ∧ reindex_glt (clipped_glt_y clipped) = inr gy
         ∧ dict_get "glt_x" (coords out) = Some (A2 gx)
         ∧ dict_get "glt_y" (coords out) = Some (A2 gy))
    ∧ ∃ gt0 gt1 gt3 gt5,
        clipped_GeoTransform clipped !! 0%nat = Some gt0
        ∧ clipped_GeoTransform clipped !! 1%nat = Some gt1
        ∧ clipped_GeoTransform clipped !! 3%nat = Some gt3
        ∧ clipped_GeoTransform clipped !! 5%nat = Some gt5
        ∧ geotransform out
          = <[3%nat := (gt3 + gt5 / 2)%Q]>
              (<[0%nat := (gt0 + gt1 / 2)%Q]> (clipped_GeoTransform clipped)).
Proof.
  unfold raw_spatial_crop. intros Hrun.
  destruct (coord_vects ds) as [e|ll]; simpl in Hrun; [discriminate|].
  destruct (ds_get2 ds "glt_x") as [e|glt_x]; simpl in Hrun; [discriminate|].
  destruct (ds_get2 ds "glt_y") as [e|glt_y]; simpl in Hrun; [discriminate|].
  destruct (clip glt_x glt_y) as [e|clipped] eqn:Hclip; simpl in Hrun;
    [discriminate|].
  destruct (clipped_GeoTransform clipped !! 0%nat) as [gt0|] eqn:H0;
    simpl in Hrun; [|discriminate].
  destruct (clipped_GeoTransform clipped !! 1%nat) as [gt1|] eqn:H1;
    simpl in Hrun; [|discriminate].
  destruct (clipped_GeoTransform clipped !! 3%nat) as [gt3|] eqn:H3;
    simpl in Hrun; [|discriminate].
  destruct (clipped_GeoTransform clipped !! 5%nat) as [gt5|] eqn:H5;
    simpl in Hrun; [|discriminate].
  destruct (ds_get1 ds "crosstrack") as [e|crosstrack]; simpl in Hrun;
    [discriminate|].
  destruct (ds_get1 ds "downtrack") as [e|downtrack]; simpl in Hrun;
    [discriminate|].
  destruct (nanmin (clipped_glt_x clipped)) as [e|xlo] eqn:Hxlo;
    simpl in Hrun; [discriminate|].
  destruct (nanmax (clipped_glt_x clipped)) as [e|xhi] eqn:Hxhi;
    simpl in Hrun; [discriminate|].
  destruct (nanmin (clipped_glt_y clipped)) as [e|ylo] eqn:Hylo;
    simpl in Hrun; [discriminate|].
  destruct (nanmax (clipped_glt_y clipped)) as [e|yhi] eqn:Hyhi;
    simpl in Hrun; [discriminate|].
  destruct (dict_del_all _ _) as [e|coords']; simpl in Hrun; [discriminate|].
  destruct (reindex_glt (clipped_glt_x clipped)) as [e|gx] eqn:Hgx;
    simpl in Hrun; [discriminate|].
  destruct (reindex_glt (clipped_glt_y clipped)) as [e|gy] eqn:Hgy;
    simpl in Hrun; [discriminate|].
  destruct (head _) as [first|]; simpl in Hrun; [|discriminate].
  destruct (match first.2 with A1 _ => _ | A2 d => _ | A3 d => _ end)
    as [e|cols]; simpl in Hrun; [discriminate|].
  injection Hrun as <-. simpl.
  exists glt_x, glt_y, clipped, crosstrack, downtrack, xlo, xhi, ylo, yhi.
  do 10 (split; [first [reflexivity | assumption]|]).
  split.
  - exists gx, gy. rewrite !dict_get_set. simpl. auto.
  - exists gt0, gt1, gt3, gt5. repeat split; assumption.
Qed.

Lemma Qle_bool_inject_Z (a b : Z) : Qle_bool (inject_Z a) (inject_Z b) = (a <=? b).
Proof.
  unfold Qle_bool, inject_Z. cbn [Qnum Qden].
  destruct (Z.leb_spec (a * 1) (b * 1)), (Z.leb_spec a b); [done | lia | lia | done].
Qed.

Lemma Qle_bool_pred (lo i : Z) :
  Qle_bool (inject_Z lo - inject_Z 1) (inject_Z i) = (lo - 1 <=? i).
Proof.
  unfold Qle_bool, inject_Z, Qminus, Qplus, Qopp. cbn [Qnum Qden].
  match goal with |- (?a <=? ?b) = _ => destruct (Z.leb_spec a b) end;
    destruct (Z.leb_spec (lo - 1) i); try done; lia.
Qed.

Lemma track_test (lo hi : Z) (i : nat) :
  fleb (fsub (of_Z lo) (of_Z 1)) (of_Z (Z.of_nat i))
  && fleb (of_Z (Z.of_nat i)) (of_Z hi)
  = bool_decide (Z.to_nat (lo - 1) ≤ i < Z.to_nat (hi + 1))%nat.
Proof.
  unfold fleb, fsub, of_Z. rewrite Qle_bool_pred, Qle_bool_inject_Z.
  destruct (Z.leb_spec (lo - 1) (Z.of_nat i)), (Z.leb_spec (Z.of_nat i) hi);
    simpl; symmetry;
    (apply bool_decide_eq_true_2 || apply bool_decide_eq_false_2); lia.
Qed.

Lemma keep_window {A} (lo hi : Z) (l : list A) :
  ∀ s,
  keep (track_mask ((λ i : nat, of_Z (Z.of_nat i)) <$> seq s (length l))
          (of_Z lo) (of_Z hi)) l
  = take (Z.to_nat (hi + 1) - Nat.max (Z.to_nat (lo - 1)) s)
         (drop (Z.to_nat (lo - 1) - s) l).
Proof.
  unfold keep, track_mask.
  induction l as [|x l IH]; intros s.
  - simpl. by rewrite drop_nil, take_nil.
  - cbn [length seq fmap list_fmap zip zip_with]. rewrite bind_cons.
    rewrite track_test. cbn [fst snd]. rewrite (IH (S s)).
    case_bool_decide as Hin.
    + replace (Z.to_nat (lo - 1) - s)%nat with 0%nat by lia.
      replace (Z.to_nat (lo - 1) - S s)%nat with 0%nat by lia.
      rewrite !drop_0.
      replace (Z.to_nat (hi + 1) - Nat.max (Z.to_nat (lo - 1)) s)%nat
        with (S (Z.to_nat (hi + 1) - Nat.max (Z.to_nat (lo - 1)) (S s)))%nat
        by lia.
      reflexivity.
    + destruct (decide (s < Z.to_nat (lo - 1))%nat) as [Hlt|Hge].
      * replace (Z.to_nat (lo - 1) - s)%nat
          with (S (Z.to_nat (lo - 1) - S s))%nat by lia.
        simpl. f_equal. lia.
      * replace (Z.to_nat (hi + 1) - Nat.max (Z.to_nat (lo - 1)) s)%nat
          with 0%nat by lia.
        replace (Z.to_nat (hi + 1) - Nat.max (Z.to_nat (lo - 1)) (S s))%nat
          with 0%nat by lia.
        reflexivity.
Qed.

(** X18. The geotransform of the cropped dataset is the one recorded
    with the clipped GLT, moved by half a pixel: the x origin by half
    the pixel width, the y origin by half the pixel height; the other
    four entries are unchanged. *)
Theorem raw_spatial_crop_geotransform ds clip out glt_x glt_y clipped
    g0 g1 g2 g3 g4 g5 :
  ds_get2 ds "glt_x" = inr glt_x →
  ds_get2 ds "glt_y" = inr glt_y →
  clip glt_x glt_y = inr clipped →
  clipped_GeoTransform clipped = [g0; g1; g2; g3; g4; g5] →
  raw_spatial_crop ds clip = inr out →
  geotransform out = [(g0 + g1 / 2)%Q; g1; g2; (g3 + g5 / 2)%Q; g4; g5].
Proof.
  intros Hx Hy Hclip HGT Hrun.
  destruct (raw_spatial_crop_inv _ _ _ Hrun)
    as (gx & gy & cl & ct & dt & xlo & xhi & ylo & yhi
        & Hx' & Hy' & Hclip' & _ & _ & _ & _ & _ & _ & _ & _
        & gt0 & gt1 & gt3 & gt5 & H0 & H1 & H3 & H5 & Hgt).
  rewrite Hx in Hx'. injection Hx' as <-.
  rewrite Hy in Hy'. injection Hy' as <-.
  rewrite Hclip in Hclip'. injection Hclip' as <-.
  rewrite HGT in *. simpl in *.
  injection H0 as <-. injection H1 as <-. injection H3 as <-.
  injection H5 as <-. exact Hgt.
Qed.

Lemma raw_spatial_crop_geotransform_witness :
  ∃ out,
    raw_spatial_crop granule_identity clip_right_column = inr out
    ∧ geotransform out = [(0 + 1 / 2)%Q; 1%Q; 0%Q; (0 + -1 / 2)%Q; 0%Q; (-1)%Q].
Proof.
  destruct (raw_spatial_crop granule_identity clip_right_column)
    as [e|out] eqn:Hrun; [vm_compute in Hrun; discriminate|].
  exists out. split; [reflexivity|].
  apply (raw_spatial_crop_geotransform granule_identity clip_right_column
           out _ _ _ 0 1 0 0 0 (-1) eq_refl eq_refl eq_refl eq_refl Hrun).
Defined.

Lemma crop_array_window (d : array3 float) nc xlo xhi ylo yhi :
  1 ≤ xlo → 1 ≤ ylo →
  Forall (λ row, length row = nc) d →
  crop_array (track_mask (arange (length d)) (of_Z ylo) (of_Z yhi))
             (track_mask (arange nc) (of_Z xlo) (of_Z xhi)) (A3 d)
  = A3 ((λ row, take (Z.to_nat (xhi - xlo + 2))
                  (drop (Z.to_nat (xlo - 1)) row))
        <$> take (Z.to_nat (yhi - ylo + 2)) (drop (Z.to_nat (ylo - 1)) d)).
Proof.
  intros Hx1 Hy1 Hrect. simpl. f_equal.
  unfold arange. rewrite keep_window.
  replace (Z.to_nat (yhi + 1) - Nat.max (Z.to_nat (ylo - 1)) 0)%nat
    with (Z.to_nat (yhi - ylo + 2)) by lia.
  rewrite Nat.sub_0_r.
  apply Forall_fmap_ext_1.
  apply Forall_take, Forall_drop.
  eapply Forall_impl; [exact Hrect|]. intros row Hrow. simpl.
  rewrite <- Hrow, keep_window, Nat.sub_0_r. f_equal. lia.
Qed.

(** X19. With the sensor coordinates numbering rows and columns from 0,
    and [xlo], [xhi], [ylo], [yhi] the smallest and largest entries of the
    clipped GLT bands (1-based), a cropped data variable keeps the sensor
    rows [ylo - 1 .. yhi] and columns [xlo - 1 .. xhi] (0-based): the rows
    and columns the clipped GLT points at, and one more at the far end. *)
Theorem raw_spatial_crop_window ds clip out glt_x glt_y clipped var
    (d : array3 float) nc xlo xhi ylo yhi :
  ds_get2 ds "glt_x" = inr glt_x →
  ds_get2 ds "glt_y" = inr glt_y →
  clip glt_x glt_y = inr clipped →
  nanmin (clipped_glt_x clipped) = inr (of_Z xlo) →
  nanmax (clipped_glt_x clipped) = inr (of_Z xhi) →
  nanmin (clipped_glt_y clipped) = inr (of_Z ylo) →
  nanmax (clipped_glt_y clipped) = inr (of_Z yhi) →
  1 ≤ xlo → 1 ≤ ylo →
  ds_get1 ds "crosstrack" = inr (arange nc) →
  ds_get1 ds "downtrack" = inr (arange (length d)) →
  dict_get var (data_vars ds) = Some (A3 d) →
  Forall (λ row, length row = nc) d →
  raw_spatial_crop ds clip = inr out →
  dict_get var (data_vars out)
  = Some (A3 ((λ row, take (Z.to_nat (xhi - xlo + 2))
                        (drop (Z.to_nat (xlo - 1)) row))
              <$> take (Z.to_nat (yhi - ylo + 2))
                    (drop (Z.to_nat (ylo - 1)) d))).
Proof.
  intros Hx Hy Hclip Hxlo Hxhi Hylo Hyhi Hx1 Hy1 Hct Hdt Hvar Hrect Hrun.
  destruct (raw_spatial_crop_inv _ _ _ Hrun)
    as (gx & gy & cl & ct & dt & xlo' & xhi' & ylo' & yhi'
        & Hx' & Hy' & Hclip' & Hct' & Hdt' & Hxlo' & Hxhi' & Hylo' & Hyhi'
        & Hvars & _).
  rewrite Hx in Hx'. injection Hx' as <-.
  rewrite Hy in Hy'. injection Hy' as <-.
  rewrite Hclip in Hclip'. injection Hclip' as <-.
  rewrite Hct in Hct'. injection Hct' as <-.
  rewrite Hdt in Hdt'. injection Hdt' as <-.
  rewrite Hxlo in Hxlo'. injection Hxlo' as <-.
  rewrite Hxhi in Hxhi'. injection Hxhi' as <-.
  rewrite Hylo in Hylo'. injection Hylo' as <-.
  rewrite Hyhi in Hyhi'. injection Hyhi' as <-.
  rewrite Hvars, dict_get_fmap, Hvar. cbn [fmap option_fmap option_map].
  f_equal. by apply crop_array_window.
Qed.

Lemma raw_spatial_crop_window_witness :
  ∃ out,
    raw_spatial_crop granule_identity clip_right_column = inr out
    ∧ dict_get "reflectance" (data_vars out)
      = Some (A3 [[[of_Z 20; of_Z 21]]; [[of_Z 40; of_Z 41]]]).
Proof.
  destruct (raw_spatial_crop granule_identity clip_right_column)
    as [e|out] eqn:Hrun; [vm_compute in Hrun; discriminate|].
  exists out. split; [reflexivity|].
  apply (raw_spatial_crop_window granule_identity clip_right_column out
           _ _ _ "reflectance"
           [[[of_Z 10; of_Z 11]; [of_Z 20; of_Z 21]];
            [[of_Z 30; of_Z 31]; [of_Z 40; of_Z 41]]] 2 2 2 1 2
           eq_refl eq_refl eq_refl eq_refl eq_refl eq_refl eq_refl
           ltac:(lia) ltac:(lia) eq_refl eq_refl eq_refl
           ltac:(repeat constructor) Hrun).
Defined.






(** ** Orthorectification: the data variables, one after the other *)

(** A variable the loop does not visit keeps the entry it had. *)
Lemma ortho_vars_other ds fill_value var_list var :
  ∀ glt acc glt' vars,
  ortho_vars ds 0 fill_value var_list glt acc = inr (glt', vars) →
  var ∉ var_list →
  dict_get var vars = dict_get var acc.
Proof.
  induction var_list as [|v rest IH]; cbn; intros glt acc glt' vars Hrun Hnin.
  - by injection Hrun as <- <-.
  - destruct (ds_get ds v) as [e|raw_ds]; cbn in Hrun; [discriminate|].
    destruct (apply_glt raw_ds glt default_fill_value 0) as [g' r0].
    destruct r0 as [out_ds|]; cbn in Hrun; [|discriminate].
    assert (Hv : var ≠ v) by (intros ->; apply Hnin; by left).
    assert (Hrest : var ∉ rest) by (intros ?; apply Hnin; by right).
    assert (Hnext : ∀ entry,
      ortho_vars ds 0 fill_value rest g' (dict_set v entry acc)
      = inr (glt', vars) → dict_get var vars = dict_get var acc).
    { intros entry Hr. rewrite (IH _ _ _ _ Hr Hrest), dict_get_set.
      by destruct (String.eqb_spec var v). }
    case_bool_decide.
    + destruct (squeeze_latlon _ _ _) as [e|sq]; cbn in Hrun; [discriminate|].
      exact (Hnext _ Hrun).
    + cbn in Hrun. exact (Hnext _ Hrun).
Qed.

(** The variable at position [i] of the loop is remapped with the GLT as
    [i] calls of [apply_glt] have left it. *)
Lemma ortho_vars_entry ds fill_value var_list :
  ∀ glt acc glt' vars i var d,
  ortho_vars ds 0 fill_value var_list glt acc = inr (glt', vars) →
  NoDup var_list →
  var_list !! i = Some var →
  ds_get ds var = inr (A3 d) →
  ∃ o, (apply_glt (A3 d) (glt_after i glt) default_fill_value 0).2 = Some o
       ∧ dict_get var vars = Some (A3 (mask_fill fill_value o)).
Proof.
  induction var_list as [|v rest IH]; cbn;
    intros glt acc glt' vars i var d Hrun Hnd Hi Hget; [discriminate|].
  apply NoDup_cons in Hnd as [Hv Hnd].
  destruct (ds_get ds v) as [e|raw_ds] eqn:Hraw; cbn in Hrun; [discriminate|].
  destruct (apply_glt raw_ds glt default_fill_value 0) as [g' r0] eqn:E.
  assert (Hg' : g' = glt_after 1 glt).
  { pose proof (apply_glt_glt raw_ds glt default_fill_value 0) as H.
    rewrite E in H. exact H. }
  destruct r0 as [out_ds|]; cbn in Hrun; [|discriminate].
  destruct i as [|i]; cbn in Hi.
  - injection Hi as ->. rewrite Hget in Hraw. injection Hraw as <-.
    cbn in Hrun. exists out_ds. split.
    + change (glt_after 0 glt) with glt. by rewrite E.
    + rewrite (ortho_vars_other _ _ _ _ _ _ _ _ Hrun Hv), dict_get_set.
      by rewrite String.eqb_refl.
  - assert (Hnext : ∀ entry,
      ortho_vars ds 0 fill_value rest g' (dict_set v entry acc)
      = inr (glt', vars) →
      ∃ o, (apply_glt (A3 d) (glt_after (S i) glt) default_fill_value 0).2
           = Some o
           ∧ dict_get var vars = Some (A3 (mask_fill fill_value o))).
    { intros entry Hr.
      destruct (IH _ _ _ _ i var d Hr Hnd Hi Hget) as (o & Ho & Hvar).
      exists o. split; [|exact Hvar].
      rewrite <- Ho, Hg'. unfold glt_after. simpl.
      by rewrite <- Nat.iter_succ_r. }
    case_bool_decide.
    + destruct (squeeze_latlon _ _ _) as [e|sq]; cbn in Hrun; [discriminate|].
      exact (Hnext _ Hrun).
    + cbn in Hrun. exact (Hnext _ Hrun).
Qed.

Lemma ortho_xr_inv ds nodata fill_value out :
  ortho_xr ds nodata fill_value = inr out →
  ∃ glt glt' vars,
    build_glt ds nodata = inr glt
    ∧ ortho_vars ds nodata fill_value (remapped_vars ds) glt []
      = inr (glt', vars)
    ∧ remapped_vars ds ≠ []
    ∧ data_vars out = vars.
Proof.
  unfold ortho_xr. fold (remapped_vars ds). intros Hrun.
  destruct (build_glt ds nodata) as [e|glt]; cbn in Hrun; [discriminate|].
  destruct (ortho_vars _ _ _ _ _ _) as [e|[glt' vars]] eqn:Evars;
    cbn in Hrun; [discriminate|].
  destruct (coord_vects ds) as [e|ll]; cbn in Hrun; [discriminate|].
  destruct (ds_get ds "elev") as [e|elev0]; cbn in Hrun; [discriminate|].
  destruct (apply_glt elev0 glt' default_fill_value default_GLT_NODATA_VALUE)
    as [g'' r0].
  destruct r0 as [elev_ds|]; cbn in Hrun; [|discriminate].
  destruct (dict_del_all _ _) as [e|coords']; cbn in Hrun; [discriminate|].
  destruct (squeeze_latlon _ _ _) as [e|elev_sq]; cbn in Hrun; [discriminate|].
  case_bool_decide as Hne; cbn in Hrun; [discriminate|].
  injection Hrun as <-. exists glt, glt', vars. auto.
Qed.

(** X21. The data variable at position [i] (from 0) among those
    [ortho_xr] remaps is remapped with the GLT decremented [i] times
    over: at a cell with entry (x, y), x, y > i, it holds the sensor pixel
    at row y - 1 - i, column x - 1 - i, fill values turned into NaN. Only
    the first variable is placed where the GLT says. *)
Theorem ortho_xr_variable_shifted ds fill_value out glt (i : nat) var d
    r c x y px :
  NoDup (data_vars ds).*1 →
  ortho_xr ds 0 fill_value = inr out →
  build_glt ds 0 = inr glt →
  remapped_vars ds !! i = Some var →
  ds_get ds var = inr (A3 d) →
  cell2 glt r c = Some (x, y) →
  Z.of_nat i < x → Z.of_nat i < y →
  cell2 d (Z.to_nat (y - 1 - Z.of_nat i)) (Z.to_nat (x - 1 - Z.of_nat i))
  = Some px →
  ∃ o, dict_get var (data_vars out) = Some (A3 o)
       ∧ cell2 o r c
         = Some (set_where NaN (λ v, feqb v fill_value) <$> px).
Proof.
  intros Hnd Hrun Hglt Hi Hget Hc Hx Hy Hpx.
  destruct (ortho_xr_inv _ _ _ _ Hrun)
    as (glt0 & glt' & vars & Hglt0 & Hvars & _ & ->).
  rewrite Hglt in Hglt0. injection Hglt0 as <-.
  destruct (ortho_vars_entry _ _ _ _ _ _ _ i var d Hvars
              (NoDup_filter _ _ Hnd) Hi Hget) as (o & Ho & Hvar).
  exists (mask_fill fill_value o). split; [exact Hvar|].
  apply mask_fill_cell.
  pose proof (glt_after_large glt r c x y i Hc Hx Hy) as Hc'.
  apply (apply_glt_read3 d _ _ _ r c _ _ _ Ho Hc'); [lia | lia |].
  rewrite <- Hpx. f_equal; lia.
Qed.

Lemma ortho_xr_variable_shifted_witness :
  let ds :=
    {| data_vars :=
         [("radiance", A3 [[[of_Z 1]; [of_Z 2]]; [[of_Z 3]; [of_Z 4]]]);
          ("reflectance", A3 [[[of_Z 10]; [of_Z 20]]; [[of_Z 30]; [of_Z 40]]])];
       coords := coords granule_identity;
       geotransform := geotransform granule_identity;
       Orthorectified := false |} in
  ∃ out o,
    ortho_xr ds 0 default_fill_value = inr out
    ∧ dict_get "reflectance" (data_vars out) = Some (A3 o)
    ∧ cell2 o 1 1 = Some [of_Z 10].
Proof.
  intros ds.
  destruct (ortho_xr ds 0 default_fill_value) as [e|out] eqn:Hrun;
    [vm_compute in Hrun; discriminate|].
  destruct (ortho_xr_variable_shifted ds default_fill_value out
              [[(1, 1); (2, 1)]; [(1, 2); (2, 2)]] 1 "reflectance"
              [[[of_Z 10]; [of_Z 20]]; [[of_Z 30]; [of_Z 40]]]
              1 1 2 2 [of_Z 10]) as (o & Hvar & Hcell);
    [ apply (bool_decide_unpack _); vm_compute; reflexivity
    | exact Hrun | vm_compute; reflexivity | reflexivity | reflexivity
    | reflexivity | lia | lia | reflexivity |].
  exists out, o. auto.
Defined.

(** X22. [ortho_xr] returns only for a dataset with at least one data
    variable other than [flat_field_update], and that variable is in
    the result; with nothing to remap the function raises at the latest
    when it deletes the output of the last remapping. *)
Theorem ortho_xr_needs_a_variable ds nodata fill_value out :
  ortho_xr ds nodata fill_value = inr out →
  ∃ var, var ∈ (data_vars ds).*1 ∧ var ≠ "flat_field_update"
         ∧ is_Some (dict_get var (data_vars out)).
Proof.
  intros Hrun.
  destruct (ortho_xr_inv _ _ _ _ Hrun)
    as (glt & glt' & vars & _ & Hvars & Hne & ->).
  destruct (remapped_vars ds) as [|var rest] eqn:Hf; [done|].
  exists var.
  assert (Hin : var ∈ remapped_vars ds) by (rewrite Hf; by left).
  apply list_elem_of_filter in Hin as [? ?]. repeat split; [done | done |].
  apply (ortho_vars_keys _ _ _ _ _ _ _ _ _ Hvars). left. by left.
Qed.

Lemma ortho_xr_needs_a_variable_witness :
  ∃ var, var ∈ (data_vars granule_identity).*1 ∧ var ≠ "flat_field_update"
         ∧ ∃ out, ortho_xr granule_identity 0 default_fill_value = inr out
                  ∧ is_Some (dict_get var (data_vars out)).
Proof.
  destruct (ortho_xr granule_identity 0 default_fill_value) as [e|out] eqn:Hrun;
    [vm_compute in Hrun; discriminate|].
  destruct (ortho_xr_needs_a_variable granule_identity 0 default_fill_value out
              Hrun) as (var & Hin & Hne & Hsome).
  exists var. repeat split; [exact Hin | exact Hne |]. exists out. auto.
Defined.

(** ** Orthorectification: shape of the grid and coordinates *)

Lemma map2d_shape {A B} (f : A → B) (a : array2 A) :
  length (map2d f a) = length a
  ∧ length (hd [] (map2d f a)) = length (hd [] a).
Proof.
  unfold map2d. rewrite length_fmap. split; [reflexivity|].
  destruct a; [reflexivity|]. simpl. by rewrite length_fmap.
Qed.

(** The loop over the variables leaves the GLT array with its shape. *)
Lemma ortho_vars_glt_shape ds nodata fill_value var_list :
  ∀ glt acc glt' vars,
  ortho_vars ds nodata fill_value var_list glt acc = inr (glt', vars) →
  length glt' = length glt ∧ length (hd [] glt') = length (hd [] glt).
Proof.
  induction var_list as [|v rest IH]; cbn; intros glt acc glt' vars Hrun.
  - by injection Hrun as <- <-.
  - destruct (ds_get ds v) as [e|raw_ds]; cbn in Hrun; [discriminate|].
    destruct (apply_glt raw_ds glt default_fill_value nodata) as [g' r0] eqn:E.
    assert (Hg' : g' = map2d (adjust_one_based nodata) glt).
    { pose proof (apply_glt_glt raw_ds glt default_fill_value nodata) as H.
      rewrite E in H. exact H. }
    destruct r0 as [out_ds|]; cbn in Hrun; [|discriminate].
    assert (Hnext : ∀ entry,
      ortho_vars ds nodata fill_value rest g' (dict_set v entry acc)
      = inr (glt', vars) →
      length glt' = length glt ∧ length (hd [] glt') = length (hd [] glt)).
    { intros entry Hr. destruct (IH _ _ _ _ Hr) as [H1 H2].
      rewrite H1, H2, Hg'. apply map2d_shape. }
    case_bool_decide.
    + destruct (squeeze_latlon _ _ _) as [e|sq]; cbn in Hrun; [discriminate|].
      exact (Hnext _ Hrun).
    + cbn in Hrun. exact (Hnext _ Hrun).
Qed.

Lemma ortho_xr_coords_inv ds nodata fill_value out :
  ortho_xr ds nodata fill_value = inr out →
  ∃ glt ll coords' elev_sq,
    build_glt ds nodata = inr glt
    ∧ coord_vects ds = inr ll
    ∧ (length glt ≠ 1 ∧ length (hd [] glt) ≠ 1)%nat
    ∧ dict_del_all (sensor_coords ++ ["elev"])
        (foldl (λ acc kv, dict_set kv.1 kv.2 acc)
           [("latitude", A1 (Fin <$> ll.2)); ("longitude", A1 (Fin <$> ll.1))]
           (coords ds))
      = inr coords'
    ∧ coords out = dict_set "elev" (A2 elev_sq) coords'.
Proof.
  unfold ortho_xr. intros Hrun.
  destruct (build_glt ds nodata) as [e|glt]; cbn in Hrun; [discriminate|].
  destruct (ortho_vars _ _ _ _ _ _) as [e|[glt' vars]] eqn:Evars;
    cbn in Hrun; [discriminate|].
  destruct (ortho_vars_glt_shape _ _ _ _ _ _ _ _ Evars) as [Hrows Hcols].
  destruct (coord_vects ds) as [e|ll]; cbn in Hrun; [discriminate|].
  destruct (ds_get ds "elev") as [e|elev0]; cbn in Hrun; [discriminate|].
  destruct (apply_glt elev0 glt' default_fill_value default_GLT_NODATA_VALUE)
    as [g'' r0].
  destruct r0 as [elev_ds|]; cbn in Hrun; [|discriminate].
  destruct (dict_del_all _ _) as [e|coords'] eqn:Hdel; cbn in Hrun;
    [discriminate|].
  destruct (squeeze_latlon _ _ _) as [e|elev_sq] eqn:Hsq; cbn in Hrun;
    [discriminate|].
  case_bool_decide as Hne; cbn in Hrun; [discriminate|].
  injection Hrun as <-. exists glt, ll, coords', elev_sq.
  repeat split; try reflexivity.
  - unfold squeeze_latlon in Hsq. case_bool_decide as Hsh; [|discriminate].
    rewrite <- Hrows. tauto.
  - unfold squeeze_latlon in Hsq. case_bool_decide as Hsh; [|discriminate].
    rewrite <- Hcols. tauto.
  - exact Hdel.
Qed.

(** X23. [ortho_xr] returns only for a GLT with neither a single row nor
    a single column: squeezing the remapped elevation would otherwise
    drop a spatial axis, and the dataset cannot be built. *)
Theorem ortho_xr_rejects_thin_grid ds nodata fill_value out glt :
  ortho_xr ds nodata fill_value = inr out →
  build_glt ds nodata = inr glt →
  length glt ≠ 1%nat ∧ length (hd [] glt) ≠ 1%nat.
Proof.
  intros Hrun Hglt.
  destruct (ortho_xr_coords_inv _ _ _ _ Hrun)
    as (glt0 & ll & coords' & elev_sq & Hglt0 & _ & Hshape & _).
  rewrite Hglt in Hglt0. by injection Hglt0 as <-.
Qed.

Lemma ortho_xr_rejects_thin_grid_witness :
  length [[(1, 1); (2, 1)]; [(1, 2); (2, 2)]] ≠ 1%nat
  ∧ length (hd [] [[(1, 1); (2, 1)]; [(1, 2); (2, 2)]]) ≠ 1%nat.
Proof.
  destruct (ortho_xr granule_identity 0 default_fill_value) as [e|out] eqn:Hrun;
    [vm_compute in Hrun; discriminate|].
  apply (ortho_xr_rejects_thin_grid granule_identity 0 default_fill_value out
           [[(1, 1); (2, 1)]; [(1, 2); (2, 2)]] Hrun).
  vm_compute. reflexivity.
Defined.

(** Keys of a dict after an assignment and after a deletion. *)
Lemma elem_of_dict_set_keys {V} (k k' : string) (v : V) (d : dict V) :
  k' ∈ (dict_set k v d).*1 ↔ k' = k ∨ k' ∈ d.*1.
Proof.
  induction d as [|[k0 v0] d IH]; csimpl.
  - rewrite list_elem_of_singleton, elem_of_nil. tauto.
  - destruct (String.eqb_spec k k0) as [->|Hne]; csimpl.
    + rewrite !elem_of_cons. tauto.
    + rewrite !elem_of_cons, IH. tauto.
Qed.

Lemma NoDup_dict_set {V} (k : string) (v : V) (d : dict V) :
  NoDup d.*1 → NoDup (dict_set k v d).*1.
Proof.
  induction d as [|[k0 v0] d IH]; csimpl; intros Hnd.
  - apply NoDup_singleton.
  - apply NoDup_cons in Hnd as [Hk0 Hnd].
    destruct (String.eqb_spec k k0) as [->|Hne]; csimpl.
    + by apply NoDup_cons.
    + apply NoDup_cons. split; [|by apply IH].
      rewrite elem_of_dict_set_keys. intros [?|?]; [congruence | done].
Qed.

Lemma foldl_dict_set_spec {V} (d : dict V) :
  ∀ init : dict V,
  NoDup d.*1 → NoDup init.*1 →
  let r := foldl (λ acc kv, dict_set kv.1 kv.2 acc) init d in
  NoDup r.*1
  ∧ (∀ k, k ∈ r.*1 ↔ k ∈ init.*1 ∨ k ∈ d.*1)
  ∧ (∀ k, dict_get k r
          = match dict_get k d with
            | Some v => Some v
            | None => dict_get k init
            end).
Proof.
  induction d as [|[k0 v0] d IH]; intros init Hd Hinit; cbn zeta.
  - simpl. split; [exact Hinit|]. split.
    + intros k. rewrite elem_of_nil. tauto.
    + reflexivity.
  - csimpl in Hd. apply NoDup_cons in Hd as [Hk0 Hd]. cbn [foldl fst snd].
    destruct (IH (dict_set k0 v0 init) Hd (NoDup_dict_set _ _ _ Hinit))
      as (Hnd & Hkeys & Hget).
    cbn zeta in Hnd, Hkeys, Hget. split; [|split].
    + exact Hnd.
    + intros k. csimpl. rewrite Hkeys, elem_of_dict_set_keys, elem_of_cons.
      tauto.
    + intros k. rewrite Hget, dict_get_set. simpl.
      destruct (String.eqb_spec k k0) as [->|Hne].
      * by rewrite (dict_get_None _ _ Hk0).
      * reflexivity.
Qed.

Lemma dict_del_spec {V} (k : string) (d d' : dict V) :
  dict_del k d = inr d' →
  k ∈ d.*1
  ∧ (∀ k', k' ≠ k → dict_get k' d' = dict_get k' d)
  ∧ (∀ k', k' ∈ d'.*1 → k' ∈ d.*1)
  ∧ (NoDup (d.*1) → (k ∉ d'.*1) ∧ NoDup (d'.*1)).
Proof.
  revert d'. induction d as [|[k0 v0] d IH]; simpl; intros d' Hdel;
    [discriminate|].
  destruct (String.eqb_spec k k0) as [->|Hne].
  - injection Hdel as <-. csimpl. split; [|split; [|split]].
    + by left.
    + intros k' Hk'. by destruct (String.eqb_spec k' k0).
    + intros k' Hk'. by right.
    + intros H. by apply NoDup_cons in H as [? ?].
  - destruct (dict_del k d) as [e|r] eqn:Hr; simpl in Hdel; [discriminate|].
    injection Hdel as <-.
    destruct (IH r eq_refl) as (Hin & Hget & Hsub & Hnd). csimpl.
    split; [|split; [|split]].
    + by right.
    + intros k' Hk'. simpl. destruct (String.eqb k' k0); [reflexivity|].
      by apply Hget.
    + intros k' Hk'. apply elem_of_cons in Hk' as [->|Hk']; [by left|].
      right. by apply Hsub.
    + intros H. apply NoDup_cons in H as [Hk0 H].
      destruct (Hnd H) as [Hk Hnd']. split.
      * intros Hk'. apply elem_of_cons in Hk' as [?|?]; [congruence | done].
      * apply NoDup_cons. split; [|exact Hnd'].
        intros Hk'. by apply Hk0, Hsub.
Qed.

Lemma dict_del_all_spec {V} (keys : list string) :
  ∀ d d' : dict V,
  dict_del_all keys d = inr d' →
  NoDup d.*1 →
  (∀ k, k ∈ keys → k ∈ d.*1 ∧ dict_get k d' = None)
  ∧ (∀ k, k ∉ keys → dict_get k d' = dict_get k d).
Proof.
  unfold dict_del_all.
  induction keys as [|k keys IH]; intros d d' Hdel Hnd.
  - injection Hdel as <-. split; [|done].
    intros k Hk. by apply elem_of_nil in Hk.
  - cbn in Hdel. fold (@dict_del_all V) in Hdel.
    destruct (dict_del k d) as [e|d1] eqn:Hd1; cbn in Hdel; [discriminate|].
    destruct (dict_del_spec _ _ _ Hd1) as (Hin & Hget & Hsub & Hnd1).
    destruct (Hnd1 Hnd) as [Hk Hnd'].
    destruct (IH _ _ Hdel Hnd') as [Hdeleted Hkept].
    split.
    + intros k' Hk'. apply elem_of_cons in Hk' as [->|Hk'].
      * split; [exact Hin|].
        destruct (decide (k ∈ keys)) as [Hkk|Hkk].
        -- by apply Hdeleted.
        -- rewrite (Hkept k Hkk). by apply dict_get_None.
      * destruct (Hdeleted k' Hk') as [Hin' Hnone].
        split; [by apply Hsub | exact Hnone].
    + intros k' Hk'.
      rewrite Hkept by (intros ?; apply Hk'; by right).
      apply Hget. intros ->. apply Hk'. by left.
Qed.

(** X24. The dataset returned by [ortho_xr] carries the pixel-centre
    vectors of [coord_vects] as [latitude] and [longitude] and a
    two-dimensional [elev]; the six coordinates of sensor geometry, which
    the input has to have, are gone; every other coordinate but
    [spatial_ref], which [rio.write_crs] writes at the end, is carried
    over as it was. *)
Theorem ortho_xr_coordinates ds nodata fill_value out lon lat :
  NoDup (coords ds).*1 →
  "latitude" ∉ (coords ds).*1 →
  "longitude" ∉ (coords ds).*1 →
  ortho_xr ds nodata fill_value = inr out →
  coord_vects ds = inr (lon, lat) →
  dict_get "latitude" (coords out) = Some (A1 (Fin <$> lat))
  ∧ dict_get "longitude" (coords out) = Some (A1 (Fin <$> lon))
  ∧ (∃ e, dict_get "elev" (coords out) = Some (A2 e))
  ∧ (∀ k, k ∈ sensor_coords →
       k ∈ (coords ds).*1 ∧ dict_get k (coords out) = None)
  ∧ (∀ k, k ∉ sensor_coords
               ++ ["elev"; "latitude"; "longitude"; "spatial_ref"] →
       dict_get k (coords out) = dict_get k (coords ds)).
Proof.
  intros Hnd Hlat Hlon Hrun Hll.
  destruct (ortho_xr_coords_inv _ _ _ _ Hrun)
    as (glt & ll & coords' & elev_sq & _ & Hll' & _ & Hdel & Hcoords).
  rewrite Hll in Hll'. injection Hll' as <-. cbn [fst snd] in Hdel.
  destruct (foldl_dict_set_spec (coords ds)
              [("latitude", A1 (Fin <$> lat)); ("longitude", A1 (Fin <$> lon))]
              Hnd) as (Hnd0 & Hkeys0 & Hget0).
  { csimpl. apply NoDup_cons. split; [|apply NoDup_singleton].
    rewrite list_elem_of_singleton. discriminate. }
  cbn zeta in Hnd0, Hkeys0, Hget0.
  destruct (dict_del_all_spec _ _ _ Hdel Hnd0) as [Hdeleted Hkept].
  rewrite Hcoords.
  assert (Hother : ∀ k, k ∉ sensor_coords ++ ["elev"] →
            dict_get k (dict_set "elev" (A2 elev_sq) coords')
            = match dict_get k (coords ds) with
              | Some v => Some v
              | None => dict_get k [("latitude", A1 (Fin <$> lat));
                                    ("longitude", A1 (Fin <$> lon))]
              end).
  { intros k Hk. rewrite dict_get_set.
    destruct (String.eqb_spec k "elev") as [->|Hne].
    - exfalso. apply Hk. apply elem_of_app. right. by left.
    - by rewrite Hkept, Hget0. }
  assert (Hsens : ∀ k, k ∈ sensor_coords → k ≠ "elev" ∧ k ≠ "latitude"
                                            ∧ k ≠ "longitude").
  { intros k Hk. unfold sensor_coords in Hk.
    repeat (apply elem_of_cons in Hk as [->|Hk]; [by repeat split|]).
    by apply elem_of_nil in Hk. }
  assert (Hnot : ∀ k, (k = "latitude" ∨ k = "longitude") →
                      k ∉ sensor_coords ++ ["elev"]).
  { intros k Hk Hin. apply elem_of_app in Hin as [Hin|Hin].
    - destruct (Hsens k Hin) as (_ & ? & ?). tauto.
    - apply list_elem_of_singleton in Hin. destruct Hk; congruence. }
  split; [|split; [|split; [|split]]].
  - rewrite Hother by (apply Hnot; by left).
    by rewrite (dict_get_None _ _ Hlat).
  - rewrite Hother by (apply Hnot; by right).
    by rewrite (dict_get_None _ _ Hlon).
  - exists elev_sq. by rewrite dict_get_set.
  - intros k Hk. destruct (Hsens k Hk) as (He & Hla & Hlo).
    destruct (Hdeleted k) as [Hin Hnone]; [apply elem_of_app; by left|].
    split.
    + apply Hkeys0 in Hin as [Hin|Hin]; [|exact Hin].
      csimpl in Hin. exfalso.
      apply elem_of_cons in Hin as [?|Hin]; [done|].
      apply list_elem_of_singleton in Hin. done.
    + rewrite dict_get_set.
      by destruct (String.eqb_spec k "elev").
  - intros k Hk.
    rewrite Hother.
    + destruct (dict_get k (coords ds)); [reflexivity|]. simpl.
      destruct (String.eqb_spec k "latitude") as [->|?].
      { exfalso. apply Hk. apply elem_of_app. right. right. by left. }
      destruct (String.eqb_spec k "longitude") as [->|?]; [|reflexivity].
      exfalso. apply Hk. apply elem_of_app. right. right. right. by left.
    + intros Hin. apply Hk. apply elem_of_app in Hin as [Hin|Hin].
      * apply elem_of_app. by left.
      * apply elem_of_app. right. apply list_elem_of_singleton in Hin as ->.
        by left.
Qed.

Lemma ortho_xr_coordinates_witness :
  ∃ out,
    ortho_xr granule_identity 0 default_fill_value = inr out
    ∧ dict_get "latitude" (coords out)
      = Some (A1 (Fin <$> [(0 + (1 # 2) * -1 + inject_Z 0 * -1)%Q;
                           (0 + (1 # 2) * -1 + inject_Z 1 * -1)%Q]))
    ∧ dict_get "glt_x" (coords out) = None.
Proof.
  destruct (ortho_xr granule_identity 0 default_fill_value) as [e|out] eqn:Hrun;
    [vm_compute in Hrun; discriminate|].
  exists out. split; [reflexivity|].
  destruct (ortho_xr_coordinates granule_identity 0 default_fill_value out
              [(0 + (1 # 2) * 1 + inject_Z 0 * 1)%Q;
               (0 + (1 # 2) * 1 + inject_Z 1 * 1)%Q]
              [(0 + (1 # 2) * -1 + inject_Z 0 * -1)%Q;
               (0 + (1 # 2) * -1 + inject_Z 1 * -1)%Q])
    as (Hlat & _ & _ & Hsens & _).
  - apply (bool_decide_unpack _). vm_compute. reflexivity.
  - apply (bool_decide_unpack _). vm_compute. reflexivity.
  - apply (bool_decide_unpack _). vm_compute. reflexivity.
  - exact Hrun.
  - reflexivity.
  - split; [exact Hlat|]. apply Hsens. unfold sensor_coords.
    do 4 right. by left.
Defined.

(* ===================================================================== *)
(** * Further properties of unmix_image.py *)
(* ===================================================================== *)

Lemma unflatten_concat {A} (ys : nat) (a : list (list A)) :
  Forall (λ row, length row = ys) a →
  unflatten (length a) ys (concat a) = a.
Proof.
  induction 1 as [|row a Hrow _ IH]; simpl; [reflexivity|].
  rewrite take_app_length', drop_app_length' by (symmetry; exact Hrow).
  by rewrite IH.
Qed.

Lemma fmap_concat {A B} (f : A → B) (a : list (list A)) :
  f <$> concat a = concat (fmap (M := list) f <$> a).
Proof.
  induction a as [|row a IH]; csimpl; [reflexivity|].
  by rewrite fmap_app, IH.
Qed.

Lemma length_concat_rect {A} (ys : nat) (a : list (list A)) :
  Forall (λ row, length row = ys) a →
  length (concat a) = (length a * ys)%nat.
Proof.
  induction 1 as [|row a Hrow _ IH]; simpl; [reflexivity|].
  rewrite length_app, IH, Hrow. reflexivity.
Qed.

(** X25. For a model that predicts pixel by pixel, [pred_chunk] returns
    an array of the spatial shape of its input whose pixel (r, c) is the
    prediction for pixel (r, c), clipped to [0, 100]; the model sees the
    pixel without its last band and with NaN replaced by 0. Flattening
    and un-flattening cancel out. *)
Theorem pred_chunk_pointwise (arr : array3 float)
    (f : list float → list float) :
  rectangular arr →
  pred_chunk arr (fmap f)
  = inr (map2d (λ px, clip_0_100 <$> f (nan_to_num (of_Z 0) <$> removelast px))
           arr).
Proof.
  intros Hrect. unfold pred_chunk.
  set (g := λ px : list float,
         clip_0_100 <$> f (nan_to_num (of_Z 0) <$> removelast px)).
  set (arr1 := fmap (M := list) (@removelast float) <$> arr).
  assert (Hpred :
    fmap (M := list) clip_0_100
      <$> (f <$> (fmap (M := list) (nan_to_num (of_Z 0)) <$> concat arr1))
    = concat (map2d g arr)).
  { subst arr1. rewrite <- !list_fmap_compose, !fmap_concat.
    unfold map2d. rewrite <- list_fmap_compose. f_equal.
    apply list_fmap_ext. intros _ row _. simpl.
    rewrite <- !list_fmap_compose. reflexivity. }
  rewrite Hpred.
  assert (Hlen1 : length arr1 = length arr) by (subst arr1; by rewrite length_fmap).
  assert (Hys : length (hd [] arr1) = length (hd [] arr)).
  { subst arr1. destruct arr; [reflexivity|]. simpl. by rewrite length_fmap. }
  assert (Hrect' : Forall (λ row, length row = length (hd [] arr)) (map2d g arr)).
  { unfold map2d. apply Forall_fmap. eapply Forall_impl; [exact Hrect|].
    intros row Hrow. simpl. by rewrite length_fmap. }
  rewrite Hlen1, Hys.
  rewrite bool_decide_eq_true_2.
  - f_equal. replace (length arr) with (length (map2d g arr))
      by (unfold map2d; by rewrite length_fmap).
    by apply unflatten_concat.
  - rewrite (length_concat_rect _ _ Hrect'). unfold map2d.
    by rewrite length_fmap.
Qed.

Lemma pred_chunk_pointwise_witness :
  pred_chunk cube_3x3 linear_model
  = inr [[[of_Z 0; of_Z 1]; [of_Z 0; of_Z 2]; [of_Z 0; of_Z 3]];
         [[of_Z 20; of_Z 4]; [of_Z 50; of_Z 5]; [of_Z 0; of_Z 0]];
         [[of_Z 100; of_Z 7]; [of_Z 100; of_Z 8]; [of_Z 100; of_Z 9]]].
Proof.
  etransitivity;
    [apply (pred_chunk_pointwise cube_3x3
              (λ ft, match ft with
                     | [Fin q] => [Fin (q * 30 - 100); Fin q]
                     | _ => [of_Z 0; of_Z 0]
                     end)); repeat constructor|].
  vm_compute. reflexivity.
Defined.

(** What [final_encoding] puts at a cell of the band of class [k]. *)
Lemma final_encoding_cell classes reflectance out r c k v :
  final_encoding classes reflectance = inr out →
  cell3 reflectance r c k = Some v →
  ∃ name band,
    classes !! k = Some name
    ∧ out !! k = Some (name, band)
    ∧ cell2 band r c = Some (encode_cell v).
Proof.
  unfold final_encoding. case_bool_decide as Hshape; [|discriminate].
  destruct (mapM _ _) as [o|] eqn:Hm; simpl; [|discriminate].
  intros [= <-] Hcell.
  unfold cell3 in Hcell.
  destruct (cell2 reflectance r c) as [px|] eqn:Hpx; simpl in Hcell;
    [|discriminate].
  assert (Hlen : length px = length classes).
  { apply cell2_Some in Hpx as (row & Hr & Hc).
    rewrite Forall_forall in Hshape.
    assert (Hrow : row ∈ reflectance) by (apply list_elem_of_lookup; eauto).
    apply Hshape in Hrow. rewrite Forall_forall in Hrow.
    apply Hrow, list_elem_of_lookup. eauto. }
  destruct (lookup_lt_is_Some_2 classes k) as [name Hname].
  { rewrite <- Hlen. by apply lookup_lt_Some with v. }
  apply mapM_Some_1 in Hm.
  assert (Hk : imap pair classes !! k = Some (k, name)).
  { rewrite list_lookup_imap, Hname. reflexivity. }
  destruct (Forall2_lookup_l _ _ _ _ _ Hm Hk) as ([name' band] & Hout & Hband).
  simpl in Hband.
  destruct (mapM _ reflectance) as [b|] eqn:Hb; simpl in Hband; [|discriminate].
  injection Hband as <- <-.
  destruct (mapM2_cell _ _ _ _ _ _ Hb Hpx) as (v' & Hv & Hbc).
  rewrite Hcell in Hv. injection Hv as <-.
  exists name, (map2d encode_cell b).
  repeat split; [exact Hname | exact Hout |].
  by rewrite cell2_map2d, Hbc.
Qed.

(** X27. A finite cell whose integer part lies in [-128, 127] is written
    to the band of its class as that integer part (truncation toward
    zero): percentages 0..100 pass unchanged, fractions are cut. *)
Theorem final_encoding_keeps_small_integers classes reflectance out r c k q :
  final_encoding classes reflectance = inr out →
  cell3 reflectance r c k = Some (Fin q) →
  -128 ≤ trunc q ≤ 127 →
  ∃ name band,
    classes !! k = Some name
    ∧ out !! k = Some (name, band)
    ∧ cell2 band r c = Some (trunc q).
Proof.
  intros Hrun Hcell Hrange.
  destruct (final_encoding_cell _ _ _ _ _ _ _ Hrun Hcell)
    as (name & band & Hname & Hout & Hband).
  exists name, band. repeat split; [exact Hname | exact Hout |].
  rewrite Hband. f_equal. unfold encode_cell, fillna_255. simpl.
  unfold wrap_int8.
  rewrite Z.mod_small by lia. lia.
Qed.

Lemma final_encoding_keeps_small_integers_witness :
  ∃ out name band,
    final_encoding ["soil"; "water"]
      [[[of_Z 100; of_Z 0]; [Fin (75 # 2); Fin (125 # 2)]]] = inr out
    ∧ out !! 0%nat = Some (name, band)
    ∧ cell2 band 0 1 = Some 37.
Proof.
  eexists.
  destruct (final_encoding_keeps_small_integers ["soil"; "water"]
              [[[of_Z 100; of_Z 0]; [Fin (75 # 2); Fin (125 # 2)]]]
              _ 0 1 0 (75 # 2) eq_refl eq_refl ltac:(vm_compute; split; discriminate))
    as (name & band & _ & Hout & Hband).
  exists name, band. split; [reflexivity|]. split; [exact Hout | exact Hband].
Defined.

(** X28. The encoded dataset has one variable per class name, in the
    order of the class list, each of the spatial shape of the raster. *)
Theorem final_encoding_one_variable_per_class classes reflectance out :
  final_encoding classes reflectance = inr out →
  out.*1 = classes
  ∧ Forall (λ band : list (list Z), length <$> band = length <$> reflectance)
      out.*2.
Proof.
  unfold final_encoding. case_bool_decide as Hshape; [|discriminate].
  destruct (mapM _ _) as [o|] eqn:Hm; simpl; [|discriminate].
  intros [= <-]. apply mapM_Some_1 in Hm.
  assert (Hgen : ∀ (l : list (nat * string)) o',
    Forall2 (λ (kc : nat * string) (y : string * list (list Z)),
      (mapM (mapM (λ px : list float, px !! kc.1)) reflectance
       ≫= λ band, Some (kc.2, map2d encode_cell band)) = Some y) l o' →
    o'.*1 = l.*2
    ∧ Forall (λ band : list (list Z),
                length <$> band = length <$> reflectance) o'.*2).
  { induction 1 as [|kc y l o' Hy _ [IH1 IH2]]; csimpl; [by split|].
    destruct (mapM _ reflectance) as [b|] eqn:Hb; simpl in Hy; [|discriminate].
    injection Hy as <-. simpl. split; [by rewrite IH1|].
    constructor; [|exact IH2].
    transitivity (length <$> b); [|by apply (mapM2_shape _ _ _ Hb)].
    unfold map2d. rewrite <- list_fmap_compose. apply list_fmap_ext.
    intros i x _. simpl. by rewrite length_fmap. }
  destruct (Hgen _ _ Hm) as [H1 H2]. split; [|exact H2].
  rewrite H1. clear. 
  assert (∀ (j : nat), (imap (λ i, pair (j + i)%nat) classes).*2 = classes) as H.
  { induction classes as [|x l IH]; intros j; csimpl; [reflexivity|].
    f_equal. rewrite <- (IH (S j)) at 2. f_equal.
    apply imap_ext. intros i y _. simpl. f_equal. lia. }
  exact (H 0%nat).
Qed.

Lemma final_encoding_one_variable_per_class_witness :
  ∃ out,
    final_encoding ["soil"; "water"]
      [[[of_Z 100; of_Z 0]; [Fin (75 # 2); Fin (125 # 2)]]] = inr out
    ∧ out.*1 = ["soil"; "water"].
Proof.
  eexists. split; [reflexivity|].
  apply (final_encoding_one_variable_per_class ["soil"; "water"]
           [[[of_Z 100; of_Z 0]; [Fin (75 # 2); Fin (125 # 2)]]]).
  reflexivity.
Defined.

(* ===================================================================== *)
(** * Further properties of utils/synthmix.py *)
(* ===================================================================== *)

Lemma sequence_Forall2 {A} (l : list (result A)) (out : list A) :
  sequence l = inr out → Forall2 (λ m a, m = inr a) l out.
Proof.
  revert out. induction l as [|m l IH]; simpl; intros out Hrun.
  - injection Hrun as <-. constructor.
  - destruct m as [e|a]; simpl in Hrun; [discriminate|].
    destruct (sequence l) as [e|r]; simpl in Hrun; [discriminate|].
    injection Hrun as <-. constructor; [reflexivity | by apply IH].
Qed.

(** X29. [mix_fast] returns only when at least one record is asked for,
    and then returns [nsamp] records, record [i] being the one built
    from draw [i]; with [nsamp = 0] it raises. *)
Theorem mix_fast_one_record_per_draw (df : list sample) nsamp rng out :
  mix_fast df nsamp rng = inr out →
  (0 < nsamp)%nat
  ∧ length out = nsamp
  ∧ ∀ i rec, out !! i = Some rec → mix_one df (rng i) = inr rec.
Proof.
  unfold mix_fast. intros Hrun.
  destruct (sequence _) as [e|recs] eqn:Hseq; simpl in Hrun; [discriminate|].
  assert (out = recs ∧ recs ≠ []) as [-> Hne]
    by (destruct recs; [discriminate | split; congruence]).
  apply sequence_Forall2 in Hseq.
  pose proof (Forall2_length _ _ _ Hseq) as Hlen.
  rewrite length_fmap, length_seq in Hlen.
  split; [|split].
  - destruct recs; [done | simpl in Hlen; lia].
  - by symmetry.
  - intros i rec Hi.
    destruct (Forall2_lookup_r _ _ _ _ _ Hseq Hi) as (m & Hm & ->).
    rewrite list_lookup_fmap in Hm.
    destruct (seq 0 nsamp !! i) as [i'|] eqn:Hs; [|discriminate].
    apply lookup_seq in Hs as [-> _]. by injection Hm.
Qed.

Lemma mix_fast_one_record_per_draw_witness :
  ∃ out,
    mix_fast library 3 fixed_draw = inr out
    ∧ (0 < 3)%nat
    ∧ length out = 3%nat.
Proof.
  eexists. split; [vm_compute; reflexivity|].
  destruct (mix_fast_one_record_per_draw library 3 fixed_draw _
              ltac:(vm_compute; reflexivity)) as (H0 & Hlen & _).
  split; [exact H0 | exact Hlen].
Defined.

Section Convexity.
Local Open Scope Q_scope.

Lemma weighted_column_bounds (lo hi : Q) (j : nat) :
  ∀ (rows : list (list float)) (ws : list Q),
  length rows = length ws →
  Forall (λ w, 0 <= w) ws →
  Forall (λ r : list float, ∃ q, r !! j = Some (Fin q) ∧ lo <= q ∧ q <= hi) rows →
  let scaled := zip_with (λ (r : list float) (w : Q),
                  (λ x, match x with
                        | NaN => None
                        | Fin q => Some (w * q)
                        end) <$> r) rows ws in
  let s := Qsum ((λ r : list (option Q), default 0 (mjoin (r !! j))) <$> scaled) in
  lo * Qsum ws <= s ∧ s <= hi * Qsum ws.
Proof.
  induction rows as [|r rows IH]; intros [|w ws] Hlen Hws Hrows;
    try discriminate.
  - simpl. split; lra.
  - inversion Hws as [|? ? Hw Hws']; subst.
    inversion Hrows as [|? ? (q & Hq & Hlo & Hhi) Hrows']; subst.
    destruct (IH ws ltac:(by injection Hlen) Hws' Hrows') as [IHlo IHhi].
    cbn zeta in *.
    set (sw := Qsum ws) in *.
    set (rest := Qsum _) in IHlo, IHhi.
    change (lo * (w + sw)
            <= default 0 (mjoin (((λ x, match x with
                                        | NaN => None
                                        | Fin q => Some (w * q)
                                        end) <$> r) !! j)) + rest
            ∧ default 0 (mjoin (((λ x, match x with
                                        | NaN => None
                                        | Fin q => Some (w * q)
                                        end) <$> r) !! j)) + rest
              <= hi * (w + sw)).
    rewrite list_lookup_fmap, Hq. simpl.
    assert (H1 : 0 <= w * (q - lo)) by (apply Qmult_le_0_compat; lra).
    assert (H2 : 0 <= w * (hi - q)) by (apply Qmult_le_0_compat; lra).
    split; lra.
Qed.

End Convexity.

(** X30. With Dirichlet weights, a library whose records have [n]
    finite features in [lo, hi] yields synthetic records with [n] mixed
    features, each finite and in [lo, hi]: a mixture is a convex
    combination of the selected records. *)
Theorem mix_fast_features_convex (df : list sample) nsamp rng out
    (n : nat) (lo hi : Q) :
  mix_fast df nsamp rng = inr out →
  (∀ i, (i < nsamp)%nat → dirichlet_draw (rng i)) →
  Forall (λ s, length (features s) = n
               ∧ Forall (in_range lo hi) (features s)) df →
  Forall (λ rec, length (mixed rec) = n
                 ∧ Forall (in_range lo hi) (mixed rec)) out.
Proof.
  unfold mix_fast. intros Hrun Hrng Hdf.
  destruct (sequence _) as [e|recs] eqn:Hseq; simpl in Hrun; [discriminate|].
  assert (out = recs) as -> by (destruct recs; [discriminate | congruence]).
  apply (sequence_Forall _ _ _ Hseq). apply Forall_fmap, Forall_forall.
  intros i Hi rec Hone. apply elem_of_seq in Hi. simpl in Hone.
  destruct (Hrng i ltac:(lia)) as (Hlen & Hnonneg & Hsum).
  unfold mix_one in Hone. case_bool_decide; [|discriminate].
  destruct (mapM _ (selected_rows (rng i))) as [picked|] eqn:Hpick;
    simpl in Hone; [|discriminate].
  injection Hone as <-. simpl.
  assert (Hpicked : Forall (λ s, length (features s) = n
                                 ∧ Forall (in_range lo hi) (features s)) picked).
  { apply mapM_Some_1 in Hpick. rewrite Forall_forall in Hdf.
    apply Forall_forall. intros s Hs.
    apply list_elem_of_lookup in Hs as [k Hk].
    destruct (Forall2_lookup_r _ _ _ _ _ Hpick Hk) as (idx & _ & Hidx).
    apply Hdf, list_elem_of_lookup. eauto. }
  assert (Hlenp : length picked = length (weights (rng i))).
  { apply length_mapM in Hpick. congruence. }
  assert (Hhd : length (hd [] (features <$> picked)) = n).
  { destruct picked as [|s picked].
    - exfalso. destruct (weights (rng i)); [|discriminate].
      simpl in Hsum. lra.
    - simpl. by inversion Hpicked as [|? ? [? _] _]. }
  unfold weighted_sum. rewrite Hhd, length_fmap, length_seq.
  split; [reflexivity|].
  apply Forall_fmap, Forall_forall. intros j Hj. apply elem_of_seq in Hj.
  simpl.
  destruct (weighted_column_bounds lo hi j (features <$> picked)
              (weights (rng i))) as [Hlo Hhi].
  - by rewrite length_fmap.
  - exact Hnonneg.
  - apply Forall_fmap. eapply Forall_impl; [exact Hpicked|].
    intros s [Hn Hfin]. simpl.
    destruct (lookup_lt_is_Some_2 (features s) j) as [v Hv]; [lia|].
    rewrite Forall_forall in Hfin.
    assert (Hr : in_range lo hi v) by (apply Hfin, list_elem_of_lookup; eauto).
    destruct v as [|q]; [done|]. exists q. by destruct Hr.
  - cbn zeta in Hlo, Hhi. rewrite Hsum in Hlo, Hhi.
    split; lra.
Qed.

Lemma mix_fast_features_convex_witness :
  let lib := [ {| features := [Fin (1 # 10); Fin (2 # 10)]; category := "veg" |};
               {| features := [Fin (5 # 10); Fin (6 # 10)]; category := "water" |} ] in
  let rng := λ _ : nat, {| selected_rows := [1; 0]%nat;
                           weights := [1 # 4; 3 # 4]%Q |} in
  ∃ out,
    mix_fast lib 2 rng = inr out
    ∧ Forall (λ rec, length (mixed rec) = 2%nat
                     ∧ Forall (in_range (1 # 10) (6 # 10)) (mixed rec)) out.
Proof.
  intros lib rng. eexists. split; [vm_compute; reflexivity|].
  apply (mix_fast_features_convex lib 2 rng _ 2 (1 # 10) (6 # 10)).
  - vm_compute. reflexivity.
  - intros i _. split; [reflexivity|]. split.
    + repeat constructor; by vm_compute.
    + by vm_compute.
  - repeat constructor; by vm_compute.
Defined.
